(** * wave-gen: the MIDI decoder, the MIDI player, the virtual keyboard and
      the Lissajous generator

    A shallow embedding of [src/js/midi.js], [src/js/keyboard.js] and
    [src/js/lissajous.js], and of the audio engine that the player and
    the keyboard drive.

    Conventions of the embedding.
    - A [DataView] over an [ArrayBuffer] is a [list byte]; reads outside
      the buffer throw [RangeError], as [DataView.prototype.getUint8] does.
    - JavaScript's bit operators work on signed 32-bit integers; [ToInt32]
      writes the wrap-around out and [shl32], [or32], [and32], [sar32] are
      the operators [<<], [|], [&], [>>].
    - Tick counts and byte offsets are integers far below 2^53 and are
      kept in [Z].
    - Timestamps in seconds are JavaScript numbers.  [num] keeps the
      special values ([NaN] and the infinities) and computes the finite
      ones exactly over [Q]: binary64 rounding and the sign of zero are
      not modelled.
    - An exception is the [Throw] outcome; a loop whose trip count has no
      bound in the source runs on fuel and [Timeout] is "still running". *)

From Stdlib Require Import ZArith QArith Qround Reals Lra Lia List String Ascii Strings.Byte Sorted.
From stdpp Require Import gmap strings list pretty.
Import ListNotations.

Open Scope Z_scope.

(* ===================================================================== *)
(** * JavaScript numbers *)
(* ===================================================================== *)

Module JS.

Inductive num : Type :=
| Fin (q : Q)
| PInf
| NInf
| NaN.

Definition ofZ (z : Z) : num := Fin (inject_Z z).

Definition isFinite (a : num) : bool :=
  match a with Fin _ => true | _ => false end.


Definition Qsgn (q : Q) : Z := Z.sgn (Qnum q).

Definition neg (a : num) : num :=
  match a with
  | Fin q => Fin (- q)%Q
  | PInf => NInf
  | NInf => PInf
  | NaN => NaN
  end.

Definition add (a b : num) : num :=
  match a, b with
  | NaN, _ | _, NaN => NaN
  | Fin x, Fin y => Fin (Qred (x + y)%Q)
  | PInf, NInf | NInf, PInf => NaN
  | PInf, _ | _, PInf => PInf
  | NInf, _ | _, NInf => NInf
  end.

Definition sub (a b : num) : num := add a (neg b).

(** An infinity scaled by a factor of sign [s]. *)
Definition signedInf (s : Z) (positive : bool) : num :=
  match s with
  | 0 => NaN
  | Zpos _ => if positive then PInf else NInf
  | Zneg _ => if positive then NInf else PInf
  end.

Definition mul (a b : num) : num :=
  match a, b with
  | NaN, _ | _, NaN => NaN
  | Fin x, Fin y => Fin (Qred (x * y)%Q)
  | Fin x, PInf | PInf, Fin x => signedInf (Qsgn x) true
  | Fin x, NInf | NInf, Fin x => signedInf (Qsgn x) false
  | PInf, PInf | NInf, NInf => PInf
  | PInf, NInf | NInf, PInf => NInf
  end.

(** Division; the divisor zero is [+0]. *)
Definition div (a b : num) : num :=
  match a, b with
  | NaN, _ | _, NaN => NaN
  | Fin x, Fin y =>
      if Qsgn y =? 0 then signedInf (Qsgn x) true
      else Fin (Qred (x / y)%Q)
  | Fin _, (PInf | NInf) => Fin 0
  | PInf, Fin y => if Qsgn y <? 0 then NInf else PInf
  | NInf, Fin y => if Qsgn y <? 0 then PInf else NInf
  | (PInf | NInf), (PInf | NInf) => NaN
  end.

(** [a < b]; every comparison with [NaN] is false. *)
Definition ltb (a b : num) : bool :=
  match a, b with
  | NaN, _ | _, NaN => false
  | Fin x, Fin y => match (x ?= y)%Q with Lt => true | _ => false end
  | NInf, NInf => false
  | NInf, _ => true
  | _, PInf => match a with PInf => false | _ => true end
  | _, _ => false
  end.

(** [a <= b]. *)
Definition leb (a b : num) : bool :=
  match a, b with
  | NaN, _ | _, NaN => false
  | Fin x, Fin y => match (x ?= y)%Q with Gt => false | _ => true end
  | NInf, _ => true
  | _, PInf => true
  | _, _ => false
  end.


(** [a === b] on numbers. *)
Definition eqb (a b : num) : bool :=
  match a, b with
  | Fin x, Fin y => Qeq_bool x y
  | PInf, PInf | NInf, NInf => true
  | _, _ => false
  end.

(** SameValueZero, the key equality of [Map] and [Set]. *)
Definition sameValueZero (a b : num) : bool :=
  match a, b with
  | NaN, NaN => true
  | _, _ => eqb a b
  end.

(** [Math.round]: the nearest integer, ties towards +infinity. *)
Definition mathRound (a : num) : num :=
  match a with
  | Fin q => ofZ (Qfloor (q + (1 # 2))%Q)
  | _ => a
  end.

(** [Math.max] of two arguments. *)
Definition max2 (a b : num) : num :=
  match a, b with
  | NaN, _ | _, NaN => NaN
  | _, _ => if ltb a b then b else a
  end.

(** [Math.max(...l)]; [-Infinity] without arguments. *)
Definition mathMax (l : list num) : num := fold_left max2 l NInf.

(** [Math.min] of two arguments. *)
Definition min2 (a b : num) : num :=
  match a, b with
  | NaN, _ | _, NaN => NaN
  | _, _ => if ltb b a then b else a
  end.

(** [Math.min(...l)]; [Infinity] without arguments. *)
Definition mathMin (l : list num) : num := fold_left min2 l PInf.

(** ** Signed 32-bit integers *)

Definition ToInt32 (z : Z) : Z := (z + 2 ^ 31) mod 2 ^ 32 - 2 ^ 31.

Definition shl32 (a n : Z) : Z := ToInt32 (Z.shiftl (ToInt32 a) n).
Definition sar32 (a n : Z) : Z := Z.shiftr (ToInt32 a) n.
Definition or32 (a b : Z) : Z := ToInt32 (Z.lor (ToInt32 a) (ToInt32 b)).
Definition and32 (a b : Z) : Z := ToInt32 (Z.land (ToInt32 a) (ToInt32 b)).

(** ** [Array.prototype.sort]

    The sort is stable and [cmp a b > 0] means that [a] goes after [b];
    a comparator result of [NaN] counts as [0].  For a comparator that
    is a consistent order this fixes the result; for any other
    comparator the result depends on the engine, and [sort] is the stable
    insertion from the right. *)

Section Sort.
Context {A : Type} (cmp : A -> A -> num).

Definition goesAfter (a b : A) : bool := ltb (Fin 0) (cmp a b).

Fixpoint insertSorted (x : A) (l : list A) : list A :=
  match l with
  | [] => [x]
  | y :: l' => if goesAfter x y then y :: insertSorted x l' else x :: l
  end.

Fixpoint sort (l : list A) : list A :=
  match l with
  | [] => []
  | x :: l' => insertSorted x (sort l')
  end.

End Sort.

(** ** [Set]

    [[...new Set(l)]]: the values of [l] without repetition, in the
    order in which they come first. *)
Definition setValues {A : Type} `{EqDecision A} (l : list A) : list A :=
  fold_left (fun values v => if decide (v ∈ values) then values else values ++ [v]) l [].

(** ** Arrays of booleans *)

(** [a[i] = v]; an index past the end extends the array, and the
    holes it leaves read as falsy. *)
Definition arraySet (i : nat) (v : bool) (a : list bool) : list bool :=
  if decide (i < length a)%nat then <[i:=v]> a
  else a ++ replicate (i - length a) false ++ [v].

(** [a.fill(false)]. *)
Definition fillFalse (a : list bool) : list bool := replicate (length a) false.

End JS.

(* ===================================================================== *)
(** * Outcomes of a call *)
(* ===================================================================== *)

Inductive exn : Type :=
| RangeError
| TypeError
| Error (message : string).

Inductive outcome (A : Type) : Type :=
| Ret (a : A)
| Throw (e : exn)
| Timeout.
Arguments Ret {A} a.
Arguments Throw {A} e.
Arguments Timeout {A}.

Definition bind {A B : Type} (m : outcome A) (k : A -> outcome B) : outcome B :=
  match m with
  | Ret a => k a
  | Throw e => Throw e
  | Timeout => Timeout
  end.

Notation "'let!' x ':=' m 'in' k" := (bind m (fun x => k))
  (at level 10, x pattern, m at level 100, k at level 200,
   format "'[v' 'let!'  x  ':='  m  'in' '/' k ']'").

(* ===================================================================== *)
(** * [DataView] *)
(* ===================================================================== *)

Definition DataView : Type := list byte.

Definition byteLength (view : DataView) : Z := Z.of_nat (length view).

Definition getUint8 (view : DataView) (byteOffset : Z) : outcome Z :=
  if byteOffset <? 0 then Throw RangeError
  else match view !! Z.to_nat byteOffset with
       | Some b => Ret (Z.of_N (Byte.to_N b))
       | None => Throw RangeError
       end.

(** Big-endian, the default of [DataView]. *)
Definition getUint16 (view : DataView) (byteOffset : Z) : outcome Z :=
  if (byteOffset <? 0) || (byteLength view <? byteOffset + 2) then Throw RangeError
  else
    let! b0 := getUint8 view byteOffset in
    let! b1 := getUint8 view (byteOffset + 1) in
    Ret (b0 * 256 + b1).

Definition getUint32 (view : DataView) (byteOffset : Z) : outcome Z :=
  if (byteOffset <? 0) || (byteLength view <? byteOffset + 4) then Throw RangeError
  else
    let! b0 := getUint8 view byteOffset in
    let! b1 := getUint8 view (byteOffset + 1) in
    let! b2 := getUint8 view (byteOffset + 2) in
    let! b3 := getUint8 view (byteOffset + 3) in
    Ret (((b0 * 256 + b1) * 256 + b2) * 256 + b3).

(* ===================================================================== *)
(** * [MIDIParser] *)
(* ===================================================================== *)

Module MIDIParser.

(** The type tag of an event together with the fields that the branch
    of [parseEvent] setting the tag also sets.  [Untyped] is a meta event
    [0x51] or [0x58] of unexpected length: [parseEvent] leaves
    [event.type] undefined. *)
Inductive body : Type :=
| NoteOff (channel note velocity status : Z)
| NoteOn (channel note velocity status : Z)
| ControlChange (channel controller value status : Z)
| Tempo (tempo : Z)
| TimeSignature (numerator denominator : Z)
| EndOfTrack
| Meta (metaType : Z)
| Sysex
| Unknown
| Untyped.

Inductive eventType : Type :=
| noteOff | noteOn | controlChange | tempo | timeSignature
| endOfTrack | meta | sysex | unknown.

Definition typeOf (b : body) : option eventType :=
  match b with
  | NoteOff _ _ _ _ => Some noteOff
  | NoteOn _ _ _ _ => Some noteOn
  | ControlChange _ _ _ _ => Some controlChange
  | Tempo _ => Some tempo
  | TimeSignature _ _ => Some timeSignature
  | EndOfTrack => Some endOfTrack
  | Meta _ => Some meta
  | Sysex => Some sysex
  | Unknown => Some unknown
  | Untyped => None
  end.

(** [event.note], undefined on events without the field. *)
Definition noteOf (b : body) : option Z :=
  match b with
  | NoteOff _ n _ _ | NoteOn _ n _ _ => Some n
  | _ => None
  end.

(** [event.status], undefined on events without the field. *)
Definition statusOf (b : body) : option Z :=
  match b with
  | NoteOff _ _ _ s | NoteOn _ _ _ s | ControlChange _ _ _ s => Some s
  | _ => None
  end.

(** The object returned by [parseEvent]. *)
Record event : Type := mkEvent {
  ev_time : Z;
  ev_body : body;
  ev_bytesRead : Z
}.

(** The object returned by [readVariableLength]. *)
Record varLength : Type := mkVarLength {
  vl_value : Z;
  vl_bytesRead : Z
}.

(** The [do ... while (byte & 0x80)] loop.  Every round reads one more
    byte of the buffer, so [length view] rounds of fuel are never used
    up (lemma [readVariableLength_returns]). *)
Fixpoint readVariableLength_loop (fuel : nat) (view : DataView) (offset : Z)
    (value bytesRead : Z) : outcome varLength :=
  let! byte := getUint8 view (offset + bytesRead) in
  let value := JS.or32 (JS.shl32 value 7) (JS.and32 byte 0x7F) in
  let bytesRead := bytesRead + 1 in
  if JS.and32 byte 0x80 =? 0 then Ret (mkVarLength value bytesRead)
  else match fuel with
       | O => Timeout
       | S fuel => readVariableLength_loop fuel view offset value bytesRead
       end.

Definition readVariableLength (view : DataView) (offset : Z) : outcome varLength :=
  readVariableLength_loop (length view) view offset 0 0.

(** [readString] builds the string of the character codes read. *)
Fixpoint readString_loop (view : DataView) (offset : Z) (count : nat) (i : Z)
    (result : string) : outcome string :=
  match count with
  | O => Ret result
  | S count =>
      let! c := getUint8 view (offset + i) in
      readString_loop view offset count (i + 1)
        (result +:+ String (ascii_of_N (Z.to_N c)) EmptyString)
  end.

Definition readString (view : DataView) (offset : Z) (length : nat) : outcome string :=
  readString_loop view offset length 0 "".

(** The inner [switch (metaType)] of [parseEvent]: the type and the
    fields it gives the event. *)
Definition metaBody (view : DataView) (offset bytesRead metaType : Z)
    (length : varLength) : outcome body :=
  match metaType with
  | 0x51 =>
      if vl_value length =? 3 then
        let! t0 := getUint8 view (offset + bytesRead) in
        let! t1 := getUint8 view (offset + bytesRead + 1) in
        let! t2 := getUint8 view (offset + bytesRead + 2) in
        Ret (Tempo (JS.or32 (JS.or32 (JS.shl32 t0 16) (JS.shl32 t1 8)) t2))
      else Ret Untyped
  | 0x58 =>
      if vl_value length =? 4 then
        let! numerator := getUint8 view (offset + bytesRead) in
        let! d := getUint8 view (offset + bytesRead + 1) in
        Ret (TimeSignature numerator (2 ^ d))
      else Ret Untyped
  | 0x2F => Ret EndOfTrack
  | _ => Ret (Meta metaType)
  end.

Definition parseEvent (view : DataView) (offset runningStatus time : Z) : outcome event :=
  let! status := getUint8 view offset in
  let bytesRead := 1 in
  (* Handle running status *)
  let '(status, bytesRead) :=
    if status <? 0x80 then (runningStatus, 0) else (status, bytesRead) in
  let channel := JS.and32 status 0x0F in
  let messageType := JS.sar32 (JS.and32 status 0xF0) 4 in
  match messageType with
  | 8 =>
      let! note := getUint8 view (offset + bytesRead) in
      let! velocity := getUint8 view (offset + bytesRead + 1) in
      Ret (mkEvent time (NoteOff channel note velocity status) (bytesRead + 2))
  | 9 =>
      let! velocity := getUint8 view (offset + bytesRead + 1) in
      let! note := getUint8 view (offset + bytesRead) in
      Ret (mkEvent time
             (if velocity =? 0 then NoteOff channel note velocity status
              else NoteOn channel note velocity status)
             (bytesRead + 2))
  | 11 =>
      let! controller := getUint8 view (offset + bytesRead) in
      let! value := getUint8 view (offset + bytesRead + 1) in
      Ret (mkEvent time (ControlChange channel controller value status) (bytesRead + 2))
  | 15 =>
      if status =? 0xFF then
        let! metaType := getUint8 view (offset + bytesRead) in
        let bytesRead := bytesRead + 1 in
        let! length := readVariableLength view (offset + bytesRead) in
        let bytesRead := bytesRead + vl_bytesRead length in
        let! b := metaBody view offset bytesRead metaType length in
        Ret (mkEvent time b (bytesRead + vl_value length))
      else
        Ret (mkEvent time Sysex (bytesRead + 1))
  | _ =>
      Ret (mkEvent time Unknown (bytesRead + 1))
  end.

(** The header object. *)
Record header : Type := mkHeader {
  h_length : Z;
  h_format : Z;
  h_trackCount : Z;
  h_ticksPerQuarter : Z
}.

Definition parseHeaderChunk (view : DataView) (offset : Z) : outcome header :=
  let! signature := readString view offset 4 in
  if negb (String.eqb signature "MThd") then
    Throw (Error "Invalid MIDI file: Missing MThd signature")
  else
    let! length := getUint32 view (offset + 4) in
    let! format := getUint16 view (offset + 8) in
    let! trackCount := getUint16 view (offset + 10) in
    let! ticksPerQuarter := getUint16 view (offset + 12) in
    Ret (mkHeader length format trackCount ticksPerQuarter).

(** The track object. *)
Record track : Type := mkTrack {
  t_length : Z;
  t_events : list event
}.

(** [runningStatus] after an event was pushed. *)
Definition nextRunningStatus (runningStatus : Z) (e : event) : Z :=
  match ev_body e with
  | NoteOn _ _ _ status | NoteOff _ _ _ status | ControlChange _ _ _ status => status
  | _ => runningStatus
  end.

(** The [while (trackOffset < trackEnd)] loop.  An event may declare a
    negative length (a variable-length quantity of five bytes wraps
    around), so the offset can move backwards and the loop has no bound:
    it runs on [fuel]. *)
Fixpoint parseTrackChunk_loop (fuel : nat) (view : DataView)
    (trackEnd trackOffset runningStatus currentTime : Z) (events : list event)
    : outcome (list event) :=
  if trackOffset <? trackEnd then
    match fuel with
    | O => Timeout
    | S fuel =>
        let! deltaTime := readVariableLength view trackOffset in
        let trackOffset := trackOffset + vl_bytesRead deltaTime in
        let currentTime := currentTime + vl_value deltaTime in
        let! event := parseEvent view trackOffset runningStatus currentTime in
        let events := events ++ [event] in
        let trackOffset := trackOffset + ev_bytesRead event in
        let runningStatus := nextRunningStatus runningStatus event in
        parseTrackChunk_loop fuel view trackEnd trackOffset runningStatus currentTime events
    end
  else Ret events.

Definition parseTrackChunk (fuel : nat) (view : DataView) (offset : Z) : outcome track :=
  let! signature := readString view offset 4 in
  if negb (String.eqb signature "MTrk") then
    Throw (Error "Invalid MIDI file: Missing MTrk signature")
  else
    let! length := getUint32 view (offset + 4) in
    let trackOffset := offset + 8 in
    let trackEnd := trackOffset + length in
    let! events := parseTrackChunk_loop fuel view trackEnd trackOffset 0 0 [] in
    Ret (mkTrack length events).

(** An event after [processEvents]: the same object with its [track]
    and [seconds] properties set. *)
Record timedEvent : Type := mkTimed {
  te_event : event;
  te_track : nat;
  te_seconds : JS.num
}.

Definition te_time (e : timedEvent) : Z := ev_time (te_event e).
Definition te_body (e : timedEvent) : body := ev_body (te_event e).
Definition te_type (e : timedEvent) : option eventType := typeOf (te_body e).
Definition te_note (e : timedEvent) : option Z := noteOf (te_body e).

(** The parser object. *)
Record parser : Type := mkParser {
  tracks : list track;
  ticksPerQuarter : Z;
  p_tempo : Z;
  format : option Z;
  trackCount : option Z
}.

Definition constructor : parser :=
  {| tracks := []; ticksPerQuarter := 96; p_tempo := 500000;
     format := None; trackCount := None |}.

(** [this.tracks.forEach((track, trackIndex) => ...)]: every event gets
    its track index and is pushed to [allEvents]. *)
Fixpoint mergeTracks (tracks : list track) (trackIndex : nat) : list (event * nat) :=
  match tracks with
  | [] => []
  | t :: tracks' =>
      map (fun e => (e, trackIndex)) (t_events t) ++ mergeTracks tracks' (S trackIndex)
  end.

(** The comparator [(a, b) => a.time - b.time]. *)
Definition byTime (a b : event * nat) : JS.num :=
  JS.sub (JS.ofZ (ev_time (fst a))) (JS.ofZ (ev_time (fst b))).

(** The [allEvents.forEach] that converts ticks to seconds. *)
Fixpoint assignSeconds (ticksPerQuarter currentTempo : Z) (currentTime : JS.num)
    (lastTickTime : Z) (allEvents : list (event * nat)) : list timedEvent :=
  match allEvents with
  | [] => []
  | (e, trackIndex) :: rest =>
      let currentTempo :=
        match ev_body e with Tempo t => t | _ => currentTempo end in
      let tickDelta := ev_time e - lastTickTime in
      let quartersElapsed := JS.div (JS.ofZ tickDelta) (JS.ofZ ticksPerQuarter) in
      let secondsDelta :=
        JS.mul quartersElapsed (JS.div (JS.ofZ currentTempo) (JS.ofZ 1000000)) in
      let currentTime := JS.add currentTime secondsDelta in
      mkTimed e trackIndex currentTime
        :: assignSeconds ticksPerQuarter currentTempo currentTime (ev_time e) rest
  end.

Definition processEvents (p : parser) : list timedEvent :=
  let allEvents := mergeTracks (tracks p) 0 in
  let allEvents := JS.sort byTime allEvents in
  assignSeconds (ticksPerQuarter p) (p_tempo p) (JS.Fin 0) 0 allEvents.

(** The [for (let i = 0; i < this.trackCount; i++)] loop of [parse]. *)
Fixpoint parseTracks (fuel : nat) (view : DataView) (count : nat) (offset : Z)
    (tracks : list track) : outcome (list track) :=
  match count with
  | O => Ret tracks
  | S count =>
      let! track := parseTrackChunk fuel view offset in
      parseTracks fuel view count (offset + (t_length track + 8)) (tracks ++ [track])
  end.

Definition parse (fuel : nat) (p : parser) (arrayBuffer : list byte)
    : outcome (parser * list timedEvent) :=
  let view : DataView := arrayBuffer in
  let offset := 0 in
  let! headerChunk := parseHeaderChunk view offset in
  let offset := offset + (h_length headerChunk + 8) in
  let! tracks := parseTracks fuel view (Z.to_nat (h_trackCount headerChunk)) offset [] in
  let p := {| tracks := tracks;
              ticksPerQuarter := h_ticksPerQuarter headerChunk;
              p_tempo := p_tempo p;
              format := Some (h_format headerChunk);
              trackCount := Some (h_trackCount headerChunk) |} in
  Ret (p, processEvents p).

(** The status that [parseEvent] decodes with and the offset of the
    first data byte, for an event whose first byte is [first]. *)
Definition statusUsed (first runningStatus : Z) : Z :=
  if first <? 0x80 then runningStatus else first.

Definition dataOffset (first offset : Z) : Z :=
  if first <? 0x80 then offset else offset + 1.

(** The events that set the running status in [parseTrackChunk]. *)
Definition isChannelEvent (e : event) : bool :=
  match typeOf (ev_body e) with
  | Some noteOn | Some noteOff | Some controlChange => true
  | _ => false
  end.

(** The status of the last noteOn, noteOff or controlChange event of
    [events], and 0 when there is none. *)
Definition lastChannelStatus (events : list event) : Z :=
  match last (List.filter isChannelEvent events) with
  | Some e => default 0 (statusOf (ev_body e))
  | None => 0
  end.

(** The channel message of status byte [status] with data bytes [d1]
    and [d2]. *)
Definition channelBody (status d1 d2 : Z) : body :=
  match status / 16 with
  | 8 => NoteOff (status mod 16) d1 d2 status
  | 9 => if d2 =? 0 then NoteOff (status mod 16) d1 d2 status
         else NoteOn (status mod 16) d1 d2 status
  | 11 => ControlChange (status mod 16) d1 d2 status
  | _ => Unknown
  end.

(** Event [e], which follows the events [before] in its track, is what
    [parseEvent] returns at some offset [o] of the buffer with the
    running status that [before] leaves.  When the byte at [o] is below
    0x80, the event is decoded with that running status from the data
    bytes at [o] and [o + 1] and takes two bytes (or, before any status
    was seen, is an unknown event of one byte).  The running status after
    [e] is the status [e] was decoded with when [e] is a noteOn, noteOff
    or controlChange event, and is unchanged otherwise. *)
Definition decodedAfter (view : DataView) (before : list event) (e : event) : Prop :=
  let runningStatus := lastChannelStatus before in
  exists o first,
    getUint8 view o = Ret first /\
    parseEvent view o runningStatus (ev_time e) = Ret e /\
    (first < 0x80 ->
       (runningStatus = 0 /\ ev_body e = Unknown /\ ev_bytesRead e = 1) \/
       (exists d2,
           getUint8 view (o + 1) = Ret d2 /\
           ev_body e = channelBody runningStatus first d2 /\
           statusOf (ev_body e) = Some runningStatus /\
           ev_bytesRead e = 2)) /\
    lastChannelStatus (before ++ [e]) =
      (if isChannelEvent e then statusUsed first runningStatus else runningStatus).

(** The base-128 big-endian number spelled by the low seven bits of
    [bytes]. *)
Definition base128 (bytes : list Z) : Z :=
  fold_left (fun acc b => acc * 128 + b mod 128) bytes 0.

(** The bytes of [view] from [offset] on, as numbers. *)
Definition bytesFrom (view : DataView) (offset : Z) : list Z :=
  map (fun b => Z.of_N (Byte.to_N b)) (drop (Z.to_nat offset) view).

(** The character codes of the two chunk signatures. *)
Definition MThd : list Z := [77; 84; 104; 100].
Definition MTrk : list Z := [77; 84; 114; 107].

(** The four bytes at [offset], when the buffer has them. *)
Definition signatureAt (view : DataView) (offset : Z) : option (list Z) :=
  if offset <? 0 then None
  else let bytes := take 4 (bytesFrom view offset) in
       if (length bytes =? 4)%nat then Some bytes else None.

(** The big-endian number of the [count] bytes at index [i] of [bytes]. *)
Definition bigEndian (bytes : list Z) (i count : nat) : Z :=
  fold_left (fun acc v => acc * 256 + v) (take count (drop i bytes)) 0.

(** [parseHeaderChunk] as the format describes it: the signature, then
    a length of four bytes and three fields of two bytes. *)
Definition headerSpec (view : DataView) (offset : Z) : outcome header :=
  match signatureAt view offset with
  | None => Throw RangeError
  | Some signature =>
      if decide (signature = MThd) then
        let bytes := bytesFrom view offset in
        if (length bytes <? 14)%nat then Throw RangeError
        else Ret {| h_length := bigEndian bytes 4 4;
                    h_format := bigEndian bytes 8 2;
                    h_trackCount := bigEndian bytes 10 2;
                    h_ticksPerQuarter := bigEndian bytes 12 2 |}
      else Throw (Error "Invalid MIDI file: Missing MThd signature")
  end.

(** The bytes of a variable-length quantity at the head of [rest]: up to
    and including the first byte whose high bit is clear; [None] when
    every byte has it set. *)
Fixpoint consumed (rest : list Z) : option (list Z) :=
  match rest with
  | [] => None
  | b :: rest' => if b <? 128 then Some [b] else cons b <$> consumed rest'
  end.

(** [readVariableLength] as the format describes it, on signed 32-bit
    integers. *)
Definition variableLengthSpec (view : DataView) (offset : Z) : outcome varLength :=
  if offset <? 0 then Throw RangeError
  else match consumed (bytesFrom view offset) with
       | Some bytes =>
           Ret {| vl_value := JS.ToInt32 (base128 bytes);
                  vl_bytesRead := Z.of_nat (length bytes) |}
       | None => Throw RangeError
       end.

Definition isTempo (e : event) : bool :=
  match ev_body e with Tempo _ => true | _ => false end.

(** The tempo in force after the events [l]: that of the last tempo
    event, and [initial] when there is none. *)
Definition tempoAfter (initial : Z) (l : list event) : Z :=
  match last (List.filter isTempo l) with
  | Some {| ev_body := Tempo t |} => t
  | _ => initial
  end.

(** The timestamp of [e], which follows the events [before] in the
    merged list, is the timestamp of the event before it (0 ahead of the
    first event) plus (tick delta / ticksPerQuarter) * (tempo /
    1,000,000), with the tempo in force after [e]. *)
Definition accumulates (ticksPerQuarter initialTempo : Z)
    (before : list timedEvent) (e : timedEvent) : Prop :=
  let previousSeconds :=
    match last before with Some a => te_seconds a | None => JS.Fin 0 end in
  let previousTick :=
    match last before with Some a => te_time a | None => 0 end in
  let currentTempo := tempoAfter initialTempo (map te_event (before ++ [e])) in
  te_seconds e =
    JS.add previousSeconds
      (JS.mul (JS.div (JS.ofZ (te_time e - previousTick)) (JS.ofZ ticksPerQuarter))
              (JS.div (JS.ofZ currentTempo) (JS.ofZ 1000000))).

(** A tempo read from three bytes is not negative. *)
Definition tempoInRange (e : event) : Prop :=
  match ev_body e with
  | Tempo t => 0 <= t < 2 ^ 24
  | _ => True
  end.

(** The timestamps never decrease along the list, by JavaScript's [<=]. *)
Fixpoint nondecreasing (l : list JS.num) : bool :=
  match l with
  | a :: (b :: _) as l' => JS.leb a b && nondecreasing l'
  | _ => true
  end.

(** ** Notions used in the statements *)

Definition isChannelStatus (s : Z) : Prop := s / 16 = 8 \/ s / 16 = 9 \/ s / 16 = 11.

(** A meta event is [Meta], [EndOfTrack], [Untyped], a [Tempo] of 24
    bits or a [TimeSignature]. *)
Definition isMetaBody (b : body) : Prop :=
  match b with
  | Tempo t => 0 <= t < 2 ^ 24
  | TimeSignature _ _ | EndOfTrack | Meta _ | Untyped => True
  | _ => False
  end.

(** The events of [events] are each decoded after the ones before. *)
Definition allDecoded (view : DataView) (events : list event) : Prop :=
  forall before e after, events = before ++ e :: after -> decodedAfter view before e.

(** The string that [String.fromCharCode] builds from four codes. *)
Definition fromCharCodes (codes : list Z) : string :=
  string_of_list_ascii (map (fun c => ascii_of_N (Z.to_N c)) codes).

(** The timestamp after one more event, for a non-zero resolution. *)
Definition advance (c : Q) (tickDelta ticksPerQuarter currentTempo : Z) : Q :=
  Qred (c + Qred (Qred (inject_Z tickDelta / inject_Z ticksPerQuarter)
                  * Qred (inject_Z currentTempo / inject_Z 1000000))).

Definition timeOrdered (a b : event * nat) : Prop := ev_time (fst a) <= ev_time (fst b).

(** The offset at which [parse] looks for the chunk of track [i]: behind
    the header chunk and the chunks of the tracks before it, each as
    long as it declares. *)
Definition chunkOffset (headerLength : Z) (tracks : list track) (i : nat) : Z :=
  fold_left (fun offset t => offset + (t_length t + 8)) (take i tracks)
    (0 + (headerLength + 8)).

(** The tick time of the last event of [events], and 0 when there is
    none. *)
Definition lastTime (events : list event) : Z :=
  match last events with
  | Some e => ev_time e
  | None => 0
  end.

(** The event [e] of a track, with the events [before] it: a delta time
    is read at some offset [o] and [e] is decoded right behind it, with
    the running status that [before] leaves; the tick time of [e] is
    that of the event before it plus the delta time, which is not
    negative when its quantity has at most four bytes. *)
Definition timedAfter (view : DataView) (before : list event) (e : event) : Prop :=
  exists o deltaTime,
    readVariableLength view o = Ret deltaTime /\
    parseEvent view (o + vl_bytesRead deltaTime) (lastChannelStatus before) (ev_time e)
      = Ret e /\
    ev_time e = lastTime before + vl_value deltaTime /\
    (vl_bytesRead deltaTime <= 4 -> 0 <= vl_value deltaTime).

Definition allTimed (view : DataView) (events : list event) : Prop :=
  forall before e after, events = before ++ e :: after -> timedAfter view before e.

(** The length of a meta event has at most four bytes, wherever the
    buffer has the status byte 0xFF of one: the quantity two bytes
    behind it. *)
Definition metaLengthsFit (view : DataView) : bool :=
  forallb
    (fun o => match bytesFrom view (Z.of_nat o) with
              | 255 :: _ :: rest =>
                  match consumed rest with
                  | Some bytes => (length bytes <=? 4)%nat
                  | None => true
                  end
              | _ => true
              end)
    (seq 0 (length view)).

(** No track has a tempo event. *)
Definition noTempoEvents (tracks : list track) : Prop :=
  Forall (fun t => Forall (fun e => isTempo e = false) (t_events t)) tracks.

End MIDIParser.

(* ===================================================================== *)
(** * [MIDIPlayer] *)
(* ===================================================================== *)

Module MIDIPlayer.
Import MIDIParser.

(** An event object held by the player.  [allEvents] and [events] share
    their objects, and [applyTrackFilter] writes to [seconds] in place;
    [pe_id], the position of the object in the array given to [load],
    stands for the identity of the object. *)
Record playerEvent : Type := mkPlayerEvent {
  pe_id : nat;
  pe_event : timedEvent
}.

Definition seconds (e : playerEvent) : JS.num := te_seconds (pe_event e).
Definition type (e : playerEvent) : option eventType := te_type (pe_event e).
Definition note (e : playerEvent) : option Z := te_note (pe_event e).
Definition track (e : playerEvent) : nat := te_track (pe_event e).

(** [e.seconds = s]. *)
Definition setSeconds (e : playerEvent) (s : JS.num) : playerEvent :=
  {| pe_id := pe_id e;
     pe_event := {| te_event := te_event (pe_event e);
                    te_track := te_track (pe_event e);
                    te_seconds := s |} |}.

(** The argument of [applyTrackFilter]: ['all'], or a string that
    [parseInt] reads as a track number (a string it reads as [NaN]
    selects no track, as a negative number does). *)
Inductive trackFilter : Type :=
| all
| trackNumber (trackIndex : Z).

(** The player, with the two objects it acts on: the keys of
    [audioEngine.oscillators] and [window.virtualKeyboard.keyStates]
    ([None] when there is no [window.virtualKeyboard]).  The interval
    timer is the caller of [update]; the callbacks [onTimeUpdate] and
    [onEnd] act on the page only. *)
Record player : Type := mkPlayer {
  allEvents : list playerEvent;
  events : list playerEvent;
  isPlaying : bool;
  isPaused : bool;
  currentTime : JS.num;
  startTime : JS.num;
  pauseTime : JS.num;
  eventIndex : nat;
  duration : JS.num;
  activeNotes : gset Z;
  selectedTrack : trackFilter;
  oscillators : gset Z;
  keyStates : option (list bool)
}.

(** [new MIDIPlayer(audioEngine)], next to a keyboard as
    [new VirtualKeyboard()] leaves it. *)
Definition constructor : player :=
  {| allEvents := []; events := [];
     isPlaying := false; isPaused := false;
     currentTime := JS.Fin 0; startTime := JS.Fin 0; pauseTime := JS.Fin 0;
     eventIndex := 0%nat; duration := JS.Fin 0;
     activeNotes := ∅; selectedTrack := all;
     oscillators := ∅; keyStates := Some (replicate 114 false) |}.

(** ** [applyTrackFilter] *)

Definition keepOnLoad (e : playerEvent) : bool :=
  match type e with
  | Some noteOn | Some noteOff | Some tempo | Some timeSignature => true
  | _ => false
  end.

Definition keepForTrack (trackIndex : Z) (e : playerEvent) : bool :=
  (Z.of_nat (track e) =? trackIndex) ||
  match type e with
  | Some tempo | Some timeSignature => true
  | _ => false
  end.

Definition sameNote (a b : option Z) : bool :=
  match a, b with
  | Some x, Some y => x =? y
  | None, None => true
  | _, _ => false
  end.

(** The comparator of the first sort. *)
Definition byTimeThenType (a b : playerEvent) : JS.num :=
  if negb (JS.eqb (seconds a) (seconds b)) then JS.sub (seconds a) (seconds b)
  else if negb (sameNote (note a) (note b)) then JS.Fin 0
  else match type a, type b with
       | Some noteOff, Some noteOn => JS.Fin (-1)
       | Some noteOn, Some noteOff => JS.Fin 1
       | _, _ => JS.Fin 0
       end.

(** The comparator [(a, b) => a.seconds - b.seconds]. *)
Definition bySeconds (a b : playerEvent) : JS.num :=
  JS.sub (seconds a) (seconds b).

(** [eventGroups], a [Map] from [timeKey] to the events of that
    millisecond, in insertion order. *)
Fixpoint groupPush (timeKey : JS.num) (e : playerEvent)
    (eventGroups : list (JS.num * list playerEvent)) : list (JS.num * list playerEvent) :=
  match eventGroups with
  | [] => [(timeKey, [e])]
  | (k, es) :: rest =>
      if JS.sameValueZero k timeKey then (k, es ++ [e]) :: rest
      else (k, es) :: groupPush timeKey e rest
  end.

Definition groupByTime (filteredEvents : list playerEvent) : list (JS.num * list playerEvent) :=
  fold_left
    (fun eventGroups e =>
       let timeKey := JS.mathRound (JS.mul (seconds e) (JS.ofZ 1000)) in
       groupPush timeKey e eventGroups)
    filteredEvents [].

(** The body of [eventsAtTime.forEach]; [noteStates] maps a note to the
    type of the last event kept for it. *)
Definition dedupStep (st : gmap Z eventType * list playerEvent) (e : playerEvent)
    : gmap Z eventType * list playerEvent :=
  let '(noteStates, deduplicatedEvents) := st in
  match pe_event e with
  | {| te_event := {| ev_body := NoteOn _ n _ _ |} |} =>
      match noteStates !! n with
      | None | Some noteOff => (<[n:=noteOn]> noteStates, deduplicatedEvents ++ [e])
      | Some _ => st
      end
  | {| te_event := {| ev_body := NoteOff _ n _ _ |} |} =>
      match noteStates !! n with
      | None | Some noteOn => (<[n:=noteOff]> noteStates, deduplicatedEvents ++ [e])
      | Some _ => st
      end
  | _ => (noteStates, deduplicatedEvents ++ [e])
  end.

Definition dedupGroups (eventGroups : list (JS.num * list playerEvent)) : list playerEvent :=
  fold_left
    (fun deduplicatedEvents '(_, eventsAtTime) =>
       snd (fold_left dedupStep eventsAtTime (∅, deduplicatedEvents)))
    eventGroups [].

Definition minNoteDuration : JS.num := JS.Fin (5 # 100).

(** The inner [for (let j = i + 1; ...)] loop: the index of the first
    noteOff of [n] among [rest], which starts at index [j]. *)
Fixpoint findNoteOff (n : Z) (j : nat) (rest : list playerEvent) : option nat :=
  match rest with
  | [] => None
  | candidate :: rest' =>
      match te_body (pe_event candidate) with
      | NoteOff _ m _ _ => if m =? n then Some j else findNoteOff n (S j) rest'
      | _ => findNoteOff n (S j) rest'
      end
  end.

(** One round of the outer loop, at index [i]. *)
Definition extendStep (deduplicatedEvents : list playerEvent) (i : nat) : list playerEvent :=
  match deduplicatedEvents !! i with
  | Some current =>
      match te_body (pe_event current) with
      | NoteOn _ n _ _ =>
          match findNoteOff n (S i) (drop (S i) deduplicatedEvents) with
          | Some j =>
              match deduplicatedEvents !! j with
              | Some candidate =>
                  let noteDuration := JS.sub (seconds candidate) (seconds current) in
                  if JS.ltb noteDuration minNoteDuration then
                    <[j := setSeconds candidate (JS.add (seconds current) minNoteDuration)]>
                      deduplicatedEvents
                  else deduplicatedEvents
              | None => deduplicatedEvents
              end
          | None => deduplicatedEvents
          end
      | _ => deduplicatedEvents
      end
  | None => deduplicatedEvents
  end.

(** [for (let i = 0; i < deduplicatedEvents.length - 1; i++)]. *)
Definition extendShortNotes (deduplicatedEvents : list playerEvent) : list playerEvent :=
  fold_left extendStep (seq 0 (length deduplicatedEvents - 1)) deduplicatedEvents.

(** The objects of [allEvents] as [events] left them: an object that
    is in [events] too has the [seconds] written there. *)
Definition writeBack (events allEvents : list playerEvent) : list playerEvent :=
  map (fun e =>
         match find (fun e' => Nat.eqb (pe_id e') (pe_id e)) events with
         | Some e' => e'
         | None => e
         end)
      allEvents.

Definition filteredEvents (trackFilter : trackFilter) (allEvents : list playerEvent)
    : list playerEvent :=
  match trackFilter with
  | all => allEvents
  | trackNumber trackIndex => List.filter (keepForTrack trackIndex) allEvents
  end.

(** The event list that [applyTrackFilter] stores in [this.events]. *)
Definition filteredPlaylist (trackFilter : trackFilter) (allEvents : list playerEvent)
    : list playerEvent :=
  let filteredEvents := JS.sort byTimeThenType (filteredEvents trackFilter allEvents) in
  let deduplicatedEvents := dedupGroups (groupByTime filteredEvents) in
  let deduplicatedEvents := JS.sort bySeconds deduplicatedEvents in
  let deduplicatedEvents := extendShortNotes deduplicatedEvents in
  JS.sort bySeconds deduplicatedEvents.

Definition applyTrackFilter (trackFilter : trackFilter) (p : player) : player :=
  let events := filteredPlaylist trackFilter (allEvents p) in
  {| allEvents := writeBack events (allEvents p);
     events := events;
     isPlaying := isPlaying p; isPaused := isPaused p;
     currentTime := currentTime p; startTime := startTime p; pauseTime := pauseTime p;
     eventIndex := eventIndex p;
     duration := if (0 <? length events)%nat then JS.mathMax (map seconds events)
                 else JS.Fin 0;
     activeNotes := activeNotes p; selectedTrack := trackFilter;
     oscillators := oscillators p; keyStates := keyStates p |}.

(** ** Transport *)

Definition reset (p : player) : player :=
  {| allEvents := allEvents p; events := events p;
     isPlaying := isPlaying p; isPaused := isPaused p;
     currentTime := JS.Fin 0; startTime := JS.Fin 0; pauseTime := JS.Fin 0;
     eventIndex := 0%nat;
     duration := duration p;
     activeNotes := ∅; selectedTrack := selectedTrack p;
     oscillators := oscillators p;
     keyStates := JS.fillFalse <$> keyStates p |}.

(** [load(events)]; the objects are numbered as they come. *)
Definition load (loaded : list timedEvent) (p : player) : player :=
  let objects := imap mkPlayerEvent loaded in
  let p :=
    {| allEvents := List.filter keepOnLoad objects; events := events p;
       isPlaying := isPlaying p; isPaused := isPaused p;
       currentTime := currentTime p; startTime := startTime p; pauseTime := pauseTime p;
       eventIndex := eventIndex p; duration := duration p;
       activeNotes := activeNotes p; selectedTrack := selectedTrack p;
       oscillators := oscillators p; keyStates := keyStates p |} in
  reset (applyTrackFilter (selectedTrack p) p).

Definition stop (p : player) : player :=
  reset
    {| allEvents := allEvents p; events := events p;
       isPlaying := false; isPaused := false;
       currentTime := currentTime p; startTime := startTime p; pauseTime := pauseTime p;
       eventIndex := eventIndex p; duration := duration p;
       activeNotes := ∅; selectedTrack := selectedTrack p;
       oscillators := ∅;
       keyStates := JS.fillFalse <$> keyStates p |}.

Definition pause (p : player) : player :=
  if isPlaying p && negb (isPaused p) then
    {| allEvents := allEvents p; events := events p;
       isPlaying := isPlaying p; isPaused := true;
       currentTime := currentTime p; startTime := startTime p;
       pauseTime := currentTime p;
       eventIndex := eventIndex p; duration := duration p;
       activeNotes := ∅; selectedTrack := selectedTrack p;
       oscillators := ∅;
       keyStates := JS.fillFalse <$> keyStates p |}
  else p.

(** [now] is [performance.now() / 1000] at the time of the call. *)
Definition resume (now : JS.num) (p : player) : player :=
  if isPaused p then
    {| allEvents := allEvents p; events := events p;
       isPlaying := isPlaying p; isPaused := false;
       currentTime := currentTime p;
       startTime := JS.sub now (pauseTime p);
       pauseTime := pauseTime p;
       eventIndex := eventIndex p; duration := duration p;
       activeNotes := activeNotes p; selectedTrack := selectedTrack p;
       oscillators := oscillators p; keyStates := keyStates p |}
  else p.

Definition play (now : JS.num) (p : player) : player :=
  if isPaused p then resume now p
  else
    {| allEvents := allEvents p; events := events p;
       isPlaying := true; isPaused := false;
       currentTime := currentTime p;
       startTime := now;
       pauseTime := pauseTime p;
       eventIndex := 0%nat; duration := duration p;
       activeNotes := activeNotes p; selectedTrack := selectedTrack p;
       oscillators := oscillators p; keyStates := keyStates p |}.

(** The player with new sounding notes and key states. *)
Definition withNotes (activeNotes oscillators : gset Z) (keyStates : option (list bool))
    (p : player) : player :=
  {| allEvents := allEvents p; events := events p;
     isPlaying := isPlaying p; isPaused := isPaused p;
     currentTime := currentTime p; startTime := startTime p; pauseTime := pauseTime p;
     eventIndex := eventIndex p; duration := duration p;
     activeNotes := activeNotes; selectedTrack := selectedTrack p;
     oscillators := oscillators; keyStates := keyStates |}.

Definition inKeyboardRange (n : Z) : bool := (12 <=? n) && (n <=? 125).

Definition processEvent (event : playerEvent) (p : player) : player :=
  match te_body (pe_event event) with
  | NoteOn _ n _ _ =>
      withNotes ({[n]} ∪ activeNotes p) ({[n]} ∪ oscillators p)
        (if inKeyboardRange n then JS.arraySet (Z.to_nat (n - 12)) true <$> keyStates p
         else keyStates p)
        p
  | NoteOff _ n _ _ =>
      if decide (n ∈ activeNotes p) then
        withNotes (activeNotes p ∖ {[n]}) (oscillators p ∖ {[n]})
          (if inKeyboardRange n then JS.arraySet (Z.to_nat (n - 12)) false <$> keyStates p
           else keyStates p)
          p
      else p
  | _ => p
  end.

Definition withPosition (currentTime startTime pauseTime : JS.num) (eventIndex : nat)
    (p : player) : player :=
  {| allEvents := allEvents p; events := events p;
     isPlaying := isPlaying p; isPaused := isPaused p;
     currentTime := currentTime; startTime := startTime; pauseTime := pauseTime;
     eventIndex := eventIndex; duration := duration p;
     activeNotes := activeNotes p; selectedTrack := selectedTrack p;
     oscillators := oscillators p; keyStates := keyStates p |}.



(** The first index whose event is not before [targetTime]. *)
Fixpoint seekIndex (targetTime : JS.num) (eventIndex : nat) (rest : list playerEvent) : nat :=
  match rest with
  | [] => eventIndex
  | e :: rest' =>
      if JS.ltb (seconds e) targetTime then seekIndex targetTime (S eventIndex) rest'
      else eventIndex
  end.

(** The body of the backwards scan of [seek]; the state is
    [notesAtTime], [activeNotes] and the oscillators. *)
Definition seekScanStep (st : gset Z * gset Z * gset Z) (event : playerEvent)
    : gset Z * gset Z * gset Z :=
  let '(notesAtTime, activeNotes, oscillators) := st in
  match te_body (pe_event event) with
  | NoteOn _ n _ _ =>
      if decide (n ∈ notesAtTime) then st
      else ({[n]} ∪ notesAtTime, {[n]} ∪ activeNotes, {[n]} ∪ oscillators)
  | NoteOff _ n _ _ => ({[n]} ∪ notesAtTime, activeNotes, oscillators)
  | _ => st
  end.

Definition seek (now timePercent : JS.num) (p : player) : player :=
  let targetTime := JS.mul (duration p) timePercent in
  let eventIndex := seekIndex targetTime 0 (events p) in
  let '(_, activeNotes, oscillators) :=
    fold_left seekScanStep (rev (take eventIndex (events p))) (∅, ∅, ∅) in
  let p := withNotes activeNotes oscillators (keyStates p) p in
  if isPlaying p && negb (isPaused p) then
    withPosition (currentTime p) (JS.sub now targetTime) (pauseTime p) eventIndex p
  else
    withPosition targetTime (startTime p) targetTime eventIndex p.

(** ** Runs *)


(** The operations of the player that touch the notes. *)
Inductive operation : Type :=
| OpProcessEvent (event : playerEvent)
| OpPause
| OpStop
| OpReset
| OpSeek (now timePercent : JS.num).

Definition perform (p : player) (op : operation) : player :=
  match op with
  | OpProcessEvent event => processEvent event p
  | OpPause => pause p
  | OpStop => stop p
  | OpReset => reset p
  | OpSeek now timePercent => seek now timePercent p
  end.

(** Note [n] sounds for the player exactly when its key is down. *)
Definition synchronized (p : player) (n : Z) : Prop :=
  n ∈ activeNotes p <-> (keyStates p ≫= (.!! Z.to_nat (n - 12))) = Some true.

(** The first noteOff of note [n] in [l]. *)
Fixpoint firstNoteOff (n : Z) (l : list playerEvent) : option playerEvent :=
  match l with
  | [] => None
  | e :: l' =>
      match te_body (pe_event e) with
      | NoteOff _ m _ _ => if m =? n then Some e else firstNoteOff n l'
      | _ => firstNoteOff n l'
      end
  end.

(** Every noteOn of [l] is followed by its noteOff no sooner than
    [minNoteDuration] later. *)
Fixpoint notesLastMinimum (l : list playerEvent) : bool :=
  match l with
  | [] => true
  | e :: l' =>
      match te_body (pe_event e) with
      | NoteOn _ n _ _ =>
          match firstNoteOff n l' with
          | Some off => JS.leb (JS.add (seconds e) minNoteDuration) (seconds off)
          | None => true
          end
      | _ => true
      end && notesLastMinimum l'
  end.

(** ** [getTrackInfo] and [getAvailableTracks] *)

Definition isNoteOn (e : playerEvent) : bool :=
  match type e with Some noteOn => true | _ => false end.

(** [e.note] as an argument of [Math.min] and [Math.max]; an undefined
    one counts as [NaN]. *)
Definition noteNumber (e : playerEvent) : JS.num :=
  match note e with Some n => JS.ofZ n | None => JS.NaN end.

(** The object returned by [getTrackInfo]. *)
Record trackInfo : Type := mkTrackInfo {
  ti_duration : JS.num;
  ti_tracks : nat;
  availableTracks : list nat;
  noteCount : nat;
  totalNoteCount : nat;
  noteRange : JS.num * JS.num;
  ti_selectedTrack : trackFilter
}.

Definition getTrackInfo (p : player) : trackInfo :=
  let noteEvents := List.filter isNoteOn (events p) in
  let allNoteEvents := List.filter isNoteOn (allEvents p) in
  let tracks := JS.setValues (map track allNoteEvents) in
  let noteRange :=
    if (0 <? length noteEvents)%nat
    then (JS.mathMin (map noteNumber noteEvents), JS.mathMax (map noteNumber noteEvents))
    else (JS.Fin 0, JS.Fin 127) in
  {| ti_duration := duration p;
     ti_tracks := length tracks;
     availableTracks := tracks;
     noteCount := length noteEvents;
     totalNoteCount := length allNoteEvents;
     noteRange := noteRange;
     ti_selectedTrack := selectedTrack p |}.

(** [trackCounts.set(track, (trackCounts.get(track) || 0) + 1)] on a
    [Map] kept in insertion order. *)
Fixpoint countPush (track : nat) (trackCounts : list (nat * nat)) : list (nat * nat) :=
  match trackCounts with
  | [] => [(track, 1%nat)]
  | (k, c) :: rest =>
      if Nat.eqb k track then (k, (c + 1)%nat) :: rest
      else (k, c) :: countPush track rest
  end.

(** The comparator [(a, b) => a[0] - b[0]]. *)
Definition byTrack (a b : nat * nat) : JS.num :=
  JS.sub (JS.ofZ (Z.of_nat (fst a))) (JS.ofZ (Z.of_nat (fst b))).

(** The pairs of [track] and [noteCount] that [getAvailableTracks]
    returns. *)
Definition getAvailableTracks (p : player) : list (nat * nat) :=
  let noteEvents := List.filter isNoteOn (allEvents p) in
  let trackCounts :=
    fold_left (fun trackCounts event => countPush (track event) trackCounts)
      noteEvents [] in
  JS.sort byTrack trackCounts.

(** ** Notions used in the statements *)

(** The object an event of the player stands for, with what
    [applyTrackFilter] never writes to. *)
Definition identity (e : playerEvent) : nat * event * nat :=
  (pe_id e, te_event (pe_event e), te_track (pe_event e)).

(** The player with all notes stopped, as [seek] has it before it
    looks for the notes to restart. *)
Definition silenced (p : player) : player := withNotes ∅ ∅ (keyStates p) p.

(** [processEvent] for the events of [l], in order. *)
Definition replay (l : list playerEvent) (p : player) : player :=
  fold_left (fun p event => processEvent event p) l p.

(** Whether note [n] sounds after the events [l], played in order from
    a state in which it sounds or not ([sounding]). *)
Definition soundsAfter (n : Z) (l : list playerEvent) (sounding : bool) : bool :=
  fold_left
    (fun sounding e =>
       match te_body (pe_event e) with
       | NoteOn _ m _ _ => if m =? n then true else sounding
       | NoteOff _ m _ _ => if m =? n then false else sounding
       | _ => sounding
       end)
    l sounding.

(** [trackCounts.get(track) || 0]. *)
Definition countOf (track : nat) (trackCounts : list (nat * nat)) : nat :=
  match find (fun entry => Nat.eqb (fst entry) track) trackCounts with
  | Some (_, c) => c
  | None => 0%nat
  end.

(** The number of noteOn events of track [t] in [l]. *)
Definition notesOfTrack (t : nat) (l : list playerEvent) : nat :=
  length (List.filter (fun e => isNoteOn e && Nat.eqb (track e) t) l).












(** The keyboard is there, with its 114 keys. *)
Definition keyboardReady (p : player) : Prop :=
  exists ks, keyStates p = Some ks /\ length ks = 114%nat.

Definition allSynchronized (p : player) : Prop :=
  forall n, 12 <= n <= 125 -> synchronized p n.

Definition isSeek (op : operation) : bool :=
  match op with OpSeek _ _ => true | _ => false end.

End MIDIPlayer.

(* ===================================================================== *)
(** * [VirtualKeyboard] *)
(* ===================================================================== *)

Module VirtualKeyboard.

(** The state of the keyboard; the page elements and their [active]
    class are not part of it. *)
Record keyboard : Type := mkKeyboard {
  currentOctave : Z;
  sustainMode : bool;
  keyStates : list bool;
  physicallyPressed : gset string
}.

Definition noteToMidi : gmap string (list Z) :=
  list_to_map
    [("C", [12; 24; 36; 48; 60; 72; 84; 96; 108; 120]);
     ("C#", [13; 25; 37; 49; 61; 73; 85; 97; 109; 121]);
     ("D", [14; 26; 38; 50; 62; 74; 86; 98; 110; 122]);
     ("D#", [15; 27; 39; 51; 63; 75; 87; 99; 111; 123]);
     ("E", [16; 28; 40; 52; 64; 76; 88; 100; 112; 124]);
     ("F", [17; 29; 41; 53; 65; 77; 89; 101; 113; 125]);
     ("F#", [18; 30; 42; 54; 66; 78; 90; 102; 114]);
     ("G", [19; 31; 43; 55; 67; 79; 91; 103; 115]);
     ("G#", [20; 32; 44; 56; 68; 80; 92; 104; 116]);
     ("A", [21; 33; 45; 57; 69; 81; 93; 105; 117]);
     ("A#", [22; 34; 46; 58; 70; 82; 94; 106; 118]);
     ("B", [23; 35; 47; 59; 71; 83; 95; 107; 119])].

Definition constructor : keyboard :=
  {| currentOctave := 4; sustainMode := false;
     keyStates := replicate 114 false; physicallyPressed := ∅ |}.

(** [this.noteToMidi[note][octave]]: [TypeError] when the table has no
    row for [note], undefined when the row has no such octave. *)
Definition midiNoteOf (note : string) (octave : Z) : outcome (option Z) :=
  match noteToMidi !! note with
  | None => Throw TypeError
  | Some row => Ret (if octave <? 0 then None else row !! Z.to_nat octave)
  end.

(** [!midiNote || midiNote < 12 || midiNote > 125]. *)
Definition outOfRange (midiNote : option Z) : bool :=
  match midiNote with
  | None => true
  | Some m => (m =? 0) || (m <? 12) || (125 <? m)
  end.

(** The template string of [note] and [octave]. *)
Definition noteKeyOf (note : string) (octave : Z) : string := note +:+ pretty octave.

Definition pressKey (note : string) (octaveOffset : Z) (k : keyboard) : outcome keyboard :=
  let octave := currentOctave k + octaveOffset in
  let! midiNote := midiNoteOf note octave in
  if outOfRange midiNote then Ret k
  else
    let arrayIndex := default 0 midiNote - 12 in
    let noteKey := noteKeyOf note octave in
    if decide (noteKey ∈ physicallyPressed k) then Ret k
    else
      Ret {| currentOctave := currentOctave k; sustainMode := sustainMode k;
             keyStates := JS.arraySet (Z.to_nat arrayIndex) true (keyStates k);
             physicallyPressed := {[noteKey]} ∪ physicallyPressed k |}.

Definition releaseKey (note : string) (octaveOffset : Z) (k : keyboard) : outcome keyboard :=
  let octave := currentOctave k + octaveOffset in
  let! midiNote := midiNoteOf note octave in
  let noteKey := noteKeyOf note octave in
  if outOfRange midiNote then Ret k
  else if decide (noteKey ∈ physicallyPressed k) then
    let arrayIndex := default 0 midiNote - 12 in
    Ret {| currentOctave := currentOctave k; sustainMode := sustainMode k;
           keyStates := if negb (sustainMode k)
                        then JS.arraySet (Z.to_nat arrayIndex) false (keyStates k)
                        else keyStates k;
           physicallyPressed := physicallyPressed k ∖ {[noteKey]} |}
  else Ret k.

Definition toggleSustain (k : keyboard) : keyboard :=
  {| currentOctave := currentOctave k; sustainMode := negb (sustainMode k);
     keyStates := keyStates k; physicallyPressed := physicallyPressed k |}.

(** ** The keys of the computer keyboard *)

(** An entry of [keyLayout]; [lk_white] is its type, white or black. *)
Record layoutKey : Type := mkLayoutKey {
  lk_note : string;
  lk_white : bool;
  lk_key : string;
  lk_octaveOffset : option Z
}.

Definition keyLayout : list layoutKey :=
  [mkLayoutKey "C" true "a" None;
   mkLayoutKey "C#" false "w" None;
   mkLayoutKey "D" true "s" None;
   mkLayoutKey "D#" false "e" None;
   mkLayoutKey "E" true "d" None;
   mkLayoutKey "F" true "f" None;
   mkLayoutKey "F#" false "t" None;
   mkLayoutKey "G" true "g" None;
   mkLayoutKey "G#" false "y" None;
   mkLayoutKey "A" true "h" None;
   mkLayoutKey "A#" false "u" None;
   mkLayoutKey "B" true "j" None;
   mkLayoutKey "C" true "k" (Some 1);
   mkLayoutKey "D" true "l" (Some 1);
   mkLayoutKey "E" true ";" (Some 1);
   mkLayoutKey "F" true "'" (Some 1);
   mkLayoutKey "C#" false "o" (Some 1);
   mkLayoutKey "D#" false "p" (Some 1)].

(** [key.octaveOffset || 0], the offset the event listeners pass. *)
Definition octaveOffsetOf (key : layoutKey) : Z :=
  match lk_octaveOffset key with
  | Some o => if o =? 0 then 0 else o
  | None => 0
  end.

(** ** [changeOctave] *)

Definition isDigit (c : ascii) : bool :=
  let n := N_of_ascii c in (48 <=? n)%N && (n <=? 57)%N.

Fixpoint allDigits (s : string) : bool :=
  match s with
  | EmptyString => true
  | String c s' => isDigit c && allDigits s'
  end.

(** [\d+$]. *)
Definition digitsToEnd (s : string) : bool :=
  match s with
  | EmptyString => false
  | String _ _ => allDigits s
  end.

(** [noteKey.match(/^([A-G]#?)(\d+)$/)]: the two groups. *)
Definition matchNoteKey (noteKey : string) : option (string * string) :=
  match noteKey with
  | String c rest =>
      let n := N_of_ascii c in
      if (65 <=? n)%N && (n <=? 71)%N then
        match rest with
        | String "#" digits =>
            if digitsToEnd digits then Some (String c "#", digits) else None
        | _ => if digitsToEnd rest then Some (String c "", rest) else None
        end
      else None
  | EmptyString => None
  end.

(** [parseInt] on a string of decimal digits. *)
Definition parseInt (digits : string) : Z :=
  fold_left (fun value c => value * 10 + (Z.of_N (N_of_ascii c) - 48))
    (list_ascii_of_string digits) 0.

(** The body of the loop over [physicallyPressed]. *)
Definition releaseHeld (sustainMode : bool) (keyStates : list bool) (noteKey : string)
    : outcome (list bool) :=
  match matchNoteKey noteKey with
  | Some (note, octave) =>
      let! midiNote := midiNoteOf note (parseInt octave) in
      match midiNote with
      | Some m =>
          if m =? 0 then Ret keyStates
          else if negb sustainMode
               then Ret (JS.arraySet (Z.to_nat (m - 12)) false keyStates)
               else Ret keyStates
      | None => Ret keyStates
      end
  | None => Ret keyStates
  end.

(** The loop visits the keys in the order of their insertion; its
    writes do not depend on one another, and [elements] gives the keys in
    some order. *)
Definition changeOctave (direction : Z) (k : keyboard) : outcome keyboard :=
  let newOctave := currentOctave k + direction in
  if (0 <=? newOctave) && (newOctave <=? 7) then
    let! keyStates :=
      fold_left
        (fun states noteKey =>
           let! keyStates := states in releaseHeld (sustainMode k) keyStates noteKey)
        (elements (physicallyPressed k)) (Ret (keyStates k)) in
    Ret {| currentOctave := newOctave; sustainMode := sustainMode k;
           keyStates := keyStates; physicallyPressed := ∅ |}
  else Ret k.

(** [clearAllNotes], and [releaseAllKeys], which has the same body. *)
Definition clearAllNotes (k : keyboard) : keyboard :=
  {| currentOctave := currentOctave k; sustainMode := sustainMode k;
     keyStates := JS.fillFalse (keyStates k); physicallyPressed := ∅ |}.

Definition releaseAllKeys (k : keyboard) : keyboard := clearAllNotes k.

Definition getKeyStates (k : keyboard) : list bool := keyStates k.

(** The loop of [getActiveNotes], from index [i] on. *)
Fixpoint activeFrom (i : Z) (keyStates : list bool) : list Z :=
  match keyStates with
  | [] => []
  | state :: rest =>
      if state then (i + 12) :: activeFrom (i + 1) rest else activeFrom (i + 1) rest
  end.

Definition getActiveNotes (k : keyboard) : list Z := activeFrom 0 (keyStates k).

(** ** Runs *)

(** What the listeners of the keyboard call. *)
Inductive action : Type :=
| Press (note : string) (octaveOffset : Z)
| Release (note : string) (octaveOffset : Z)
| ChangeOctave (direction : Z)
| ToggleSustain
| ClearAllNotes.

Definition act (k : keyboard) (a : action) : outcome keyboard :=
  match a with
  | Press note octaveOffset => pressKey note octaveOffset k
  | Release note octaveOffset => releaseKey note octaveOffset k
  | ChangeOctave direction => changeOctave direction k
  | ToggleSustain => Ret (toggleSustain k)
  | ClearAllNotes => Ret (clearAllNotes k)
  end.

Definition run (actions : list action) (k : keyboard) : outcome keyboard :=
  fold_left (fun state a => let! k := state in act k a) actions (Ret k).

(** ** Notions used in the statements *)

Definition isToggleSustain (a : action) : bool :=
  match a with ToggleSustain => true | _ => false end.

(** The note names in the order of the semitones above C. *)
Definition semitones : list string :=
  ["C"; "C#"; "D"; "D#"; "E"; "F"; "F#"; "G"; "G#"; "A"; "A#"; "B"].

(** Key [i] of [keyStates] belongs to a key that is held down. *)
Definition held (k : keyboard) (i : nat) : Prop :=
  exists note octave m,
    noteKeyOf note octave ∈ physicallyPressed k /\
    midiNoteOf note octave = Ret (Some m) /\
    i = Z.to_nat (m - 12).

(** The state of a keyboard that plays without sustain: the octave is
    between 0 and 7, there are 114 key states, every key in
    [physicallyPressed] names a note of the table whose state is true,
    and every state that is true belongs to a key held down. *)
Definition inStep (k : keyboard) : Prop :=
  sustainMode k = false /\
  0 <= currentOctave k <= 7 /\
  length (keyStates k) = 114%nat /\
  (forall key, key ∈ physicallyPressed k ->
     exists note octave m,
       key = noteKeyOf note octave /\
       midiNoteOf note octave = Ret (Some m) /\
       12 <= m <= 125 /\
       keyStates k !! Z.to_nat (m - 12) = Some true) /\
  (forall i, keyStates k !! i = Some true -> held k i).

(** The MIDI number of the key that [note] and [octaveOffset] name on
    keyboard [k]. *)
Definition keyNumber (note : string) (octaveOffset : Z) (k : keyboard) : option Z :=
  match midiNoteOf note (currentOctave k + octaveOffset) with
  | Ret m => m
  | _ => None
  end.

End VirtualKeyboard.

(* ===================================================================== *)
(** * [LissajousGenerator] *)
(* ===================================================================== *)

Module LissajousGenerator.

Local Open Scope R_scope.

(** [a || b] on numbers: [a] unless it is undefined or zero. *)
Definition orElse (a : option R) (b : R) : R :=
  match a with
  | Some x => if Req_dec_T x 0 then b else x
  | None => b
  end.

Record axes : Type := mkAxes { x : R; y : R; z : R }.

(** The curve data, with the points that make the geometry of the mesh;
    the material and its colour are left out. *)
Record curveData : Type := mkCurveData {
  points : list (R * R * R);
  frequencies : axes;
  ratios : axes
}.

Definition numPoints : nat := 2000.
Definition scale : R := 5.

Definition pointAt (tRange : R) (ratios : axes) (i : nat) : R * R * R :=
  let t := (INR i / INR numPoints) * PI * tRange in
  (scale * sin (x ratios * t),
   scale * sin (y ratios * t + PI / 4),
   scale * sin (z ratios * t + PI / 2)).

Definition createCurve (tRange : R) (frequencies : list R) : option curveData :=
  match frequencies with
  | [] => None
  | f0 :: _ =>
      let freq :=
        {| x := orElse (Some f0) 440;
           y := orElse (frequencies !! 1%nat) (orElse (Some (f0 * 1.5)) 660);
           z := orElse (frequencies !! 2%nat) (orElse (Some (f0 * 2)) 880) |} in
      let baseFreq := Rmin (Rmin (x freq) (y freq)) (z freq) in
      let ratios :=
        {| x := x freq / baseFreq; y := y freq / baseFreq; z := z freq / baseFreq |} in
      Some {| points := map (pointAt tRange ratios) (seq 0 numPoints);
              frequencies := freq;
              ratios := ratios |}
  end.

(** The smallest of the three ratios. *)
Definition smallestRatio (c : curveData) : R :=
  Rmin (Rmin (x (ratios c)) (y (ratios c))) (z (ratios c)).

End LissajousGenerator.

(* ===================================================================== *)
(** * [AudioEngine] *)
(* ===================================================================== *)

Module AudioEngine.

Local Open Scope R_scope.

(** The engine: the tuning, and the entries of the [oscillators] map in
    the order of their insertion, each a MIDI note with the [frequency]
    stored for it.  Frequencies are real numbers, [None] is [NaN]; the
    nodes of the Web Audio API and the velocity, which sets a gain only,
    are left out. *)
Record engine : Type := mkEngine {
  useJustIntonation : bool;
  rootKey : Z;
  oscillators : list (Z * option R)
}.

Definition constructor : engine :=
  {| useJustIntonation := false; rootKey := 9; oscillators := [] |}.

Definition justRatios : list R :=
  [1; 16 / 15; 9 / 8; 6 / 5; 5 / 4; 4 / 3; 45 / 32; 3 / 2; 8 / 5; 5 / 3; 9 / 5; 15 / 8].

(** [Math.floor(midiNote / 12)] and [%] are taken on integers; [%] has
    the sign of the dividend, and an index that is negative or past the
    end of [justRatios] reads undefined, which makes the product [NaN]. *)
Definition midiToJustFrequency (e : engine) (midiNote : Z) : option R :=
  let octave := (midiNote / 12)%Z in
  let noteInOctave := Z.rem midiNote 12 in
  let offsetFromRoot := Z.rem (noteInOctave - rootKey e + 12) 12 in
  let ratio :=
    if (offsetFromRoot <? 0)%Z then None else justRatios !! Z.to_nat offsetFromRoot in
  let rootMidiInSameOctave := (octave * 12 + rootKey e)%Z in
  let baseFreq := 440 * Rpower 2 (IZR (rootMidiInSameOctave - 69) / 12) in
  (fun ratio => baseFreq * ratio) <$> ratio.

Definition midiToFrequency (e : engine) (midiNote : Z) : option R :=
  if useJustIntonation e then midiToJustFrequency e midiNote
  else Some (440 * Rpower 2 (IZR (midiNote - 69) / 12)).

Definition setJustIntonation (enabled : bool) (rootKey : Z) (e : engine) : engine :=
  let e := {| useJustIntonation := enabled; rootKey := rootKey;
              oscillators := oscillators e |} in
  {| useJustIntonation := enabled; rootKey := rootKey;
     oscillators :=
       map (fun entry => (fst entry, midiToFrequency e (fst entry))) (oscillators e) |}.

Definition noteNames : list string :=
  ["C"; "C#"; "D"; "D#"; "E"; "F"; "F#"; "G"; "G#"; "A"; "A#"; "B"]%string.

Definition getNoteNameFromMidi (midiNote : Z) : option string :=
  let index := Z.rem midiNote 12 in
  if (index <? 0)%Z then None else noteNames !! Z.to_nat index.

(** [oscillators.has(midiNote)] and [oscillators.delete(midiNote)]. *)
Definition has (midiNote : Z) (oscillators : list (Z * option R)) : bool :=
  existsb (fun entry => (fst entry =? midiNote)%Z) oscillators.

Definition delete (midiNote : Z) (oscillators : list (Z * option R))
    : list (Z * option R) :=
  List.filter (fun entry => negb (fst entry =? midiNote)%Z) oscillators.

(** The entry of a note that sounds already is deleted first, so the
    new entry is the last one. *)
Definition playNote (midiNote : Z) (e : engine) : engine :=
  let remaining :=
    if has midiNote (oscillators e) then delete midiNote (oscillators e)
    else oscillators e in
  let frequency := midiToFrequency e midiNote in
  {| useJustIntonation := useJustIntonation e; rootKey := rootKey e;
     oscillators := remaining ++ [(midiNote, frequency)] |}.

Definition startNote (midiNote : Z) (e : engine) : engine := playNote midiNote e.

Definition stopNote (midiNote : Z) (e : engine) : engine :=
  if has midiNote (oscillators e) then
    {| useJustIntonation := useJustIntonation e; rootKey := rootKey e;
       oscillators := delete midiNote (oscillators e) |}
  else e.

(** The loop stops every note it visits; a [Map] that loses the entry
    just visited goes on with the next one, so the notes visited are
    those present at the start. *)
Definition stopAllNotes (e : engine) : engine :=
  fold_left (fun e midiNote => stopNote midiNote e) (map fst (oscillators e)) e.

(** The loop of [updateFromKeyboard] from index [i] on. *)
Fixpoint updateFrom (i : Z) (keyStates : list bool) (e : engine) : engine :=
  match keyStates with
  | [] => e
  | shouldPlay :: rest =>
      let midiNote := (i + 12)%Z in
      let isPlaying := has midiNote (oscillators e) in
      let e :=
        if shouldPlay && negb isPlaying then startNote midiNote e
        else if negb shouldPlay && isPlaying then stopNote midiNote e
        else e in
      updateFrom (i + 1) rest e
  end.

(** [virtualKeyboard] is the [keyStates] of [window.virtualKeyboard],
    [None] without a keyboard. *)
Definition updateFromKeyboard (virtualKeyboard : option (list bool)) (e : engine) : engine :=
  match virtualKeyboard with
  | None => e
  | Some keyStates => updateFrom 0 keyStates e
  end.

Definition getCurrentFrequencies (e : engine) : list (option R) :=
  map snd (oscillators e).

(** ** Runs *)

Inductive call : Type :=
| PlayNote (midiNote : Z)
| StopNote (midiNote : Z)
| StopAllNotes
| SetJustIntonation (enabled : bool) (rootKey : Z)
| UpdateFromKeyboard (virtualKeyboard : option (list bool)).

Definition perform (e : engine) (c : call) : engine :=
  match c with
  | PlayNote midiNote => playNote midiNote e
  | StopNote midiNote => stopNote midiNote e
  | StopAllNotes => stopAllNotes e
  | SetJustIntonation enabled rootKey => setJustIntonation enabled rootKey e
  | UpdateFromKeyboard virtualKeyboard => updateFromKeyboard virtualKeyboard e
  end.

(** ** Notions used in the statements *)

(** The frequency of a note in equal temperament. *)
Definition equalTemperament (midiNote : Z) : R :=
  440 * Rpower 2 (IZR (midiNote - 69) / 12).

(** The notes that have an oscillator. *)
Definition sounding (e : engine) : gset Z := list_to_set (map fst (oscillators e)).

(** Every note has one entry at most, and the frequency stored for it
    is that of the note in the tuning of the engine. *)
Definition tuned (e : engine) : Prop :=
  NoDup (map fst (oscillators e)) /\
  Forall (fun entry => snd entry = midiToFrequency e (fst entry)) (oscillators e).

End AudioEngine.

(* ===================================================================== *)
(** * Facts about the embedding *)
(* ===================================================================== *)

Import MIDIParser.

(** ** Signed 32-bit integers and bytes *)

Lemma ToInt32_range z : - 2 ^ 31 <= JS.ToInt32 z < 2 ^ 31.
Proof. unfold JS.ToInt32. pose proof (Z.mod_pos_bound (z + 2 ^ 31) (2 ^ 32)). lia. Qed.

Lemma ToInt32_small z : - 2 ^ 31 <= z < 2 ^ 31 -> JS.ToInt32 z = z.
Proof. intros H. unfold JS.ToInt32. rewrite Z.mod_small; lia. Qed.

Lemma ToInt32_congr a c :
  (a - c) mod 2 ^ 32 = 0 -> JS.ToInt32 a = JS.ToInt32 c.
Proof.
  intros H. unfold JS.ToInt32. f_equal.
  apply Z.mod_divide in H; [|lia]. destruct H as [k Hk].
  replace (a + 2 ^ 31) with (c + 2 ^ 31 + k * 2 ^ 32) by lia.
  apply Z.mod_add. lia.
Qed.

Lemma ToInt32_eqm z : (JS.ToInt32 z - z) mod 2 ^ 32 = 0.
Proof.
  unfold JS.ToInt32.
  pose proof (Z.div_mod (z + 2 ^ 31) (2 ^ 32) ltac:(lia)) as H.
  replace ((z + 2 ^ 31) mod 2 ^ 32 - 2 ^ 31 - z)
    with (- ((z + 2 ^ 31) / 2 ^ 32) * 2 ^ 32) by lia.
  apply Z.mod_mul. lia.
Qed.

Lemma ToInt32_idem z : JS.ToInt32 (JS.ToInt32 z) = JS.ToInt32 z.
Proof. apply ToInt32_small, ToInt32_range. Qed.

Lemma lor_low_bits (hi lo k : Z) :
  0 <= k -> 0 <= lo < 2 ^ k -> Z.lor (hi * 2 ^ k) lo = hi * 2 ^ k + lo.
Proof.
  intros Hk Hlo.
  assert (Hland : Z.land (hi * 2 ^ k) lo = 0).
  { apply Z.bits_inj'. intros n Hn. rewrite Z.land_spec, Z.bits_0.
    destruct (Z.lt_ge_cases n k) as [Hlt|Hge].
    - rewrite Z.mul_pow2_bits_low by lia. reflexivity.
    - destruct (Z.eq_dec lo 0) as [->|Hne].
      + rewrite Z.bits_0. apply andb_false_r.
      + rewrite (Z.bits_above_log2 lo n); [apply andb_false_r|lia|].
        apply Z.log2_lt_pow2; try lia.
        apply Z.lt_le_trans with (2 ^ k); [lia|].
        apply Z.pow_le_mono_r; lia. }
  rewrite <- Z.lxor_lor by exact Hland.
  symmetry. apply Z.add_nocarry_lxor. exact Hland.
Qed.

Lemma byte_range (x : byte) : 0 <= Z.of_N (Byte.to_N x) < 256.
Proof. pose proof (Byte.to_N_bounded x). lia. Qed.

Lemma and32_byte (v m : Z) :
  0 <= v < 256 -> 0 <= m < 256 -> JS.and32 v m = Z.land v m.
Proof.
  intros Hv Hm. unfold JS.and32.
  rewrite (ToInt32_small v), (ToInt32_small m) by lia.
  apply ToInt32_small.
  assert (H0 : 0 <= Z.land v m) by (apply Z.land_nonneg; lia).
  destruct (Z.eq_dec (Z.land v m) 0) as [->|Hne]; [lia|].
  assert (Hv0 : v <> 0) by (intros ->; rewrite Z.land_0_l in Hne; lia).
  pose proof (Z.log2_land v m ltac:(lia) ltac:(lia)) as Hlog.
  assert (Z.log2 v < 8) by (apply Z.log2_lt_pow2; lia).
  assert (Z.land v m < 2 ^ 8) by (apply Z.log2_lt_pow2; lia).
  lia.
Qed.

Lemma land_127 v : 0 <= v -> Z.land v 0x7F = v mod 128.
Proof. intros _. change 0x7F with (Z.ones 7). rewrite Z.land_ones by lia. reflexivity. Qed.

Lemma land_128_zero v : 0 <= v < 256 -> (Z.land v 0x80 =? 0) = (v <? 128).
Proof.
  intros Hv.
  assert (Hbit : Z.land v 0x80 = if Z.testbit v 7 then 128 else 0).
  { apply Z.bits_inj'. intros n Hn. rewrite Z.land_spec.
    change 0x80 with (2 ^ 7). rewrite Z.pow2_bits_eqb by lia.
    destruct (Z.eqb_spec 7 n) as [<-|Hne].
    - rewrite andb_true_r. destruct (Z.testbit v 7) eqn:E.
      + change 128 with (2 ^ 7). rewrite Z.pow2_bits_true; [reflexivity|lia].
      + rewrite Z.bits_0. reflexivity.
    - rewrite andb_false_r. destruct (Z.testbit v 7).
      + change 128 with (2 ^ 7). rewrite Z.pow2_bits_false; [reflexivity|lia].
      + rewrite Z.bits_0. reflexivity. }
  rewrite Hbit.
  assert (Hdiv : Z.testbit v 7 = Z.odd (v / 2 ^ 7))
    by (rewrite Z.testbit_odd, Z.shiftr_div_pow2 by lia; reflexivity).
  destruct (Z.ltb_spec v 128) as [Hlt|Hge].
  - rewrite Hdiv, Z.div_small by lia. reflexivity.
  - assert (v / 2 ^ 7 = 1) as Hq.
    { symmetry. apply Z.div_unique with (r := v - 128); lia. }
    rewrite Hdiv, Hq. reflexivity.
Qed.

(** One round of the loop of [readVariableLength] keeps the value equal
    to the base-128 number wrapped to 32 bits. *)
Lemma vlq_round (acc v : Z) :
  0 <= v < 256 ->
  JS.or32 (JS.shl32 (JS.ToInt32 acc) 7) (JS.and32 v 0x7F)
  = JS.ToInt32 (acc * 128 + v mod 128).
Proof.
  intros Hv. rewrite and32_byte, land_127 by lia.
  pose proof (Z.mod_pos_bound v 128 ltac:(lia)) as Hlo.
  unfold JS.or32, JS.shl32. rewrite !ToInt32_idem.
  rewrite (ToInt32_small (v mod 128)) by lia.
  rewrite Z.shiftl_mul_pow2 by lia.
  set (X := JS.ToInt32 (JS.ToInt32 acc * 2 ^ 7)).
  assert (HX : exists q, X = q * 2 ^ 7).
  { pose proof (ToInt32_eqm (JS.ToInt32 acc * 2 ^ 7)) as H. fold X in H.
    apply Z.mod_divide in H; [|lia]. destruct H as [q Hq].
    exists (q * 2 ^ 25 + JS.ToInt32 acc). lia. }
  destruct HX as [q Hq]. rewrite Hq, lor_low_bits by lia. rewrite <- Hq.
  apply ToInt32_congr.
  pose proof (ToInt32_eqm (JS.ToInt32 acc * 2 ^ 7)) as H1. fold X in H1.
  pose proof (ToInt32_eqm acc) as H2.
  apply Z.mod_divide in H1; [|lia]. apply Z.mod_divide in H2; [|lia].
  destruct H1 as [k1 H1], H2 as [k2 H2].
  apply Z.mod_divide; [lia|]. exists (k1 + k2 * 128). lia.
Qed.

(** ** Reading the buffer *)

Lemma bytesFrom_cons view (o : Z) :
  0 <= o ->
  bytesFrom view o =
  match view !! Z.to_nat o with
  | Some x => Z.of_N (Byte.to_N x) :: bytesFrom view (o + 1)
  | None => []
  end.
Proof.
  intros Ho. unfold bytesFrom.
  replace (Z.to_nat (o + 1)) with (S (Z.to_nat o)) by lia.
  destruct (view !! Z.to_nat o) as [x|] eqn:E.
  - rewrite (drop_S _ _ _ E). reflexivity.
  - rewrite drop_ge; [reflexivity|]. apply lookup_ge_None. exact E.
Qed.

Lemma getUint8_bytesFrom view (o : Z) :
  0 <= o ->
  getUint8 view o =
  match bytesFrom view o with
  | v :: _ => Ret v
  | [] => Throw RangeError
  end.
Proof.
  intros Ho. unfold getUint8. rewrite (bytesFrom_cons view o Ho).
  destruct (Z.ltb_spec o 0); [lia|].
  destruct (view !! Z.to_nat o); reflexivity.
Qed.

Lemma getUint8_negative view (o : Z) : o < 0 -> getUint8 view o = Throw RangeError.
Proof. intros Ho. unfold getUint8. destruct (Z.ltb_spec o 0); [reflexivity|lia]. Qed.

Lemma getUint8_range view o v : getUint8 view o = Ret v -> 0 <= v < 256.
Proof.
  unfold getUint8. destruct (o <? 0); [discriminate|].
  destruct (view !! Z.to_nat o); [|discriminate].
  intros [= <-]. apply byte_range.
Qed.

Lemma getUint8_not_Timeout view o : getUint8 view o <> Timeout.
Proof.
  unfold getUint8. destruct (o <? 0); [discriminate|].
  destruct (view !! Z.to_nat o); discriminate.
Qed.

Lemma getUint8_throws view o e : getUint8 view o = Throw e -> e = RangeError.
Proof.
  unfold getUint8. destruct (o <? 0); [congruence|].
  destruct (view !! Z.to_nat o); congruence.
Qed.

Lemma bytesFrom_range view o : Forall (fun v => 0 <= v < 256) (bytesFrom view o).
Proof. unfold bytesFrom. apply Forall_map, Forall_forall. intros x _. apply byte_range. Qed.

Lemma bytesFrom_length view o : (length (bytesFrom view o) <= length view)%nat.
Proof. unfold bytesFrom. rewrite length_map, length_drop. lia. Qed.

(** ** [readVariableLength] *)

Lemma readVariableLength_loop_spec view offset :
  0 <= offset ->
  forall fuel acc bytesRead,
    0 <= bytesRead ->
    (length (bytesFrom view (offset + bytesRead)) <= fuel)%nat ->
    readVariableLength_loop fuel view offset (JS.ToInt32 acc) bytesRead =
    match consumed (bytesFrom view (offset + bytesRead)) with
    | Some bytes =>
        Ret {| vl_value := JS.ToInt32 (fold_left (fun a b => a * 128 + b mod 128) bytes acc);
               vl_bytesRead := bytesRead + Z.of_nat (length bytes) |}
    | None => Throw RangeError
    end.
Proof.
  intros Ho fuel. induction fuel as [|fuel IH]; intros acc br Hbr Hfuel.
  - destruct (bytesFrom view (offset + br)) as [|v rest] eqn:E; [|simpl in Hfuel; lia].
    simpl. rewrite getUint8_bytesFrom, E by lia. reflexivity.
  - cbn [readVariableLength_loop].
    rewrite getUint8_bytesFrom by lia.
    pose proof (bytesFrom_range view (offset + br)) as Hrange.
    rewrite (bytesFrom_cons view (offset + br)) in * by lia.
    destruct (view !! Z.to_nat (offset + br)) as [x|]; [|reflexivity].
    apply Forall_cons in Hrange as [Hv _].
    set (v := Z.of_N (Byte.to_N x)) in *.
    cbn [bind consumed]. rewrite vlq_round by exact Hv.
    rewrite and32_byte, land_128_zero by lia.
    destruct (v <? 128).
    + cbn. do 2 f_equal. 
    + replace (offset + br + 1) with (offset + (br + 1)) in * by lia.
      rewrite IH by (simpl in Hfuel; lia).
      destruct (consumed (bytesFrom view (offset + (br + 1)))) as [bytes|]; cbn; [|reflexivity].
      do 2 f_equal. lia.
Qed.

Lemma readVariableLength_spec view offset :
  readVariableLength view offset = variableLengthSpec view offset.
Proof.
  unfold readVariableLength, variableLengthSpec.
  destruct (Z.ltb_spec offset 0) as [Hneg|Hpos].
  - destruct (length view); cbn [readVariableLength_loop];
      rewrite getUint8_negative by lia; reflexivity.
  - change 0 with (JS.ToInt32 0) at 1.
    rewrite readVariableLength_loop_spec; try lia.
    + rewrite Z.add_0_r. destruct (consumed (bytesFrom view offset)); reflexivity.
    + rewrite Z.add_0_r. apply bytesFrom_length.
Qed.

Lemma consumed_shape rest bytes :
  consumed rest = Some bytes ->
  exists front final tail,
    bytes = front ++ [final] /\ rest = bytes ++ tail /\
    Forall (fun v => 128 <= v) front /\ final < 128.
Proof.
  revert bytes. induction rest as [|v rest IH]; intros bytes H; [discriminate|].
  cbn in H. destruct (Z.ltb_spec v 128) as [Hlt|Hge].
  - injection H as <-. exists [], v, rest. repeat split; auto.
  - destruct (consumed rest) as [bytes'|]; [|discriminate].
    injection H as <-.
    destruct (IH bytes' eq_refl) as (front & final & tail & -> & -> & Hfront & Hfinal).
    exists (v :: front), final, tail. repeat split; auto.
Qed.

Lemma consumed_none rest :
  consumed rest = None -> Forall (fun v => 128 <= v) rest.
Proof.
  induction rest as [|v rest IH]; intros H; [constructor|].
  cbn in H. destruct (Z.ltb_spec v 128) as [Hlt|Hge]; [discriminate|].
  destruct (consumed rest); [discriminate|]. constructor; auto.
Qed.

Lemma base128_bound bytes :
  forall acc, 0 <= acc ->
    0 <= fold_left (fun a v => a * 128 + v mod 128) bytes acc
      < (acc + 1) * 128 ^ Z.of_nat (length bytes).
Proof.
  induction bytes as [|v bytes IH]; intros acc Hacc.
  - cbn. lia.
  - cbn [fold_left length].
    pose proof (Z.mod_pos_bound v 128 ltac:(lia)) as Hv.
    specialize (IH (acc * 128 + v mod 128) ltac:(lia)).
    rewrite Nat2Z.inj_succ, Z.pow_succ_r by lia.
    assert (0 < 128 ^ Z.of_nat (length bytes)) by (apply Z.pow_pos_nonneg; lia).
    nia.
Qed.

Lemma base128_fits bytes :
  (length bytes <= 4)%nat -> JS.ToInt32 (base128 bytes) = base128 bytes.
Proof.
  intros Hlen. apply ToInt32_small. unfold base128.
  pose proof (base128_bound bytes 0 ltac:(lia)) as H.
  assert (128 ^ Z.of_nat (length bytes) <= 128 ^ 4)
    by (apply Z.pow_le_mono_r; lia).
  lia.
Qed.

(** C2, as the code has it.  [readVariableLength] consumes the bytes up
    to and including the first one whose high bit is clear and returns
    their count as [bytesRead]; [value] is the base-128 big-endian number
    of their low seven bits reduced to a signed 32-bit integer, which is
    that number itself whenever at most four bytes are consumed.  The
    call throws [RangeError] when no byte with a clear high bit is left
    in the buffer, and it always ends. *)
Theorem readVariableLength_decodes (view : DataView) (offset : Z) :
  readVariableLength view offset =
    (if offset <? 0 then Throw RangeError
     else match consumed (bytesFrom view offset) with
          | Some bytes =>
              Ret {| vl_value := JS.ToInt32 (base128 bytes);
                     vl_bytesRead := Z.of_nat (length bytes) |}
          | None => Throw RangeError
          end)
  /\ (forall bytes,
        consumed (bytesFrom view offset) = Some bytes ->
        (exists front final tail,
            bytes = front ++ [final] /\ bytesFrom view offset = bytes ++ tail /\
            Forall (fun v => 128 <= v) front /\ final < 128)
        /\ ((length bytes <= 4)%nat -> JS.ToInt32 (base128 bytes) = base128 bytes)).
Proof.
  split.
  - apply readVariableLength_spec.
  - intros bytes H. split; [apply consumed_shape, H|apply base128_fits].
Qed.

(** C2 as stated fails on a quantity of five bytes: the value returned
    for FF FF FF FF 7F is -1, and the base-128 number of the five bytes
    is 2^35 - 1. *)
Lemma readVariableLength_wraps :
  let view := [xff; xff; xff; xff; x7f] in
  exists r,
    readVariableLength view 0 = Ret r /\
    vl_bytesRead r = 5 /\
    vl_value r = -1 /\
    base128 (bytesFrom view 0) = 2 ^ 35 - 1 /\
    vl_value r <> base128 (bytesFrom view 0).
Proof.
  eexists. split; [vm_compute; reflexivity|].
  repeat split; vm_compute; congruence.
Qed.

(** ** [parseEvent] *)

Lemma messageType_byte s : 0 <= s < 256 -> JS.sar32 (JS.and32 s 0xF0) 4 = s / 16.
Proof.
  intros Hs. rewrite and32_byte by lia. unfold JS.sar32.
  assert (H0 : 0 <= Z.land s 0xF0) by (apply Z.land_nonneg; lia).
  assert (Hshift : Z.shiftr (Z.land s 0xF0) 4 = s / 16).
  { rewrite Z.shiftr_land, Z.shiftr_div_pow2 by lia.
    change (Z.shiftr 0xF0 4) with (Z.ones 4).
    rewrite Z.land_ones by lia. change (2 ^ 4) with 16.
    apply Z.mod_small. split; [apply Z.div_pos; lia|].
    apply Z.div_lt_upper_bound; lia. }
  rewrite ToInt32_small; [exact Hshift|].
  assert (Z.land s 0xF0 < 256); [|lia].
  rewrite <- (and32_byte s 0xF0) by lia.
  rewrite and32_byte by lia.
  destruct (Z.eq_dec (Z.land s 0xF0) 0) as [->|Hne]; [lia|].
  apply (Z.log2_lt_pow2 _ 8); [lia|].
  pose proof (Z.log2_land s 0xF0 ltac:(lia) ltac:(lia)) as Hl.
  change (Z.log2 0xF0) with 7 in Hl. lia.
Qed.

Lemma channel_byte s : 0 <= s < 256 -> JS.and32 s 0x0F = s mod 16.
Proof.
  intros Hs. rewrite and32_byte by lia.
  change 0x0F with (Z.ones 4). rewrite Z.land_ones by lia. reflexivity.
Qed.

(** C9.  For an event whose status (its own, or the running status) has
    high nibble 9, [parseEvent] returns a noteOff when the velocity byte
    is 0 and a noteOn otherwise; it throws when a data byte is missing. *)
Theorem parseEvent_noteOn_velocity (view : DataView)
    (offset runningStatus time first : Z) :
  0 <= runningStatus < 256 ->
  getUint8 view offset = Ret first ->
  statusUsed first runningStatus / 16 = 9 ->
  let status := statusUsed first runningStatus in
  let data := dataOffset first offset in
  match getUint8 view (data + 1), getUint8 view data with
  | Ret velocity, Ret note =>
      exists e,
        parseEvent view offset runningStatus time = Ret e /\
        typeOf (ev_body e) = Some (if velocity =? 0 then noteOff else noteOn) /\
        ev_body e =
          (if velocity =? 0 then NoteOff (status mod 16) note velocity status
           else NoteOn (status mod 16) note velocity status) /\
        ev_time e = time /\
        ev_bytesRead e = data - offset + 2
  | _, _ => parseEvent view offset runningStatus time = Throw RangeError
  end.
Proof.
  intros Hrs Hfirst Hnibble status data.
  pose proof (getUint8_range _ _ _ Hfirst) as Hf.
  assert (Hstatus : 0 <= status < 256)
    by (unfold status, statusUsed; destruct (first <? 0x80); lia).
  assert (Hparse :
    parseEvent view offset runningStatus time =
    (let! velocity := getUint8 view (data + 1) in
     let! note := getUint8 view data in
     Ret (mkEvent time
            (if velocity =? 0 then NoteOff (status mod 16) note velocity status
             else NoteOn (status mod 16) note velocity status)
            (data - offset + 2)))).
  { unfold parseEvent. rewrite Hfirst. cbn [bind].
    unfold status, data, statusUsed, dataOffset in *.
    destruct (first <? 0x80);
      rewrite messageType_byte, Hnibble, channel_byte by lia; cbn [bind];
      repeat f_equal; try lia;
      replace (offset + 0) with offset by lia;
      replace (offset - offset + 2) with (0 + 2) by lia;
      replace (offset + 1 - offset + 2) with (1 + 2) by lia; reflexivity. }
  rewrite Hparse.
  destruct (getUint8 view (data + 1)) as [velocity|e|] eqn:Ev; cbn [bind].
  - destruct (getUint8 view data) as [note|e|] eqn:En; cbn [bind].
    + eexists. split; [reflexivity|]. cbn.
      destruct (velocity =? 0); repeat split; reflexivity.
    + apply getUint8_throws in En. congruence.
    + exfalso. eapply getUint8_not_Timeout, En.
  - apply getUint8_throws in Ev. congruence.
  - exfalso. eapply getUint8_not_Timeout, Ev.
Qed.

(** Inversion of a [let!] that returned. *)
Lemma bind_Ret {A B} (m : outcome A) (k : A -> outcome B) r :
  bind m k = Ret r -> exists a, m = Ret a /\ k a = Ret r.
Proof. destruct m; cbn; intros H; try discriminate. eauto. Qed.

Lemma bind_Throw {A B} (m : outcome A) (k : A -> outcome B) e :
  bind m k = Throw e -> m = Throw e \/ exists a, m = Ret a /\ k a = Throw e.
Proof. destruct m; cbn; intros H; try discriminate; [eauto|left; congruence]. Qed.

Ltac bind_inv H :=
  let a := fresh "a" in
  let Ha := fresh "Ha" in
  apply bind_Ret in H as (a & Ha & H).

Lemma tempo_range t0 t1 t2 :
  0 <= t0 < 256 -> 0 <= t1 < 256 -> 0 <= t2 < 256 ->
  JS.or32 (JS.or32 (JS.shl32 t0 16) (JS.shl32 t1 8)) t2
  = (t0 * 256 + t1) * 256 + t2.
Proof.
  intros H0 H1 H2. unfold JS.or32, JS.shl32.
  rewrite !Z.shiftl_mul_pow2 by lia.
  rewrite (ToInt32_small t0), (ToInt32_small t1), (ToInt32_small t2) by lia.
  rewrite !(ToInt32_small (t0 * 2 ^ 16)), !(ToInt32_small (t1 * 2 ^ 8)) by lia.
  rewrite (lor_low_bits t0 (t1 * 2 ^ 8) 16) by lia.
  rewrite !(ToInt32_small (t0 * 2 ^ 16 + t1 * 2 ^ 8)) by lia.
  replace (t0 * 2 ^ 16 + t1 * 2 ^ 8) with ((t0 * 2 ^ 8 + t1) * 2 ^ 8) by lia.
  rewrite lor_low_bits by lia.
  rewrite ToInt32_small by lia. lia.
Qed.

Lemma metaBody_Ret view offset bytesRead metaType length b :
  metaBody view offset bytesRead metaType length = Ret b -> isMetaBody b.
Proof.
  unfold metaBody. intros H.
  destruct metaType as [|q|q]; try (inversion H; subst; exact I).
  do 7 (destruct q as [q|q|]; try (inversion H; subst; exact I)).
  - destruct (vl_value length =? 3); [|injection H as <-; exact I].
    repeat bind_inv H. injection H as <-. cbn.
    rewrite tempo_range by (eapply getUint8_range; eassumption).
    apply getUint8_range in Ha, Ha0, Ha1. lia.
  - destruct (vl_value length =? 4); [|injection H as <-; exact I].
    repeat bind_inv H. injection H as <-. exact I.
Qed.

Lemma metaBody_Throw view offset bytesRead metaType length e :
  metaBody view offset bytesRead metaType length = Throw e -> e = RangeError.
Proof.
  unfold metaBody. intros H.
  destruct metaType as [|q|q]; try discriminate.
  do 7 (destruct q as [q|q|]; try discriminate).
  - destruct (vl_value length =? 3); [|discriminate].
    repeat (apply bind_Throw in H as [H|(? & ? & H)];
            [eapply getUint8_throws; eassumption|]). discriminate.
  - destruct (vl_value length =? 4); [|discriminate].
    repeat (apply bind_Throw in H as [H|(? & ? & H)];
            [eapply getUint8_throws; eassumption|]). discriminate.
Qed.

Lemma metaBody_not_Timeout view offset bytesRead metaType length :
  metaBody view offset bytesRead metaType length <> Timeout.
Proof.
  unfold metaBody. intros H.
  destruct metaType as [|q|q]; try discriminate.
  do 7 (destruct q as [q|q|]; try discriminate).
  - destruct (vl_value length =? 3); [|discriminate].
    repeat match type of H with
           | bind (getUint8 ?v ?o) _ = _ =>
               let E := fresh in
               destruct (getUint8 v o) eqn:E; cbn [bind] in H; try discriminate;
               try (eapply getUint8_not_Timeout; eassumption)
           end.
  - destruct (vl_value length =? 4); [|discriminate].
    repeat match type of H with
           | bind (getUint8 ?v ?o) _ = _ =>
               let E := fresh in
               destruct (getUint8 v o) eqn:E; cbn [bind] in H; try discriminate;
               try (eapply getUint8_not_Timeout; eassumption)
           end.
Qed.

Lemma parseEvent_channel view o runningStatus time first e :
  0 <= runningStatus < 256 ->
  getUint8 view o = Ret first ->
  parseEvent view o runningStatus time = Ret e ->
  ev_time e = time /\
  (isChannelEvent e = true ->
     statusOf (ev_body e) = Some (statusUsed first runningStatus) /\
     isChannelStatus (statusUsed first runningStatus)) /\
  (isChannelEvent e = false -> statusOf (ev_body e) = None).
Proof.
  intros Hrs Hfirst Hparse.
  pose proof (getUint8_range _ _ _ Hfirst) as Hf.
  unfold parseEvent in Hparse. rewrite Hfirst in Hparse. cbn [bind] in Hparse.
  unfold statusUsed, isChannelStatus.
  destruct (first <? 0x80); rewrite messageType_byte in Hparse by lia;
    match type of Hparse with
    | context [?s / 16] =>
        assert (Hq : 0 <= s / 16 < 16)
          by (split; [apply Z.div_pos; lia|apply Z.div_lt_upper_bound; lia]);
        destruct (s / 16) as [|q|q] eqn:Eq; [| |lia]
    end;
    try (do 4 (try destruct q as [q|q|]); try lia);
    repeat match type of Hparse with
           | context [if ?c then _ else _] => destruct c eqn:?
           end;
    repeat (bind_inv Hparse);
    try match goal with
        | Hm : metaBody _ _ _ _ _ = Ret ?b |- _ =>
            apply metaBody_Ret in Hm; destruct b; try contradiction
        end;
    try discriminate;
    injection Hparse as <-; cbn;
    try match goal with |- context [if ?c then _ else _] => destruct c end;
    cbn; repeat split; intros; try discriminate; try reflexivity; auto.
Qed.

Lemma parseEvent_running view o runningStatus time first e :
  0 <= runningStatus < 256 ->
  runningStatus = 0 \/ isChannelStatus runningStatus ->
  getUint8 view o = Ret first ->
  first < 0x80 ->
  parseEvent view o runningStatus time = Ret e ->
  (runningStatus = 0 /\ ev_body e = Unknown /\ ev_bytesRead e = 1) \/
  (exists d2,
      getUint8 view (o + 1) = Ret d2 /\
      ev_body e = channelBody runningStatus first d2 /\
      statusOf (ev_body e) = Some runningStatus /\
      ev_bytesRead e = 2).
Proof.
  intros Hrs Hkind Hfirst Hlow Hparse.
  unfold parseEvent in Hparse. rewrite Hfirst in Hparse. cbn [bind] in Hparse.
  destruct (Z.ltb_spec first 0x80) as [_|?]; [|lia].
  rewrite messageType_byte, channel_byte in Hparse by lia.
  replace (o + 0) with o in Hparse by lia.
  destruct Hkind as [->|[Hk|[Hk|Hk]]].
  - left. cbn in Hparse. injection Hparse as <-. auto.
  - right. rewrite Hk in Hparse. repeat bind_inv Hparse.
    injection Hparse as <-. rewrite Hfirst in Ha. injection Ha as <-.
    exists a0. unfold channelBody. rewrite Hk. cbn. auto.
  - right. rewrite Hk in Hparse. repeat bind_inv Hparse.
    injection Hparse as <-. rewrite Hfirst in Ha0. injection Ha0 as <-.
    exists a. unfold channelBody. rewrite Hk. cbn.
    destruct (a =? 0); auto.
  - right. rewrite Hk in Hparse. repeat bind_inv Hparse.
    injection Hparse as <-. rewrite Hfirst in Ha. injection Ha as <-.
    exists a0. unfold channelBody. rewrite Hk. cbn. auto.
Qed.

Lemma parseEvent_reads_first view o runningStatus time e :
  parseEvent view o runningStatus time = Ret e ->
  exists first, getUint8 view o = Ret first.
Proof. unfold parseEvent. intros H. bind_inv H. eauto. Qed.

(** ** The running status along a track *)

Lemma lastChannelStatus_snoc events e :
  lastChannelStatus (events ++ [e]) =
  nextRunningStatus (lastChannelStatus events) e.
Proof.
  unfold lastChannelStatus, nextRunningStatus.
  rewrite List.filter_app. cbn [List.filter].
  unfold isChannelEvent at 2.
  destruct (ev_body e) eqn:Eb; cbn;
    rewrite ?app_nil_r, ?last_snoc, ?Eb; reflexivity.
Qed.

Lemma nextRunningStatus_spec runningStatus e :
  nextRunningStatus runningStatus e =
  if isChannelEvent e then default 0 (statusOf (ev_body e)) else runningStatus.
Proof.
  unfold nextRunningStatus, isChannelEvent. destruct (ev_body e); reflexivity.
Qed.

Lemma allDecoded_snoc view events e :
  allDecoded view events -> decodedAfter view events e -> allDecoded view (events ++ [e]).
Proof.
  intros Hall He before e' after Hsplit.
  destruct after as [|x after _] using rev_ind.
  - apply app_inj_tail in Hsplit as [-> ->]. exact He.
  - rewrite app_comm_cons, app_assoc in Hsplit.
    apply app_inj_tail in Hsplit as [-> _]. eapply Hall. reflexivity.
Qed.

Lemma parseTrackChunk_loop_decoded view trackEnd :
  forall fuel trackOffset runningStatus currentTime events result,
    runningStatus = lastChannelStatus events ->
    0 <= runningStatus < 256 ->
    runningStatus = 0 \/ isChannelStatus runningStatus ->
    allDecoded view events ->
    parseTrackChunk_loop fuel view trackEnd trackOffset runningStatus currentTime events
      = Ret result ->
    allDecoded view result.
Proof.
  induction fuel as [|fuel IH];
    intros trackOffset rs currentTime events result Hrs Hrange Hkind Hall Hloop;
    cbn [parseTrackChunk_loop] in Hloop;
    destruct (trackOffset <? trackEnd); try discriminate;
    try (injection Hloop as <-; exact Hall).
  bind_inv Hloop. rename a into deltaTime.
  bind_inv Hloop. rename a into event. rename Ha0 into Hevent.
  destruct (parseEvent_reads_first _ _ _ _ _ Hevent) as [first Hfirst].
  pose proof (getUint8_range _ _ _ Hfirst) as Hf.
  destruct (parseEvent_channel _ _ _ _ _ _ Hrange Hfirst Hevent) as (Htime & Hchan & Hother).
  assert (Hnext : nextRunningStatus rs event =
                  if isChannelEvent event then statusUsed first rs else rs).
  { rewrite nextRunningStatus_spec. destruct (isChannelEvent event); [|reflexivity].
    destruct (Hchan eq_refl) as [-> _]. reflexivity. }
  eapply IH; [| | | |exact Hloop].
  - rewrite lastChannelStatus_snoc, Hrs. reflexivity.
  - rewrite Hnext. unfold statusUsed.
    destruct (isChannelEvent event), (first <? 0x80); lia.
  - rewrite Hnext. destruct (isChannelEvent event); [|exact Hkind].
    right. apply Hchan. reflexivity.
  - apply allDecoded_snoc; [exact Hall|].
    unfold decodedAfter. rewrite <- Hrs.
    exists (trackOffset + vl_bytesRead deltaTime), first.
    split; [exact Hfirst|]. split; [rewrite Htime; exact Hevent|]. split.
    + intros Hlow. eapply parseEvent_running; eassumption.
    + rewrite lastChannelStatus_snoc, <- Hrs. exact Hnext.
Qed.

(** C3.  Every event [e] of a parsed track, with [before] the events of
    the track ahead of it, is the result of [parseEvent] at some offset
    [o] with the running status left by [before].  When the byte at [o]
    is below 0x80, [e] is decoded with that running status from the data
    bytes at [o] and [o + 1] and no status byte is consumed
    ([bytesRead] is 2; with no status seen yet the byte is skipped as an
    unknown event).  The running status after [e] is the status [e] was
    decoded with exactly when [e] is a noteOn, noteOff or controlChange
    event, and the one before [e] otherwise. *)
Theorem parseTrackChunk_running_status (fuel : nat) (view : DataView) (offset : Z)
    (tr : track) (before after : list event) (e : event) :
  parseTrackChunk fuel view offset = Ret tr ->
  t_events tr = before ++ e :: after ->
  decodedAfter view before e.
Proof.
  intros Hparse Hsplit. unfold parseTrackChunk in Hparse.
  bind_inv Hparse. destruct (negb (String.eqb a "MTrk")); [discriminate|].
  bind_inv Hparse. bind_inv Hparse. injection Hparse as <-. cbn in Hsplit.
  eapply (parseTrackChunk_loop_decoded view _ fuel _ 0 0 []); try eassumption.
  - reflexivity.
  - lia.
  - left. reflexivity.
  - intros b0 e0 a0' H. destruct b0; discriminate.
Qed.

(** ** Chunk signatures and the header *)

Lemma bytesFrom_drop view o (k : nat) :
  0 <= o -> bytesFrom view (o + Z.of_nat k) = drop k (bytesFrom view o).
Proof.
  intros Ho. unfold bytesFrom.
  replace (Z.to_nat (o + Z.of_nat k)) with (Z.to_nat o + k)%nat by lia.
  rewrite <- drop_drop. symmetry. apply skipn_map.
Qed.

Lemma getUint8_at view o (k : nat) :
  0 <= o ->
  getUint8 view (o + Z.of_nat k) =
  match bytesFrom view o !! k with
  | Some v => Ret v
  | None => Throw RangeError
  end.
Proof.
  intros Ho. rewrite getUint8_bytesFrom, bytesFrom_drop by lia.
  rewrite <- (Nat.add_0_r k) at 2. rewrite <- lookup_drop.
  destruct (drop k (bytesFrom view o)); reflexivity.
Qed.

Lemma byteLength_bytesFrom view o :
  0 <= o -> Z.of_nat (length (bytesFrom view o)) = Z.max 0 (byteLength view - o).
Proof.
  intros Ho. unfold bytesFrom, byteLength. rewrite length_map, length_drop. lia.
Qed.

Lemma getUint16_at view o (k : nat) :
  0 <= o ->
  getUint16 view (o + Z.of_nat k) =
  match bytesFrom view o !! k, bytesFrom view o !! S k with
  | Some b0, Some b1 => Ret (b0 * 256 + b1)
  | _, _ => Throw RangeError
  end.
Proof.
  intros Ho. unfold getUint16.
  replace (o + Z.of_nat k + 1) with (o + Z.of_nat (S k)) by lia.
  rewrite !getUint8_at by lia.
  pose proof (byteLength_bytesFrom view o Ho) as Hlen.
  destruct (Z.ltb_spec (o + Z.of_nat k) 0) as [?|_]; [lia|].
  destruct (Z.ltb_spec (byteLength view) (o + Z.of_nat k + 2)) as [Hshort|Hlong]; cbn [orb].
  - rewrite (lookup_ge_None_2 _ (S k)) by lia.
    destruct (bytesFrom view o !! k); reflexivity.
  - destruct (lookup_lt_is_Some_2 (bytesFrom view o) k ltac:(lia)) as [b0 ->].
    destruct (lookup_lt_is_Some_2 (bytesFrom view o) (S k) ltac:(lia)) as [b1 ->].
    reflexivity.
Qed.

Lemma getUint32_at view o (k : nat) :
  0 <= o ->
  getUint32 view (o + Z.of_nat k) =
  match bytesFrom view o !! k, bytesFrom view o !! S k,
        bytesFrom view o !! S (S k), bytesFrom view o !! S (S (S k)) with
  | Some b0, Some b1, Some b2, Some b3 => Ret (((b0 * 256 + b1) * 256 + b2) * 256 + b3)
  | _, _, _, _ => Throw RangeError
  end.
Proof.
  intros Ho. unfold getUint32.
  replace (o + Z.of_nat k + 1) with (o + Z.of_nat (S k)) by lia.
  replace (o + Z.of_nat k + 2) with (o + Z.of_nat (S (S k))) by lia.
  replace (o + Z.of_nat k + 3) with (o + Z.of_nat (S (S (S k)))) by lia.
  rewrite !getUint8_at by lia.
  pose proof (byteLength_bytesFrom view o Ho) as Hlen.
  destruct (Z.ltb_spec (o + Z.of_nat k) 0) as [?|_]; [lia|].
  destruct (Z.ltb_spec (byteLength view) (o + Z.of_nat k + 4)) as [Hshort|Hlong]; cbn [orb].
  - rewrite (lookup_ge_None_2 _ (S (S (S k)))) by lia.
    destruct (bytesFrom view o !! k), (bytesFrom view o !! S k),
      (bytesFrom view o !! S (S k)); reflexivity.
  - destruct (lookup_lt_is_Some_2 (bytesFrom view o) k ltac:(lia)) as [b0 ->].
    destruct (lookup_lt_is_Some_2 (bytesFrom view o) (S k) ltac:(lia)) as [b1 ->].
    destruct (lookup_lt_is_Some_2 (bytesFrom view o) (S (S k)) ltac:(lia)) as [b2 ->].
    destruct (lookup_lt_is_Some_2 (bytesFrom view o) (S (S (S k))) ltac:(lia)) as [b3 ->].
    reflexivity.
Qed.

Lemma readString_four view o :
  0 <= o ->
  readString view o 4 =
  match take 4 (bytesFrom view o) with
  | [c0; c1; c2; c3] => Ret (fromCharCodes [c0; c1; c2; c3])
  | _ => Throw RangeError
  end.
Proof.
  intros Ho. unfold readString. cbn [readString_loop].
  change (o + 0) with (o + Z.of_nat 0).
  change (o + (0 + 1)) with (o + Z.of_nat 1).
  change (o + (0 + 1 + 1)) with (o + Z.of_nat 2).
  change (o + (0 + 1 + 1 + 1)) with (o + Z.of_nat 3).
  rewrite !getUint8_at by lia.
  destruct (bytesFrom view o) as [|c0 [|c1 [|c2 [|c3 rest]]]]; reflexivity.
Qed.

Lemma readString_negative view o (n : nat) :
  o < 0 -> readString view o (S n) = Throw RangeError.
Proof.
  intros Ho. unfold readString. cbn [readString_loop].
  rewrite getUint8_negative by lia. reflexivity.
Qed.

Lemma ascii_code_inj (c d : Z) :
  0 <= c < 256 -> 0 <= d < 256 ->
  ascii_of_N (Z.to_N c) = ascii_of_N (Z.to_N d) -> c = d.
Proof.
  intros Hc Hd H. apply (f_equal N_of_ascii) in H.
  rewrite !N_ascii_embedding in H by lia. lia.
Qed.

Lemma fromCharCodes_inj (a b : list Z) :
  Forall (fun v => 0 <= v < 256) a -> Forall (fun v => 0 <= v < 256) b ->
  fromCharCodes a = fromCharCodes b -> a = b.
Proof.
  intros Ha. revert b. induction Ha as [|c a Hc Ha IH]; intros b Hb H.
  - destruct b; [reflexivity|discriminate].
  - destruct Hb as [|d b Hd Hb]; [discriminate|].
    cbn in H. injection H as H1 H2.
    f_equal; [eapply ascii_code_inj; eassumption|]. apply IH; assumption.
Qed.

Lemma signature_eqb (codes expected : list Z) (name : string) :
  Forall (fun v => 0 <= v < 256) codes ->
  Forall (fun v => 0 <= v < 256) expected ->
  name = fromCharCodes expected ->
  String.eqb (fromCharCodes codes) name = bool_decide (codes = expected).
Proof.
  intros Hc He ->. destruct (String.eqb_spec (fromCharCodes codes) (fromCharCodes expected)) as [H|H].
  - apply fromCharCodes_inj in H; try assumption. subst. rewrite bool_decide_eq_true_2; reflexivity.
  - rewrite bool_decide_eq_false_2; [reflexivity|]. intros ->. apply H. reflexivity.
Qed.

Lemma take_bytesFrom_range view o n :
  Forall (fun v => 0 <= v < 256) (take n (bytesFrom view o)).
Proof. apply Forall_take, bytesFrom_range. Qed.

Lemma parseHeaderChunk_spec view offset :
  parseHeaderChunk view offset = headerSpec view offset.
Proof.
  unfold parseHeaderChunk, headerSpec, signatureAt.
  destruct (Z.ltb_spec offset 0) as [Hneg|Hpos].
  - rewrite readString_negative by lia. reflexivity.
  - rewrite readString_four by lia.
    pose proof (take_bytesFrom_range view offset 4) as Hrange.
    change (offset + 4) with (offset + Z.of_nat 4).
    change (offset + 8) with (offset + Z.of_nat 8).
    change (offset + 10) with (offset + Z.of_nat 10).
    change (offset + 12) with (offset + Z.of_nat 12).
    rewrite getUint32_at, !getUint16_at by lia.
    destruct (bytesFrom view offset) as [|c0 [|c1 [|c2 [|c3 rest]]]]; try reflexivity.
    cbn [firstn] in *. rewrite firstn_O in *. cbn [length Nat.eqb bind].
    rewrite (signature_eqb [c0; c1; c2; c3] MThd "MThd") by
      (try assumption; try reflexivity; repeat constructor; lia).
    destruct (decide ([c0; c1; c2; c3] = MThd)) as [Hsig|Hsig].
    + rewrite bool_decide_eq_true_2 by assumption. cbn [negb].
      do 10 (destruct rest as [|? rest]; [reflexivity|]).
      cbn. unfold bigEndian. cbn. reflexivity.
    + rewrite bool_decide_eq_false_2 by assumption. reflexivity.
Qed.

Lemma readVariableLength_throws view o e :
  readVariableLength view o = Throw e -> e = RangeError.
Proof.
  rewrite readVariableLength_spec. unfold variableLengthSpec.
  destruct (o <? 0); [congruence|].
  destruct (consumed (bytesFrom view o)); congruence.
Qed.

Lemma parseEvent_throws view o runningStatus time e :
  parseEvent view o runningStatus time = Throw e -> e = RangeError.
Proof.
  unfold parseEvent. intros H.
  apply bind_Throw in H as [H|(first & _ & H)]; [eapply getUint8_throws, H|].
  destruct (first <? 0x80);
    match type of H with
    | match ?m with _ => _ end = _ => destruct m as [|q|q]; try discriminate
    end;
    do 4 (try destruct q as [q|q|]); try discriminate;
    try match type of H with
        | (if ?c then _ else _) = _ => destruct c; try discriminate
        end;
    repeat (apply bind_Throw in H as [H|(? & ? & H)];
            [first [eapply getUint8_throws, H
                   |eapply readVariableLength_throws, H
                   |eapply metaBody_Throw, H]|]);
    discriminate.
Qed.

Lemma parseTrackChunk_loop_throws view trackEnd e :
  forall fuel trackOffset runningStatus currentTime events,
    parseTrackChunk_loop fuel view trackEnd trackOffset runningStatus currentTime events
      = Throw e ->
    e = RangeError.
Proof.
  induction fuel as [|fuel IH]; intros trackOffset rs currentTime events H;
    cbn [parseTrackChunk_loop] in H;
    destruct (trackOffset <? trackEnd); try discriminate.
  apply bind_Throw in H as [H|(deltaTime & _ & H)];
    [eapply readVariableLength_throws, H|].
  apply bind_Throw in H as [H|(event & _ & H)];
    [eapply parseEvent_throws, H|].
  eapply IH, H.
Qed.

Lemma getUint32_throws view o e : getUint32 view o = Throw e -> e = RangeError.
Proof.
  unfold getUint32. destruct (_ || _); [congruence|]. intros H.
  repeat (apply bind_Throw in H as [H|(? & ? & H)]; [eapply getUint8_throws, H|]).
  discriminate.
Qed.

Lemma parseTrackChunk_signature fuel view offset :
  parseTrackChunk fuel view offset =
  match signatureAt view offset with
  | None => Throw RangeError
  | Some signature =>
      if decide (signature = MTrk) then
        let! length := getUint32 view (offset + 4) in
        let! events :=
          parseTrackChunk_loop fuel view (offset + 8 + length) (offset + 8) 0 0 [] in
        Ret (mkTrack length events)
      else Throw (Error "Invalid MIDI file: Missing MTrk signature")
  end.
Proof.
  unfold parseTrackChunk, signatureAt.
  destruct (Z.ltb_spec offset 0) as [Hneg|Hpos].
  - rewrite readString_negative by lia. reflexivity.
  - rewrite readString_four by lia.
    pose proof (take_bytesFrom_range view offset 4) as Hrange.
    destruct (bytesFrom view offset) as [|c0 [|c1 [|c2 [|c3 rest]]]]; try reflexivity.
    cbn [firstn] in *. rewrite firstn_O in *. cbn [length Nat.eqb bind].
    rewrite (signature_eqb [c0; c1; c2; c3] MTrk "MTrk") by
      (try assumption; try reflexivity; repeat constructor; lia).
    destruct (decide ([c0; c1; c2; c3] = MTrk)) as [Hsig|Hsig].
    + rewrite bool_decide_eq_true_2 by assumption. reflexivity.
    + rewrite bool_decide_eq_false_2 by assumption. reflexivity.
Qed.

(** C4, as the code has it.  [parseHeaderChunk] throws its "Missing MThd
    signature" error exactly when the buffer has four bytes at the offset
    and they are not 'MThd', and [parseTrackChunk] throws its "Missing
    MTrk signature" error exactly when the buffer has four bytes at the
    offset and they are not 'MTrk'.  Every other exception of the two is
    the [RangeError] of a read past the end of the buffer; the header
    read throws it when the four bytes or the fourteen bytes of the
    header are not there.  [parseHeaderChunk] returns exactly when the
    signature is 'MThd' and fourteen bytes are there, and then [format],
    [trackCount] and [ticksPerQuarter] are the big-endian 16-bit numbers
    at byte offsets 8, 10 and 12. *)
Theorem chunk_signature_errors (fuel : nat) (view : DataView) (offset : Z) :
  (parseHeaderChunk view offset
     = Throw (Error "Invalid MIDI file: Missing MThd signature")
   <-> exists signature, signatureAt view offset = Some signature /\ signature <> MThd)
  /\ (parseTrackChunk fuel view offset
        = Throw (Error "Invalid MIDI file: Missing MTrk signature")
      <-> exists signature, signatureAt view offset = Some signature /\ signature <> MTrk)
  /\ (parseHeaderChunk view offset = Throw RangeError
      <-> signatureAt view offset = None
          \/ (signatureAt view offset = Some MThd
              /\ (length (bytesFrom view offset) < 14)%nat))
  /\ (forall e, parseTrackChunk fuel view offset = Throw e ->
        e = RangeError \/ e = Error "Invalid MIDI file: Missing MTrk signature")
  /\ (forall h, parseHeaderChunk view offset = Ret h
      <-> signatureAt view offset = Some MThd
          /\ (14 <= length (bytesFrom view offset))%nat
          /\ h = {| h_length := bigEndian (bytesFrom view offset) 4 4;
                    h_format := bigEndian (bytesFrom view offset) 8 2;
                    h_trackCount := bigEndian (bytesFrom view offset) 10 2;
                    h_ticksPerQuarter := bigEndian (bytesFrom view offset) 12 2 |}).
Proof.
  rewrite parseHeaderChunk_spec, parseTrackChunk_signature. unfold headerSpec.
  assert (Hbody : forall e,
    (let! length := getUint32 view (offset + 4) in
     let! events :=
       parseTrackChunk_loop fuel view (offset + 8 + length) (offset + 8) 0 0 [] in
     Ret (mkTrack length events)) = Throw e -> e = RangeError).
  { intros e H.
    apply bind_Throw in H as [H|(? & _ & H)]; [eapply getUint32_throws, H|].
    apply bind_Throw in H as [H|(? & _ & H)];
      [eapply parseTrackChunk_loop_throws, H|discriminate]. }
  assert (Hbody' :
    (let! length := getUint32 view (offset + 4) in
     let! events :=
       parseTrackChunk_loop fuel view (offset + 8 + length) (offset + 8) 0 0 [] in
     Ret (mkTrack length events))
    <> Throw (Error "Invalid MIDI file: Missing MTrk signature")).
  { intros H. apply Hbody in H. discriminate. }
  destruct (signatureAt view offset) as [signature|].
  - split; [|split; [|split; [|split]]].
    + destruct (decide (signature = MThd)) as [->|Hh].
      * destruct (length (bytesFrom view offset) <? 14)%nat;
          (split; [discriminate|intros (sg & [= <-] & Hne); congruence]).
      * split; [intros _; exists signature; auto|reflexivity].
    + destruct (decide (signature = MTrk)) as [->|Ht].
      * split; [intros H; contradiction|intros (sg & [= <-] & Hne); congruence].
      * split; [intros _; exists signature; auto|reflexivity].
    + destruct (decide (signature = MThd)) as [->|Hh].
      * destruct (Nat.ltb_spec (length (bytesFrom view offset)) 14) as [Hlen|Hlen].
        -- split; [intros _; right; auto|reflexivity].
        -- split; [discriminate|intros [H|[_ H]]; [discriminate|lia]].
      * split; [discriminate|intros [H|[H _]]; congruence].
    + intros e. destruct (decide (signature = MTrk)) as [->|Ht].
      * intros H. left. eapply Hbody, H.
      * intros [= <-]. right. reflexivity.
    + intros h. destruct (decide (signature = MThd)) as [->|Hh].
      * destruct (Nat.ltb_spec (length (bytesFrom view offset)) 14) as [Hlen|Hlen].
        -- split; [discriminate|intros (_ & H & _); lia].
        -- split; [intros [= <-]; auto|intros (_ & _ & ->); reflexivity].
      * split; [discriminate|intros (H & _); congruence].
  - split; [|split; [|split; [|split]]].
    + split; [discriminate|intros (sg & H & _); discriminate].
    + split; [discriminate|intros (sg & H & _); discriminate].
    + split; [auto|reflexivity].
    + intros e [= <-]. auto.
    + intros h. split; [discriminate|intros (H & _); discriminate].
Qed.

(** C4 as stated fails on a truncated file: the buffer of the four
    bytes 'MThd' has the right signature and [parseHeaderChunk] throws
    all the same, and so does [parseTrackChunk] on a chunk 'MTrk' whose
    declared byte of data is missing. *)
Lemma truncated_chunks_throw :
  let header := [x4d; x54; x68; x64] in
  let chunk := [x4d; x54; x72; x6b; x00; x00; x00; x01] in
  signatureAt header 0 = Some MThd /\
  parseHeaderChunk header 0 = Throw RangeError /\
  signatureAt chunk 0 = Some MTrk /\
  parseTrackChunk 1 chunk 0 = Throw RangeError.
Proof. repeat split; vm_compute; reflexivity. Qed.

(** ** [Array.prototype.sort] *)

Section SortFacts.
Context {A : Type} (cmp : A -> A -> JS.num).

Lemma insertSorted_perm x l : JS.insertSorted cmp x l ≡ₚ x :: l.
Proof.
  induction l as [|y l IH]; cbn [JS.insertSorted]; [reflexivity|].
  destruct (JS.goesAfter cmp x y); [|reflexivity].
  rewrite IH. apply Permutation_swap.
Qed.

Lemma sort_perm l : JS.sort cmp l ≡ₚ l.
Proof.
  induction l as [|x l IH]; cbn [JS.sort]; [reflexivity|].
  rewrite insertSorted_perm, IH. reflexivity.
Qed.

(** On a domain [P] where the comparator follows a transitive order
    [le], the result is in that order. *)
Context (P : A -> Prop) (le : A -> A -> Prop).
Hypothesis le_trans : forall a b c, P a -> P b -> P c -> le a b -> le b c -> le a c.
Hypothesis after_le : forall a b, P a -> P b -> JS.goesAfter cmp a b = true -> le b a.
Hypothesis before_le : forall a b, P a -> P b -> JS.goesAfter cmp a b = false -> le a b.

Lemma insertSorted_sorted x l :
  P x -> Forall P l -> StronglySorted le l ->
  StronglySorted le (JS.insertSorted cmp x l).
Proof.
  intros Hx HP Hs. induction Hs as [|y l Hs IH Hy]; cbn [JS.insertSorted].
  - repeat constructor.
  - apply Forall_cons in HP as [HPy HPl].
    destruct (JS.goesAfter cmp x y) eqn:E.
    + constructor; [apply IH, HPl|].
      rewrite insertSorted_perm. apply Forall_cons_2; [|exact Hy].
      apply after_le; assumption.
    + constructor; [constructor; assumption|].
      apply Forall_cons_2; [apply before_le; assumption|].
      rewrite Forall_forall in Hy, HPl |- *. intros z Hz.
      apply (le_trans x y z); auto.
Qed.

Lemma sort_sorted l : Forall P l -> StronglySorted le (JS.sort cmp l).
Proof.
  induction l as [|x l IH]; intros HP; cbn [JS.sort]; [constructor|].
  apply Forall_cons in HP as [Hx HP].
  apply insertSorted_sorted; [exact Hx| |apply IH, HP].
  rewrite sort_perm. exact HP.
Qed.

End SortFacts.

(** ** Arithmetic of finite numbers *)

Lemma ltb_Fin x y : JS.ltb (JS.Fin x) (JS.Fin y) = true <-> (x < y)%Q.
Proof.
  cbn. rewrite Qlt_alt. destruct (x ?= y)%Q; split; congruence.
Qed.

Lemma leb_Fin x y : JS.leb (JS.Fin x) (JS.Fin y) = true <-> (x <= y)%Q.
Proof.
  cbn. rewrite Qle_alt. destruct (x ?= y)%Q; split; congruence.
Qed.

Lemma ltb_zero_sub_ofZ a b :
  JS.ltb (JS.Fin 0) (JS.sub (JS.ofZ a) (JS.ofZ b)) = (b <? a).
Proof.
  assert (H : JS.ltb (JS.Fin 0) (JS.sub (JS.ofZ a) (JS.ofZ b)) = true <-> b < a).
  { unfold JS.sub, JS.ofZ, JS.neg, JS.add. rewrite ltb_Fin, Qred_correct.
    rewrite <- inject_Z_opp, <- inject_Z_plus.
    change 0%Q with (inject_Z 0). rewrite <- Zlt_Qlt. lia. }
  destruct (Z.ltb_spec b a) as [Hlt|Hge].
  - apply H, Hlt.
  - apply not_true_is_false. intros E. apply H in E. lia.
Qed.

(** ** [processEvents] *)

Lemma parseEvent_tempoInRange view o runningStatus time e :
  parseEvent view o runningStatus time = Ret e -> tempoInRange e.
Proof.
  unfold parseEvent, tempoInRange. intros H. bind_inv H.
  destruct (a <? 0x80);
    match type of H with
    | match ?m with _ => _ end = _ => destruct m as [|q|q]
    end;
    try (do 4 (try destruct q as [q|q|]));
    try match type of H with
        | (if ?c then _ else _) = _ => destruct c
        end;
    repeat bind_inv H;
    try match goal with
        | Hm : metaBody _ _ _ _ _ = Ret ?b |- _ =>
            apply metaBody_Ret in Hm; destruct b; try contradiction
        end;
    injection H as <-; cbn;
    try match goal with |- context [if ?c then _ else _] => destruct c end;
    auto.
Qed.

Lemma parseTrackChunk_loop_tempo view trackEnd :
  forall fuel trackOffset runningStatus currentTime events result,
    Forall tempoInRange events ->
    parseTrackChunk_loop fuel view trackEnd trackOffset runningStatus currentTime events
      = Ret result ->
    Forall tempoInRange result.
Proof.
  induction fuel as [|fuel IH]; intros trackOffset rs currentTime events result Hall H;
    cbn [parseTrackChunk_loop] in H;
    destruct (trackOffset <? trackEnd); try discriminate;
    try (injection H as <-; exact Hall).
  bind_inv H. bind_inv H. eapply IH; [|exact H].
  apply Forall_app. split; [exact Hall|].
  constructor; [|constructor]. eapply parseEvent_tempoInRange. eassumption.
Qed.

Lemma parseTrackChunk_tempo fuel view offset tr :
  parseTrackChunk fuel view offset = Ret tr -> Forall tempoInRange (t_events tr).
Proof.
  unfold parseTrackChunk. intros H. bind_inv H.
  destruct (negb _); [discriminate|]. bind_inv H. bind_inv H.
  injection H as <-. cbn. eapply parseTrackChunk_loop_tempo; [|eassumption].
  constructor.
Qed.

Lemma parseTracks_tempo fuel view :
  forall count offset tracks result,
    Forall (fun t => Forall tempoInRange (t_events t)) tracks ->
    parseTracks fuel view count offset tracks = Ret result ->
    Forall (fun t => Forall tempoInRange (t_events t)) result.
Proof.
  induction count as [|count IH]; intros offset tracks result Hall H; cbn in H.
  - injection H as <-. exact Hall.
  - bind_inv H. eapply IH; [|exact H].
    apply Forall_app. split; [exact Hall|].
    constructor; [|constructor]. eapply parseTrackChunk_tempo. eassumption.
Qed.

Lemma mergeTracks_events tracks :
  forall trackIndex,
    map fst (mergeTracks tracks trackIndex) = concat (map t_events tracks).
Proof.
  induction tracks as [|t tracks IH]; intros trackIndex; cbn; [reflexivity|].
  rewrite map_app, IH, map_map. cbn. rewrite map_id. reflexivity.
Qed.

Lemma assignSeconds_events ticksPerQuarter :
  forall l currentTempo currentTime lastTickTime,
    map (fun e => (te_event e, te_track e))
        (assignSeconds ticksPerQuarter currentTempo currentTime lastTickTime l) = l.
Proof.
  induction l as [|[e trackIndex] l IH]; intros; cbn; [reflexivity|].
  rewrite IH. reflexivity.
Qed.

(** A property of every element of a list given the elements before it
    extends to one more element at the end. *)
Lemma snoc_splits {A} (Q : list A -> A -> Prop) (done : list A) (x : A) :
  (forall before e after, done = before ++ e :: after -> Q before e) ->
  Q done x ->
  forall before e after, done ++ [x] = before ++ e :: after -> Q before e.
Proof.
  intros Hall Hx before e after Hsplit.
  destruct after as [|y after _] using rev_ind.
  - apply app_inj_tail in Hsplit as [-> ->]. exact Hx.
  - rewrite app_comm_cons, app_assoc in Hsplit.
    apply app_inj_tail in Hsplit as [-> _]. eapply Hall. reflexivity.
Qed.

Lemma tempoAfter_snoc initial l e :
  tempoAfter initial (l ++ [e]) =
  match ev_body e with Tempo t => t | _ => tempoAfter initial l end.
Proof.
  unfold tempoAfter. rewrite List.filter_app. cbn [List.filter].
  unfold isTempo at 2.
  destruct e as [time b bytesRead]; destruct b; cbn [ev_body];
    rewrite ?app_nil_r, ?last_snoc; reflexivity.
Qed.

Lemma assignSeconds_accumulates ticksPerQuarter initial :
  forall l done currentTempo currentTime lastTickTime,
    currentTempo = tempoAfter initial (map te_event done) ->
    currentTime = match last done with Some a => te_seconds a | None => JS.Fin 0 end ->
    lastTickTime = match last done with Some a => te_time a | None => 0 end ->
    (forall before e after,
        done = before ++ e :: after -> accumulates ticksPerQuarter initial before e) ->
    forall before e after,
      done ++ assignSeconds ticksPerQuarter currentTempo currentTime lastTickTime l
        = before ++ e :: after ->
      accumulates ticksPerQuarter initial before e.
Proof.
  induction l as [|[x trackIndex] l IH];
    intros done currentTempo currentTime lastTickTime Htempo Htime Htick Hdone;
    cbn [assignSeconds].
  - rewrite app_nil_r. exact Hdone.
  - intros before e after.
    rewrite (app_assoc done [_] _ : done ++ _ :: _ = (done ++ [_]) ++ _).
    apply IH.
    + rewrite map_app. cbn [map te_event]. rewrite tempoAfter_snoc, Htempo. reflexivity.
    + rewrite last_snoc. reflexivity.
    + rewrite last_snoc. reflexivity.
    + apply snoc_splits; [exact Hdone|].
      unfold accumulates. rewrite map_app. cbn [map te_event].
      rewrite tempoAfter_snoc, <- Htempo, <- Htime, <- Htick. reflexivity.
Qed.

Lemma Qsgn_inject_Z z : JS.Qsgn (inject_Z z) = Z.sgn z.
Proof. reflexivity. Qed.

Lemma step_finite c tickDelta ticksPerQuarter currentTempo :
  ticksPerQuarter <> 0 ->
  JS.add (JS.Fin c)
    (JS.mul (JS.div (JS.ofZ tickDelta) (JS.ofZ ticksPerQuarter))
            (JS.div (JS.ofZ currentTempo) (JS.ofZ 1000000)))
  = JS.Fin (advance c tickDelta ticksPerQuarter currentTempo).
Proof.
  intros Hne. unfold JS.div, JS.ofZ. rewrite !Qsgn_inject_Z.
  destruct (Z.eqb_spec (Z.sgn ticksPerQuarter) 0) as [H|_]; [lia|].
  reflexivity.
Qed.

Lemma advance_le c tickDelta ticksPerQuarter currentTempo :
  0 <= tickDelta -> 0 < ticksPerQuarter -> 0 <= currentTempo ->
  (c <= advance c tickDelta ticksPerQuarter currentTempo)%Q.
Proof.
  intros Hd Hq Ht. unfold advance. rewrite !Qred_correct.
  rewrite <- (Qplus_0_r c) at 1. apply Qplus_le_r.
  apply Qmult_le_0_compat; unfold Qdiv;
    (apply Qmult_le_0_compat;
     [change 0%Q with (inject_Z 0); rewrite <- Zle_Qle; lia
     |apply Qinv_le_0_compat; change 0%Q with (inject_Z 0); rewrite <- Zle_Qle; lia]).
Qed.

Lemma assignSeconds_monotone ticksPerQuarter :
  0 < ticksPerQuarter ->
  forall l currentTempo c lastTickTime,
    0 <= currentTempo ->
    Forall (fun x => tempoInRange (fst x)) l ->
    StronglySorted timeOrdered l ->
    Forall (fun x => lastTickTime <= ev_time (fst x)) l ->
    let r := assignSeconds ticksPerQuarter currentTempo (JS.Fin c) lastTickTime l in
    Forall (fun e => exists q, te_seconds e = JS.Fin q /\ (c <= q)%Q) r /\
    nondecreasing (map te_seconds r) = true.
Proof.
  intros Hq. induction l as [|[x trackIndex] l IH];
    intros currentTempo c lastTickTime Ht Hrange Hsorted Hlast; cbn zeta.
  - split; [constructor|reflexivity].
  - cbn [assignSeconds].
    apply Forall_cons in Hrange as [Hx Hrange].
    apply Forall_cons in Hlast as [Hlx Hlast].
    apply StronglySorted_inv in Hsorted as [Hsorted Hhead].
    cbn [fst] in *.
    set (tempo' := match ev_body x with Tempo t => t | _ => currentTempo end).
    assert (Ht' : 0 <= tempo').
    { unfold tempo', tempoInRange in *. destruct (ev_body x); lia. }
    rewrite step_finite by lia.
    set (c' := advance c (ev_time x - lastTickTime) ticksPerQuarter tempo').
    assert (Hc : (c <= c')%Q) by (apply advance_le; lia).
    destruct (IH tempo' c' (ev_time x) Ht' Hrange Hsorted Hhead) as [Hfin Hmono].
    split.
    + apply Forall_cons_2; [exists c'; split; [reflexivity|exact Hc]|].
      eapply Forall_impl; [exact Hfin|].
      intros e (q & Hq1 & Hq2). exists q. split; [exact Hq1|].
      eapply Qle_trans; eassumption.
    + cbn [map te_seconds nondecreasing].
      destruct (assignSeconds ticksPerQuarter tempo' (JS.Fin c') (ev_time x) l)
        as [|e r] eqn:Er; [reflexivity|].
      cbn [map] in *. rewrite Hmono, andb_true_r.
      apply Forall_cons in Hfin as [(q & Hq1 & Hq2) _].
      rewrite Hq1. apply leb_Fin. exact Hq2.
Qed.

Lemma getUint16_range view o v : getUint16 view o = Ret v -> 0 <= v < 65536.
Proof.
  unfold getUint16. destruct (_ || _); [discriminate|]. intros H.
  repeat bind_inv H. injection H as <-.
  apply getUint8_range in Ha, Ha0. lia.
Qed.

Lemma parseHeaderChunk_ticks view o h :
  parseHeaderChunk view o = Ret h -> 0 <= h_ticksPerQuarter h < 65536.
Proof.
  unfold parseHeaderChunk. intros H. bind_inv H.
  destruct (negb _); [discriminate|]. repeat bind_inv H. injection H as <-.
  cbn. eapply getUint16_range. eassumption.
Qed.

Lemma byTime_after a b :
  JS.goesAfter byTime a b = (ev_time (fst b) <? ev_time (fst a)).
Proof. unfold JS.goesAfter, byTime. apply ltb_zero_sub_ofZ. Qed.

Lemma sort_byTime_sorted l : StronglySorted timeOrdered (JS.sort byTime l).
Proof.
  apply (sort_sorted byTime (fun _ => True) timeOrdered);
    unfold timeOrdered.
  - intros; lia.
  - intros a b _ _ H. rewrite byTime_after in H. apply Z.ltb_lt in H. lia.
  - intros a b _ _ H. rewrite byTime_after in H. apply Z.ltb_ge in H. lia.
  - apply Forall_forall. auto.
Qed.

Lemma StronglySorted_map {A B} (f : A -> B) (R : B -> B -> Prop) l :
  StronglySorted R (map f l) -> StronglySorted (fun a b => R (f a) (f b)) l.
Proof.
  induction l as [|x l IH]; cbn; intros H; [constructor|].
  apply StronglySorted_inv in H as [Hs Hh]. constructor; [apply IH, Hs|].
  clear -Hh. induction l as [|y l IHl]; cbn in Hh; [constructor|].
  inversion Hh; subst. constructor; auto.
Qed.

Lemma nondecreasing_finite_head c (l : list JS.num) :
  Forall (fun s => exists q, s = JS.Fin q /\ (c <= q)%Q) l ->
  nondecreasing l = true ->
  nondecreasing (JS.Fin c :: l) = true.
Proof.
  intros Hall Hmono. destruct l as [|s l]; [reflexivity|].
  cbn [nondecreasing] in *. rewrite Hmono, andb_true_r.
  apply Forall_cons in Hall as [(q & -> & Hq) _]. apply leb_Fin, Hq.
Qed.

Lemma mergeTracks_tempo tracks :
  Forall (fun t => Forall tempoInRange (t_events t)) tracks ->
  forall trackIndex,
    Forall (fun x => tempoInRange (fst x)) (mergeTracks tracks trackIndex).
Proof.
  induction 1 as [|t tracks Ht Htracks IH]; intros trackIndex; cbn; [constructor|].
  apply Forall_app. split; [|apply IH].
  clear -Ht. induction Ht; cbn; constructor; auto.
Qed.

(** C1, as the code has it.  For every file that [parse] reads, the
    events returned are the events of all tracks merged into one list
    and sorted by tick time, and the timestamp of each one is that of the
    event before it plus (tick delta / ticksPerQuarter) * (tempo /
    1,000,000), with the tempo of the last tempo event so far (500000
    before the first).  When the header's ticksPerQuarter is not zero,
    every timestamp is a finite number and the timestamps never decrease
    along the list. *)
Theorem processEvents_timestamps (fuel : nat) (buffer : list byte)
    (p : parser) (events : list timedEvent) :
  parse fuel constructor buffer = Ret (p, events) ->
  map te_event events ≡ₚ concat (map t_events (tracks p))
  /\ StronglySorted (fun a b => te_time a <= te_time b) events
  /\ (forall before e after,
         events = before ++ e :: after ->
         accumulates (ticksPerQuarter p) 500000 before e)
  /\ (ticksPerQuarter p <> 0 ->
      Forall (fun e => JS.isFinite (te_seconds e) = true) events
      /\ nondecreasing (map te_seconds events) = true).
Proof.
  unfold parse. intros H. bind_inv H. rename a into header, Ha into Hheader.
  bind_inv H. rename a into parsed, Ha into Htracks.
  injection H as <- <-. unfold processEvents.
  cbn [tracks ticksPerQuarter p_tempo constructor].
  set (tpq := h_ticksPerQuarter header).
  set (sorted := JS.sort byTime (mergeTracks parsed 0)).
  set (result := assignSeconds tpq 500000 (JS.Fin 0) 0 sorted).
  assert (Hpairs : map (fun e => (te_event e, te_track e)) result = sorted)
    by apply assignSeconds_events.
  assert (Hevents : map te_event result = map fst sorted).
  { rewrite <- Hpairs, map_map. reflexivity. }
  split; [|split; [|split]].
  - rewrite Hevents. unfold sorted.
    rewrite (sort_perm byTime (mergeTracks parsed 0)).
    rewrite mergeTracks_events. reflexivity.
  - pose proof (sort_byTime_sorted (mergeTracks parsed 0)) as Hs. fold sorted in Hs.
    rewrite <- Hpairs in Hs. apply StronglySorted_map in Hs. exact Hs.
  - intros before e after Hsplit.
    eapply (assignSeconds_accumulates tpq 500000 sorted [] 500000 (JS.Fin 0) 0);
      try reflexivity; [|exact Hsplit].
    intros b0 e0 a0 Hnil. destruct b0; discriminate.
  - intros Hne.
    pose proof (parseHeaderChunk_ticks _ _ _ Hheader) as Hticks. fold tpq in Hticks.
    assert (Hrange : Forall (fun x => tempoInRange (fst x)) sorted).
    { unfold sorted. rewrite (sort_perm byTime (mergeTracks parsed 0)).
      apply mergeTracks_tempo.
      eapply (parseTracks_tempo fuel buffer _ _ []); [constructor|exact Htracks]. }
    pose proof (sort_byTime_sorted (mergeTracks parsed 0)) as Hs. fold sorted in Hs.
    unfold result. destruct sorted as [|[x trackIndex] l]; [split; [constructor|reflexivity]|].
    cbn [assignSeconds]. rewrite step_finite by exact Hne.
    apply Forall_cons in Hrange as [Hx Hrange]. cbn [fst] in Hx.
    apply StronglySorted_inv in Hs as [Hs Hhead].
    set (tempo' := match ev_body x with Tempo t => t | _ => 500000 end).
    assert (Ht' : 0 <= tempo').
    { unfold tempo', tempoInRange in *. destruct (ev_body x); lia. }
    set (c := advance 0 (ev_time x - 0) tpq tempo').
    destruct (assignSeconds_monotone tpq ltac:(lia) l tempo' c (ev_time x)
                Ht' Hrange Hs Hhead) as [Hfin Hmono].
    split.
    + apply Forall_cons_2; [reflexivity|].
      eapply Forall_impl; [exact Hfin|]. intros e (q & -> & _). reflexivity.
    + cbn [map te_seconds]. apply nondecreasing_finite_head; [|exact Hmono].
      apply Forall_map. eapply Forall_impl; [exact Hfin|]. intros e He. exact He.
Qed.

(** C1 as stated fails on a file whose header gives ticksPerQuarter as
    0: the tick deltas divided by it are 0/0, every timestamp is [NaN],
    and [NaN <= NaN] is false. *)
Lemma zero_division_timestamps :
  let buffer :=
    [x4d; x54; x68; x64; x00; x00; x00; x06; x00; x00; x00; x01; x00; x00;
     x4d; x54; x72; x6b; x00; x00; x00; x08;
     x00; x90; x3c; x64; x00; xff; x2f; x00] in
  exists p events,
    parse 2 constructor buffer = Ret (p, events) /\
    ticksPerQuarter p = 0 /\
    map te_seconds events = [JS.NaN; JS.NaN] /\
    nondecreasing (map te_seconds events) = false.
Proof. do 2 eexists. repeat split; vm_compute; reflexivity. Qed.

(* ===================================================================== *)
(** * Facts about the player *)
(* ===================================================================== *)

Import MIDIPlayer.

Lemma leb_trans a b c :
  JS.leb a b = true -> JS.leb b c = true -> JS.leb a c = true.
Proof.
  destruct a as [x| | |], b as [y| | |], c as [z| | |]; cbn; try congruence; intros H1 H2.
  apply leb_Fin. apply leb_Fin in H1. apply leb_Fin in H2.
  eapply Qle_trans; eassumption.
Qed.

(** ** [update] *)






(** ** The event list that [applyTrackFilter] builds *)




Section Preserved.
Context (P : playerEvent -> Prop).





End Preserved.



(** ** Timestamps that are not numbers *)










(** ** Sorting a list whose last timestamps are [NaN] *)












(** ** The groups of [applyTrackFilter] *)












(** ** Short notes keep the place of the [NaN] timestamps *)






(** ** The events that are due *)









(** ** A run *)



(** ** The states of a player *)





(** ** Short notes *)

(** C8 at its failing input: a file of one track at 100 ticks per
    quarter note with note 60 on, off, on and off, two ticks (10 ms)
    apart.  [load] runs [applyTrackFilter]: the two noteOff events are
    moved to 0.05 s and 0.07 s, the last sort puts both behind the second
    noteOn, and that noteOn, at 0.02 s, is followed by the noteOff of its
    note at 0.05 s, which is 0.03 s later. *)
Theorem applyTrackFilter_short_note :
  let buffer :=
    [x4d; x54; x68; x64; x00; x00; x00; x06; x00; x00; x00; x01; x00; x64;
     x4d; x54; x72; x6b; x00; x00; x00; x14;
     x00; x90; x3c; x64;  x02; x80; x3c; x00;
     x02; x90; x3c; x64;  x02; x80; x3c; x00;
     x00; xff; x2f; x00] in
  exists p parsed,
    parse 5 MIDIParser.constructor buffer = Ret (p, parsed) /\
    map te_seconds parsed
      = [JS.Fin 0; JS.Fin (1 # 100); JS.Fin (1 # 50); JS.Fin (3 # 100); JS.Fin (3 # 100)] /\
    let player := load parsed MIDIPlayer.constructor in
    map (fun e => (type e, note e, seconds e)) (events player)
      = [(Some noteOn, Some 60, JS.Fin 0);
         (Some noteOn, Some 60, JS.Fin (1 # 50));
         (Some noteOff, Some 60, JS.Fin (1 # 20));
         (Some noteOff, Some 60, JS.Fin (7 # 100))] /\
    notesLastMinimum (events player) = false.
Proof. do 2 eexists. repeat split; vm_compute; reflexivity. Qed.

(** ** Notes and keys *)

(** C6 at its failing input: a file with note 60 on at 0 s and off at
    1 s is loaded, and [seek(0.5)] is the first operation.  Note 60 is in
    [activeNotes] afterwards and [keyStates[48]] is still false. *)
Theorem seek_leaves_keys_unsynchronized :
  let buffer :=
    [x4d; x54; x68; x64; x00; x00; x00; x06; x00; x00; x00; x01; x00; x64;
     x4d; x54; x72; x6b; x00; x00; x00; x0d;
     x00; x90; x3c; x64;  x81; x48; x80; x3c; x00;
     x00; xff; x2f; x00] in
  exists p parsed,
    parse 3 MIDIParser.constructor buffer = Ret (p, parsed) /\
    let player :=
      perform (load parsed MIDIPlayer.constructor) (OpSeek (JS.Fin 0) (JS.Fin (1 # 2))) in
    elements (activeNotes player) = [60] /\
    (keyStates player ≫= (.!! 48%nat)) = Some false /\
    ~ synchronized player 60.
Proof.
  do 2 eexists. split; [vm_compute; reflexivity|]. cbn zeta.
  set (player := perform _ _).
  assert (Hactive : elements (activeNotes player) = [60]) by (vm_compute; reflexivity).
  assert (Hkey : (keyStates player ≫= (.!! 48%nat)) = Some false) by (vm_compute; reflexivity).
  split; [exact Hactive|]. split; [exact Hkey|].
  unfold synchronized. intros [Hsync _].
  change (Z.to_nat (60 - 12)) with 48%nat in Hsync.
  rewrite Hkey in Hsync.
  assert (Hin : 60 ∈ activeNotes player).
  { apply elem_of_elements. rewrite Hactive. apply list_elem_of_In. left. reflexivity. }
  specialize (Hsync Hin). discriminate.
Qed.

Lemma cleared_synchronized p q :
  keyboardReady p ->
  activeNotes q = ∅ ->
  keyStates q = JS.fillFalse <$> keyStates p ->
  keyboardReady q /\ allSynchronized q.
Proof.
  intros (ks & Hks & Hlen) Hnotes Hkeys. split.
  - exists (JS.fillFalse ks). rewrite Hkeys, Hks. split; [reflexivity|].
    unfold JS.fillFalse. rewrite length_replicate. exact Hlen.
  - intros n Hn. unfold synchronized. rewrite Hnotes, Hkeys, Hks.
    cbn [mbind option_bind fmap option_fmap option_map].
    unfold JS.fillFalse. rewrite lookup_replicate_2 by lia.
    split; [set_solver|discriminate].
Qed.

Lemma arraySet_inside (i : nat) v ks :
  (i < length ks)%nat -> JS.arraySet i v ks = <[i:=v]> ks.
Proof. intros H. unfold JS.arraySet. destruct (decide _); [reflexivity|lia]. Qed.

Lemma processEvent_synchronized event p :
  keyboardReady p -> allSynchronized p ->
  keyboardReady (processEvent event p) /\ allSynchronized (processEvent event p).
Proof.
  intros (ks & Hks & Hlen) Hsync. unfold processEvent.
  destruct (te_body (pe_event event)) as [c m v s|c m v s| | | | | | | |];
    try (split; [exists ks; auto|exact Hsync]).
  - (* noteOff *)
    destruct (decide (m ∈ activeNotes p)) as [Hin|Hout];
      [|split; [exists ks; auto|exact Hsync]].
    unfold inKeyboardRange.
    destruct (Z.leb_spec 12 m), (Z.leb_spec m 125); cbn [andb withNotes keyStates activeNotes];
      try (split; [exists ks; auto|];
           intros n Hn; specialize (Hsync n Hn); unfold synchronized in *; cbn;
           rewrite elem_of_difference, elem_of_singleton; split;
           [intros [H' _]; apply Hsync, H'|intros H'; split; [apply Hsync, H'|lia]]).
    rewrite Hks. cbn [fmap option_fmap option_map].
    rewrite arraySet_inside by lia.
    split; [eexists; split; [reflexivity|rewrite length_insert; exact Hlen]|].
    intros n Hn. specialize (Hsync n Hn). unfold synchronized in *. cbn.
    rewrite Hks in Hsync. cbn in Hsync.
    rewrite elem_of_difference, elem_of_singleton.
    destruct (Z.eq_dec n m) as [->|Hne].
    + rewrite list_lookup_insert_eq by lia. split; [intros [_ H']; congruence|discriminate].
    + rewrite list_lookup_insert_ne by lia.
      split; [intros [H' _]; apply Hsync, H'|intros H'; split; [apply Hsync, H'|exact Hne]].
  - (* noteOn *)
    unfold inKeyboardRange.
    destruct (Z.leb_spec 12 m), (Z.leb_spec m 125); cbn [andb withNotes keyStates activeNotes];
      try (split; [exists ks; auto|];
           intros n Hn; specialize (Hsync n Hn); unfold synchronized in *; cbn;
           rewrite elem_of_union, elem_of_singleton; split;
           [intros [H'|H']; [lia|apply Hsync, H']|intros H'; right; apply Hsync, H']).
    rewrite Hks. cbn [fmap option_fmap option_map].
    rewrite arraySet_inside by lia.
    split; [eexists; split; [reflexivity|rewrite length_insert; exact Hlen]|].
    intros n Hn. specialize (Hsync n Hn). unfold synchronized in *. cbn.
    rewrite Hks in Hsync. cbn in Hsync.
    rewrite elem_of_union, elem_of_singleton.
    destruct (Z.eq_dec n m) as [->|Hne].
    + rewrite list_lookup_insert_eq by lia. split; [reflexivity|left; reflexivity].
    + rewrite list_lookup_insert_ne by lia.
      split; [intros [H'|H']; [contradiction|apply Hsync, H']|intros H'; right; apply Hsync, H'].
Qed.

(** Apart from [seek], every operation of the player keeps the notes
    and the keys synchronized. *)
Lemma perform_synchronized p op :
  isSeek op = false ->
  keyboardReady p -> allSynchronized p ->
  keyboardReady (perform p op) /\ allSynchronized (perform p op).
Proof.
  intros Hop Hready Hsync. destruct op as [event| | | |now t]; cbn [perform].
  - apply processEvent_synchronized; assumption.
  - unfold pause. destruct (isPlaying p && negb (isPaused p)); [|auto].
    apply (cleared_synchronized p); auto.
  - assert (Hfirst : keyboardReady
      {| allEvents := allEvents p; events := events p;
         isPlaying := false; isPaused := false;
         currentTime := currentTime p; startTime := startTime p;
         pauseTime := pauseTime p; eventIndex := eventIndex p; duration := duration p;
         activeNotes := ∅; selectedTrack := selectedTrack p; oscillators := ∅;
         keyStates := JS.fillFalse <$> keyStates p |})
      by (eapply (cleared_synchronized p); auto).
    unfold stop. eapply cleared_synchronized; [exact Hfirst|reflexivity|reflexivity].
  - apply (cleared_synchronized p); auto.
  - discriminate.
Qed.

(** So does every sequence of them. *)
Lemma operations_synchronized ops :
  forall p,
    Forall (fun op => isSeek op = false) ops ->
    keyboardReady p -> allSynchronized p ->
    keyboardReady (fold_left perform ops p) /\ allSynchronized (fold_left perform ops p).
Proof.
  induction ops as [|op ops IH]; intros p Hops Hready Hsync; cbn [fold_left]; [auto|].
  apply Forall_cons in Hops as [Hop Hops].
  destruct (perform_synchronized p op Hop Hready Hsync) as [Hready' Hsync'].
  apply IH; assumption.
Qed.

Lemma constructor_synchronized :
  keyboardReady MIDIPlayer.constructor /\ allSynchronized MIDIPlayer.constructor.
Proof.
  split.
  - eexists. split; reflexivity.
  - intros n Hn. unfold synchronized, MIDIPlayer.constructor.
    cbn [keyStates activeNotes mbind option_bind].
    rewrite lookup_replicate_2 by lia. split; [set_solver|discriminate].
Qed.

(* ===================================================================== *)
(** * Facts about the keyboard *)
(* ===================================================================== *)

Lemma keyNumber_midiNoteOf note octaveOffset k midiNote :
  VirtualKeyboard.keyNumber note octaveOffset k = Some midiNote ->
  VirtualKeyboard.midiNoteOf note (VirtualKeyboard.currentOctave k + octaveOffset)
    = Ret (Some midiNote).
Proof.
  unfold VirtualKeyboard.keyNumber.
  destruct (VirtualKeyboard.midiNoteOf _ _) as [m| |]; try discriminate.
  intros ->. reflexivity.
Qed.

Lemma outOfRange_false midiNote :
  12 <= midiNote <= 125 -> VirtualKeyboard.outOfRange (Some midiNote) = false.
Proof.
  intros H. unfold VirtualKeyboard.outOfRange.
  destruct (Z.eqb_spec midiNote 0), (Z.ltb_spec midiNote 12), (Z.ltb_spec 125 midiNote);
    try lia; reflexivity.
Qed.

(** C10, as the code has it.  With sustain off, for a key of MIDI
    number 12..125 that is not in [physicallyPressed], [pressKey] followed
    by [releaseKey] for the same note and octave offset restores
    [physicallyPressed], leaves the key's entry of [keyStates] false and
    changes no other entry; [keyStates] is restored when the key's entry
    was false before the press. *)
Theorem press_release_restores (note : string) (octaveOffset midiNote : Z)
    (k : VirtualKeyboard.keyboard) :
  VirtualKeyboard.sustainMode k = false ->
  VirtualKeyboard.keyNumber note octaveOffset k = Some midiNote ->
  12 <= midiNote <= 125 ->
  length (VirtualKeyboard.keyStates k) = 114%nat ->
  VirtualKeyboard.noteKeyOf note (VirtualKeyboard.currentOctave k + octaveOffset)
    ∉ VirtualKeyboard.physicallyPressed k ->
  exists k1 k2,
    VirtualKeyboard.pressKey note octaveOffset k = Ret k1 /\
    VirtualKeyboard.releaseKey note octaveOffset k1 = Ret k2 /\
    VirtualKeyboard.physicallyPressed k2 = VirtualKeyboard.physicallyPressed k /\
    VirtualKeyboard.keyStates k2
      = <[Z.to_nat (midiNote - 12) := false]> (VirtualKeyboard.keyStates k) /\
    (forall i : nat,
        i <> Z.to_nat (midiNote - 12) ->
        VirtualKeyboard.keyStates k2 !! i = VirtualKeyboard.keyStates k !! i) /\
    (VirtualKeyboard.keyStates k !! Z.to_nat (midiNote - 12) = Some false ->
     VirtualKeyboard.keyStates k2 = VirtualKeyboard.keyStates k) /\
    VirtualKeyboard.currentOctave k2 = VirtualKeyboard.currentOctave k /\
    VirtualKeyboard.sustainMode k2 = VirtualKeyboard.sustainMode k.
Proof.
  intros Hsustain Hkey Hrange Hlen Hfree.
  apply keyNumber_midiNoteOf in Hkey.
  set (noteKey := VirtualKeyboard.noteKeyOf note (VirtualKeyboard.currentOctave k + octaveOffset)) in *.
  set (i := Z.to_nat (midiNote - 12)).
  assert (Hi : (i < length (VirtualKeyboard.keyStates k))%nat) by (unfold i; lia).
  eexists _, _. split; [|split].
  - unfold VirtualKeyboard.pressKey. rewrite Hkey. cbn [bind].
    rewrite outOfRange_false by lia. fold noteKey.
    destruct (decide (noteKey ∈ VirtualKeyboard.physicallyPressed k)); [contradiction|].
    reflexivity.
  - unfold VirtualKeyboard.releaseKey.
    cbn [VirtualKeyboard.currentOctave VirtualKeyboard.sustainMode
         VirtualKeyboard.physicallyPressed VirtualKeyboard.keyStates].
    rewrite Hkey. cbn [bind]. rewrite outOfRange_false by lia. fold noteKey.
    destruct (decide (noteKey ∈ {[noteKey]} ∪ VirtualKeyboard.physicallyPressed k))
      as [_|Hnot]; [|exfalso; apply Hnot, elem_of_union_l, elem_of_singleton; reflexivity].
    rewrite Hsustain. cbn [negb]. reflexivity.
  - cbn [VirtualKeyboard.currentOctave VirtualKeyboard.sustainMode
         VirtualKeyboard.physicallyPressed VirtualKeyboard.keyStates default].
    fold i. rewrite (arraySet_inside i true) by exact Hi.
    rewrite arraySet_inside by (rewrite length_insert; exact Hi).
    rewrite list_insert_insert_eq.
    split; [|split; [reflexivity|]].
    { apply set_eq. intros key.
      rewrite elem_of_difference, elem_of_union, elem_of_singleton.
      split; [intros [[->|Hin] Hout]; [contradiction|exact Hin]|].
      intros Hin. split; [right; exact Hin|intros ->; contradiction]. }
    split; [|split; [|split; [reflexivity|symmetry; exact Hsustain]]].
    + intros j Hj. apply list_lookup_insert_ne. congruence.
    + intros Hoff. apply list_insert_id. exact Hoff.
Qed.

(** C10 as stated fails for a key that still sounds from an earlier
    sustain: after sustain on, press C, release C, sustain off, the key
    C4 is not pressed and its entry of [keyStates] is true; pressing and
    releasing it again leaves the entry false. *)
Lemma sustained_key_not_restored :
  exists k0 k k1 k2,
    (let! k' := VirtualKeyboard.pressKey "C" 0
                  (VirtualKeyboard.toggleSustain VirtualKeyboard.constructor) in
     VirtualKeyboard.releaseKey "C" 0 k') = Ret k0 /\
    k = VirtualKeyboard.toggleSustain k0 /\
    VirtualKeyboard.sustainMode k = false /\
    VirtualKeyboard.keyNumber "C" 0 k = Some 60 /\
    VirtualKeyboard.physicallyPressed k = ∅ /\
    VirtualKeyboard.pressKey "C" 0 k = Ret k1 /\
    VirtualKeyboard.releaseKey "C" 0 k1 = Ret k2 /\
    VirtualKeyboard.keyStates k !! 48%nat = Some true /\
    VirtualKeyboard.keyStates k2 !! 48%nat = Some false /\
    VirtualKeyboard.keyStates k2 <> VirtualKeyboard.keyStates k.
Proof.
  eexists _, _, _, _.
  split; [vm_compute; reflexivity|]. split; [reflexivity|].
  split; [vm_compute; reflexivity|]. split; [vm_compute; reflexivity|].
  split; [vm_compute; reflexivity|]. split; [vm_compute; reflexivity|].
  split; [vm_compute; reflexivity|]. split; [vm_compute; reflexivity|].
  split; [vm_compute; reflexivity|]. vm_compute. discriminate.
Qed.

(* ===================================================================== *)
(** * Facts about the Lissajous generator *)
(* ===================================================================== *)

Section LissajousFacts.
Local Open Scope R_scope.

Lemma orElse_positive (a : option R) (d : R) :
  (forall v, a = Some v -> 0 <= v) -> 0 < d -> 0 < LissajousGenerator.orElse a d.
Proof.
  intros Ha Hd. unfold LissajousGenerator.orElse.
  destruct a as [v|]; [|exact Hd].
  destruct (Req_dec_T v 0) as [_|Hne]; [exact Hd|].
  specialize (Ha v eq_refl). lra.
Qed.

Lemma Rmin_div (a c m : R) : 0 < m -> Rmin (a / m) (c / m) = Rmin a c / m.
Proof.
  intros Hm. assert (Hinv : 0 < / m) by (apply Rinv_0_lt_compat, Hm).
  unfold Rmin, Rdiv.
  destruct (Rle_dec (a * / m) (c * / m)) as [H1|H1], (Rle_dec a c) as [H2|H2];
    try reflexivity.
  - exfalso. apply H2. eapply Rmult_le_reg_r; eassumption.
  - exfalso. apply H1. apply Rmult_le_compat_r; lra.
Qed.

Lemma Rmin_positive (a c : R) : 0 < a -> 0 < c -> 0 < Rmin a c.
Proof. intros Ha Hc. unfold Rmin. destruct (Rle_dec a c); assumption. Qed.

Lemma orElse_not_zero (a : option R) (d : R) :
  d <> 0 -> LissajousGenerator.orElse a d <> 0.
Proof.
  intros Hd. unfold LissajousGenerator.orElse.
  destruct a as [v|]; [|exact Hd].
  destruct (Req_dec_T v 0) as [_|Hne]; assumption.
Qed.

Lemma Rmin_is_one (a c : R) : a <= 1 -> c <= 1 -> Rmin a c = 1 -> a = 1 /\ c = 1.
Proof.
  intros Ha Hc. unfold Rmin. destruct (Rle_dec a c); intros H; lra.
Qed.

Lemma ratio_le_one (a m : R) : m < 0 -> m <= a -> a / m <= 1.
Proof.
  intros Hm Ha. unfold Rdiv.
  assert (Hinv : / m < 0) by (apply Rinv_lt_0_compat, Hm).
  replace 1 with (m * / m) by (field; lra).
  rewrite (Rmult_comm a), (Rmult_comm m).
  apply Rmult_le_compat_neg_l; lra.
Qed.

Lemma ratio_is_one (a m : R) : m <> 0 -> a / m = 1 -> a = m.
Proof.
  intros Hm H. replace a with (a / m * m) by (field; exact Hm). rewrite H. lra.
Qed.

(** C7.  For every non-empty list of frequencies, [createCurve] returns
    a curve of 2000 points; point [i] is (5 sin(r_x t_i),
    5 sin(r_y t_i + pi/4), 5 sin(r_z t_i + pi/2)) with
    t_i = (i / 2000) pi tRange; the axis frequencies are the first three
    of the list, a missing or zero one replaced by 440 for x, by 1.5
    (for y) or 2 (for z) times the first frequency, and by 660 or 880
    when that is zero too; the smallest of the three is not zero and the
    ratios are the axis frequencies divided by it.  When none of the
    first three frequencies is negative, as for the frequencies of
    sounding notes, the smallest axis frequency is positive and the
    smallest ratio is 1; in general the smallest ratio is 1 exactly when
    the smallest axis frequency is positive or the three axis
    frequencies are equal. *)
Theorem createCurve_points (tRange : R) (frequencies : list R) :
  frequencies <> [] ->
  exists c f0,
    LissajousGenerator.createCurve tRange frequencies = Some c /\
    frequencies !! 0%nat = Some f0 /\
    length (LissajousGenerator.points c) = 2000%nat /\
    (forall i : nat,
        (i < 2000)%nat ->
        let t := (INR i / 2000) * PI * tRange in
        LissajousGenerator.points c !! i =
        Some (5 * sin (LissajousGenerator.x (LissajousGenerator.ratios c) * t),
              5 * sin (LissajousGenerator.y (LissajousGenerator.ratios c) * t + PI / 4),
              5 * sin (LissajousGenerator.z (LissajousGenerator.ratios c) * t + PI / 2))) /\
    (let freq := LissajousGenerator.frequencies c in
     let baseFreq :=
       Rmin (Rmin (LissajousGenerator.x freq) (LissajousGenerator.y freq))
            (LissajousGenerator.z freq) in
     LissajousGenerator.x freq = LissajousGenerator.orElse (Some f0) 440 /\
     LissajousGenerator.y freq =
       LissajousGenerator.orElse (frequencies !! 1%nat)
         (LissajousGenerator.orElse (Some (f0 * 1.5)) 660) /\
     LissajousGenerator.z freq =
       LissajousGenerator.orElse (frequencies !! 2%nat)
         (LissajousGenerator.orElse (Some (f0 * 2)) 880) /\
     baseFreq <> 0 /\
     LissajousGenerator.ratios c =
       {| LissajousGenerator.x := LissajousGenerator.x freq / baseFreq;
          LissajousGenerator.y := LissajousGenerator.y freq / baseFreq;
          LissajousGenerator.z := LissajousGenerator.z freq / baseFreq |} /\
     (Forall (fun f => 0 <= f) (take 3 frequencies) ->
      0 < baseFreq /\ LissajousGenerator.smallestRatio c = 1) /\
     (LissajousGenerator.smallestRatio c = 1 <->
      0 < baseFreq \/
      (LissajousGenerator.x freq = LissajousGenerator.y freq /\
       LissajousGenerator.y freq = LissajousGenerator.z freq))).
Proof.
  intros Hne. destruct frequencies as [|f0 rest]; [contradiction|].
  set (fs := f0 :: rest) in *.
  set (fx := LissajousGenerator.orElse (Some f0) 440).
  set (fy := LissajousGenerator.orElse (fs !! 1%nat)
               (LissajousGenerator.orElse (Some (f0 * 1.5)) 660)).
  set (fz := LissajousGenerator.orElse (fs !! 2%nat)
               (LissajousGenerator.orElse (Some (f0 * 2)) 880)).
  assert (Hx0 : fx <> 0) by (apply orElse_not_zero; lra).
  assert (Hy0 : fy <> 0) by (apply orElse_not_zero, orElse_not_zero; lra).
  assert (Hz0 : fz <> 0) by (apply orElse_not_zero, orElse_not_zero; lra).
  set (m := Rmin (Rmin fx fy) fz).
  assert (Hm0 : m <> 0).
  { unfold m, Rmin. repeat destruct (Rle_dec _ _); assumption. }
  assert (Hmx : m <= fx) by (unfold m, Rmin; repeat destruct (Rle_dec _ _); lra).
  assert (Hmy : m <= fy) by (unfold m, Rmin; repeat destruct (Rle_dec _ _); lra).
  assert (Hmz : m <= fz) by (unfold m, Rmin; repeat destruct (Rle_dec _ _); lra).
  assert (Hone : 0 < m -> Rmin (Rmin (fx / m) (fy / m)) (fz / m) = 1).
  { intros Hm. rewrite !Rmin_div by exact Hm. fold m. field. lra. }
  eexists _, f0. split; [reflexivity|]. split; [reflexivity|].
  unfold LissajousGenerator.smallestRatio.
  cbn [LissajousGenerator.points LissajousGenerator.frequencies LissajousGenerator.ratios
       LissajousGenerator.x LissajousGenerator.y LissajousGenerator.z].
  fold fx fy fz. fold m.
  split; [|split].
  - rewrite length_map, length_seq. reflexivity.
  - intros i Hi.
    change (map ?f ?l) with (f <$> l). rewrite list_lookup_fmap.
    rewrite lookup_seq_lt by exact Hi. cbn [fmap option_fmap option_map Nat.add].
    unfold LissajousGenerator.pointAt, LissajousGenerator.scale, LissajousGenerator.numPoints.
    cbn [LissajousGenerator.x LissajousGenerator.y LissajousGenerator.z].
    replace (INR 2000) with 2000 by (change 2000%nat with (Z.to_nat 2000);
                                       rewrite INR_IZR_INZ, Z2Nat.id by lia; reflexivity).
    reflexivity.
  - split; [reflexivity|]. split; [reflexivity|]. split; [reflexivity|].
    split; [exact Hm0|]. split; [reflexivity|]. split.
    + intros Hpos.
      assert (Hlook : forall (j : nat) v, (j < 3)%nat -> fs !! j = Some v -> 0 <= v).
      { intros j v Hj Hv. rewrite Forall_forall in Hpos. apply Hpos.
        apply (list_elem_of_lookup_2 _ j). rewrite lookup_take_lt by exact Hj. exact Hv. }
      assert (Hf0 : 0 <= f0) by (apply (Hlook 0%nat); [lia|reflexivity]).
      assert (Hx : 0 < fx) by (apply orElse_positive; [intros v [= <-]; exact Hf0|lra]).
      assert (Hy : 0 < fy).
      { apply orElse_positive; [intros v Hv; apply (Hlook 1%nat v); [lia|exact Hv]|].
        apply orElse_positive; [intros v [= <-]; lra|lra]. }
      assert (Hz : 0 < fz).
      { apply orElse_positive; [intros v Hv; apply (Hlook 2%nat v); [lia|exact Hv]|].
        apply orElse_positive; [intros v [= <-]; lra|lra]. }
      assert (Hm : 0 < m) by (apply Rmin_positive; [apply Rmin_positive|]; assumption).
      split; [exact Hm|apply Hone, Hm].
    + split.
      * intros Hsmall. destruct (Rlt_dec 0 m) as [Hm|Hm]; [left; exact Hm|right].
        assert (Hneg : m < 0) by lra.
        pose proof (ratio_le_one fx m Hneg Hmx) as Hrx.
        pose proof (ratio_le_one fy m Hneg Hmy) as Hry.
        pose proof (ratio_le_one fz m Hneg Hmz) as Hrz.
        assert (Hxy : Rmin (fx / m) (fy / m) <= 1).
        { unfold Rmin. destruct (Rle_dec _ _); assumption. }
        destruct (Rmin_is_one _ _ Hxy Hrz Hsmall) as [Hxy1 Hz1].
        destruct (Rmin_is_one _ _ Hrx Hry Hxy1) as [Hx1 Hy1].
        apply ratio_is_one in Hx1, Hy1, Hz1; try exact Hm0.
        split; congruence.
      * intros [Hm|[Hxy Hyz]]; [apply Hone, Hm|].
        assert (Hmx' : m = fx).
        { unfold m. rewrite <- Hyz, <- Hxy. unfold Rmin.
          repeat destruct (Rle_dec _ _); reflexivity. }
        rewrite <- Hyz, <- Hxy, Hmx'.
        replace (fx / fx) with 1 by (field; exact Hx0).
        unfold Rmin. repeat destruct (Rle_dec _ _); reflexivity.
Qed.

End LissajousFacts.

(* ===================================================================== *)
(** * More of the decoder *)
(* ===================================================================== *)

(** ** Meta events and the messages [parseEvent] does not decode *)

Lemma getUint8_nth view o (k : nat) v :
  0 <= o -> bytesFrom view o !! k = Some v -> getUint8 view (o + Z.of_nat k) = Ret v.
Proof. intros Ho H. rewrite getUint8_at, H by exact Ho. reflexivity. Qed.

Lemma readVariableLength_short view o (k : nat) v :
  0 <= o -> bytesFrom view o !! k = Some v -> v < 128 ->
  readVariableLength view (o + Z.of_nat k) = Ret (mkVarLength v 1).
Proof.
  intros Ho Hk Hv. rewrite readVariableLength_spec. unfold variableLengthSpec.
  destruct (Z.ltb_spec (o + Z.of_nat k) 0) as [?|_]; [lia|].
  rewrite bytesFrom_drop by exact Ho. rewrite (drop_S _ _ _ Hk).
  cbn [consumed]. destruct (Z.ltb_spec v 128) as [_|?]; [|lia].
  assert (Hrange : 0 <= v < 256).
  { pose proof (bytesFrom_range view o) as H. rewrite Forall_forall in H.
    apply H. eapply list_elem_of_lookup_2, Hk. }
  cbn [length base128 fold_left]. f_equal. f_equal.
  rewrite Z.mod_small by lia. apply ToInt32_small. lia.
Qed.

(** The bytes FF 51 03 t0 t1 t2 are a tempo event of six bytes whose
    tempo is the big-endian number of t0, t1 and t2, whatever the running
    status. *)
Theorem parseEvent_setTempo (view : DataView) (offset runningStatus time : Z)
    (t0 t1 t2 : Z) (rest : list Z) :
  0 <= offset ->
  bytesFrom view offset = 0xFF :: 0x51 :: 3 :: t0 :: t1 :: t2 :: rest ->
  parseEvent view offset runningStatus time
  = Ret (mkEvent time (Tempo (t0 * 65536 + t1 * 256 + t2)) 6).
Proof.
  intros Ho Hbytes.
  assert (Hb : forall (k : nat) v,
             (0xFF :: 0x51 :: 3 :: t0 :: t1 :: t2 :: rest) !! k = Some v ->
             getUint8 view (offset + Z.of_nat k) = Ret v).
  { intros k v Hk. apply getUint8_nth; [exact Ho|]. rewrite Hbytes. exact Hk. }
  pose proof (bytesFrom_range view offset) as Hrange. rewrite Hbytes in Hrange.
  do 3 (apply Forall_cons in Hrange as [_ Hrange]).
  apply Forall_cons in Hrange as [H0 Hrange].
  apply Forall_cons in Hrange as [H1 Hrange].
  apply Forall_cons in Hrange as [H2 _].
  assert (B0 : getUint8 view offset = Ret 0xFF)
    by (replace offset with (offset + Z.of_nat 0) by lia; apply Hb; reflexivity).
  assert (B1 : getUint8 view (offset + 1) = Ret 0x51) by (apply (Hb 1%nat); reflexivity).
  assert (B3 : getUint8 view (offset + 3) = Ret t0) by (apply (Hb 3%nat); reflexivity).
  assert (B4 : getUint8 view (offset + 4) = Ret t1) by (apply (Hb 4%nat); reflexivity).
  assert (B5 : getUint8 view (offset + 5) = Ret t2) by (apply (Hb 5%nat); reflexivity).
  assert (L : readVariableLength view (offset + 2) = Ret (mkVarLength 3 1)).
  { apply (readVariableLength_short view offset 2); [exact Ho|rewrite Hbytes; reflexivity|lia]. }
  unfold parseEvent. rewrite B0. cbn [bind].
  change (0xFF <? 0x80) with false. cbv iota beta.
  change (JS.sar32 (JS.and32 0xFF 0xF0) 4) with 15.
  cbv iota beta. change (0xFF =? 0xFF) with true. cbv iota.
  rewrite B1. cbn [bind]. change (1 + 1) with 2. rewrite L. cbn [bind vl_bytesRead vl_value].
  change (2 + 1) with 3. unfold metaBody. cbn [vl_value]. change (3 =? 3) with true. cbv iota.
  replace (offset + 3 + 1) with (offset + 4) by lia.
  replace (offset + 3 + 2) with (offset + 5) by lia.
  rewrite B3, B4, B5. cbn [bind]. rewrite tempo_range by assumption.
  do 2 f_equal. f_equal. lia.
Qed.

(** The bytes FF 58 04 nn dd are a time signature event of seven bytes
    with numerator nn and denominator 2^dd; the last two of its four data
    bytes are not read, and need not be in the buffer. *)
Theorem parseEvent_timeSignature (view : DataView) (offset runningStatus time : Z)
    (nn dd : Z) (rest : list Z) :
  0 <= offset ->
  bytesFrom view offset = 0xFF :: 0x58 :: 4 :: nn :: dd :: rest ->
  parseEvent view offset runningStatus time
  = Ret (mkEvent time (TimeSignature nn (2 ^ dd)) 7).
Proof.
  intros Ho Hbytes.
  assert (Hb : forall (k : nat) v,
             (0xFF :: 0x58 :: 4 :: nn :: dd :: rest) !! k = Some v ->
             getUint8 view (offset + Z.of_nat k) = Ret v).
  { intros k v Hk. apply getUint8_nth; [exact Ho|]. rewrite Hbytes. exact Hk. }
  assert (B0 : getUint8 view offset = Ret 0xFF)
    by (replace offset with (offset + Z.of_nat 0) by lia; apply Hb; reflexivity).
  assert (B1 : getUint8 view (offset + 1) = Ret 0x58) by (apply (Hb 1%nat); reflexivity).
  assert (B3 : getUint8 view (offset + 3) = Ret nn) by (apply (Hb 3%nat); reflexivity).
  assert (B4 : getUint8 view (offset + 4) = Ret dd) by (apply (Hb 4%nat); reflexivity).
  assert (L : readVariableLength view (offset + 2) = Ret (mkVarLength 4 1)).
  { apply (readVariableLength_short view offset 2); [exact Ho|rewrite Hbytes; reflexivity|lia]. }
  unfold parseEvent. rewrite B0. cbn [bind].
  change (0xFF <? 0x80) with false. cbv iota beta.
  change (JS.sar32 (JS.and32 0xFF 0xF0) 4) with 15.
  cbv iota beta. change (0xFF =? 0xFF) with true. cbv iota.
  rewrite B1. cbn [bind]. change (1 + 1) with 2. rewrite L. cbn [bind vl_bytesRead vl_value].
  change (2 + 1) with 3. unfold metaBody. cbn [vl_value]. change (4 =? 4) with true. cbv iota.
  replace (offset + 3 + 1) with (offset + 4) by lia.
  rewrite B3, B4. reflexivity.
Qed.

Lemma metaBody_other view offset bytesRead metaType length :
  metaType <> 0x2F -> metaType <> 0x51 -> metaType <> 0x58 ->
  metaBody view offset bytesRead metaType length = Ret (Meta metaType).
Proof.
  intros H1 H2 H3. unfold metaBody.
  destruct metaType as [|q|q]; try reflexivity.
  do 7 (destruct q as [q|q|]; try reflexivity; try congruence).
Qed.

(** A meta event is skipped by the length it declares: after FF and a
    type byte, the event takes 2 bytes, the bytes of the length and as
    many bytes as the length says.  For every type but 2F, 51 and 58 the
    event is a [meta] event with that type, and an event of type 2F is
    [endOfTrack]; in both cases none of the declared bytes is read, so
    the event is returned also when the buffer ends before them. *)
Theorem parseEvent_meta_skipped (view : DataView) (offset runningStatus time : Z)
    (metaType : Z) (length : varLength) :
  getUint8 view offset = Ret 0xFF ->
  getUint8 view (offset + 1) = Ret metaType ->
  metaType <> 0x51 -> metaType <> 0x58 ->
  readVariableLength view (offset + 2) = Ret length ->
  parseEvent view offset runningStatus time
  = Ret (mkEvent time
           (if metaType =? 0x2F then EndOfTrack else Meta metaType)
           (2 + vl_bytesRead length + vl_value length)).
Proof.
  intros B0 B1 H51 H58 L.
  unfold parseEvent. rewrite B0. cbn [bind].
  change (0xFF <? 0x80) with false. cbv iota beta.
  change (JS.sar32 (JS.and32 0xFF 0xF0) 4) with 15.
  cbv iota beta. change (0xFF =? 0xFF) with true. cbv iota.
  rewrite B1. cbn [bind]. change (1 + 1) with 2. rewrite L. cbn [bind].
  destruct (Z.eqb_spec metaType 0x2F) as [->|H2F]; [reflexivity|].
  rewrite metaBody_other by assumption. reflexivity.
Qed.

(** A status byte from A0 to FE that is not a control change (B0 to BF)
    gives an event of two bytes, whatever follows it: [unknown] for
    polyphonic pressure, program change, channel pressure and pitch bend,
    [sysex] for F0 to FE.  No data byte is read, and the running status
    is not used. *)
Theorem parseEvent_not_decoded (view : DataView) (offset runningStatus time : Z)
    (status : Z) :
  getUint8 view offset = Ret status ->
  0xA0 <= status < 0xFF ->
  status / 16 <> 11 ->
  parseEvent view offset runningStatus time
  = Ret (mkEvent time (if status / 16 =? 15 then Sysex else Unknown) 2).
Proof.
  intros B0 Hrange Hcc.
  unfold parseEvent. rewrite B0. cbn [bind].
  destruct (Z.ltb_spec status 0x80) as [?|_]; [lia|].
  rewrite messageType_byte by lia.
  assert (Hq : 10 <= status / 16 < 16).
  { split; [apply Z.div_le_lower_bound; lia|apply Z.div_lt_upper_bound; lia]. }
  destruct (Z.eqb_spec status 0xFF) as [?|_]; [lia|].
  destruct (status / 16) as [|q|q]; try lia.
  do 4 (try destruct q as [q|q|]); try lia; try reflexivity.
Qed.

(** ** Tracks *)

Lemma mergeTracks_elem tracks :
  forall (k : nat) e (i : nat),
    (e, i) ∈ mergeTracks tracks k <->
    exists t, (k <= i)%nat /\ tracks !! (i - k)%nat = Some t /\ e ∈ t_events t.
Proof.
  induction tracks as [|t tracks IH]; intros k e i; cbn [mergeTracks].
  - split; [intros H; inversion H|intros (t & _ & H & _); discriminate].
  - rewrite elem_of_app, IH. change (map ?f ?l) with (f <$> l).
    rewrite list_elem_of_fmap. split.
    + intros [(x & [= -> ->] & Hx)|(t' & Hk & Ht' & He)].
      * exists t. rewrite Nat.sub_diag. auto.
      * exists t'. split; [lia|]. split; [|exact He].
        replace (i - k)%nat with (S (i - S k)) by lia. exact Ht'.
    + intros (t' & Hk & Ht' & He).
      destruct (decide (i = k)) as [->|Hne].
      * left. rewrite Nat.sub_diag in Ht'. injection Ht' as <-. eauto.
      * right. exists t'. split; [lia|]. split; [|exact He].
        replace (i - k)%nat with (S (i - S k)) in Ht' by lia. exact Ht'.
Qed.

Lemma processEvents_pairs p :
  map (fun e => (te_event e, te_track e)) (processEvents p) ≡ₚ mergeTracks (tracks p) 0.
Proof.
  unfold processEvents. rewrite assignSeconds_events. apply sort_perm.
Qed.

(** The [track] that [processEvents] gives an event is the index of the
    track holding it: every event returned belongs to the track of that
    index, and every event of every track is returned with the index of
    its track. *)
Theorem processEvents_track_index (p : parser) :
  (forall e, e ∈ processEvents p ->
     exists t, tracks p !! te_track e = Some t /\ te_event e ∈ t_events t)
  /\ (forall (i : nat) t ev,
        tracks p !! i = Some t -> ev ∈ t_events t ->
        exists e, e ∈ processEvents p /\ te_event e = ev /\ te_track e = i).
Proof.
  pose proof (processEvents_pairs p) as Hperm. split.
  - intros e He.
    assert (Hin : (te_event e, te_track e) ∈ mergeTracks (tracks p) 0).
    { rewrite <- Hperm. change (map ?f ?l) with (f <$> l).
      apply list_elem_of_fmap. eauto. }
    apply mergeTracks_elem in Hin as (t & _ & Ht & Hev).
    rewrite Nat.sub_0_r in Ht. eauto.
  - intros i t ev Ht Hev.
    assert (Hin : (ev, i) ∈ mergeTracks (tracks p) 0).
    { apply mergeTracks_elem. exists t. rewrite Nat.sub_0_r. split; [lia|auto]. }
    rewrite <- Hperm in Hin. change (map ?f ?l) with (f <$> l) in Hin.
    apply list_elem_of_fmap in Hin as (e & [= -> ->] & He). eauto.
Qed.

Lemma inject_Z_nonzero z : z <> 0 -> ~ (inject_Z z == 0)%Q.
Proof. intros Hz H. unfold Qeq in H. cbn in H. lia. Qed.

Lemma assignSeconds_constant ticksPerQuarter currentTempo :
  ticksPerQuarter <> 0 ->
  forall l c lastTickTime,
    Forall (fun x => isTempo (fst x) = false) l ->
    (c == inject_Z lastTickTime * inject_Z currentTempo
          / (inject_Z ticksPerQuarter * 1000000))%Q ->
    Forall (fun e => exists q,
                te_seconds e = JS.Fin q /\
                (q == inject_Z (te_time e) * inject_Z currentTempo
                      / (inject_Z ticksPerQuarter * 1000000))%Q)
      (assignSeconds ticksPerQuarter currentTempo (JS.Fin c) lastTickTime l).
Proof.
  intros Hne. pose proof (inject_Z_nonzero _ Hne) as Hq.
  induction l as [|[x trackIndex] l IH]; intros c lastTickTime Hl Hc;
    cbn [assignSeconds]; [constructor|].
  apply Forall_cons in Hl as [Hx Hl]. cbn [fst] in Hx.
  assert (Htempo : match ev_body x with Tempo t => t | _ => currentTempo end = currentTempo).
  { unfold isTempo in Hx. destruct (ev_body x); try reflexivity. discriminate. }
  rewrite Htempo, step_finite by exact Hne.
  assert (Hstep : (advance c (ev_time x - lastTickTime) ticksPerQuarter currentTempo
                   == inject_Z (ev_time x) * inject_Z currentTempo
                      / (inject_Z ticksPerQuarter * 1000000))%Q).
  { unfold advance. rewrite !Qred_correct, Hc.
    unfold Z.sub. rewrite inject_Z_plus, inject_Z_opp.
    change (inject_Z 1000000) with 1000000%Q. field. exact Hq. }
  apply Forall_cons_2.
  - eexists. split; [reflexivity|exact Hstep].
  - apply IH; assumption.
Qed.

(** Without tempo events the timestamps are proportional to the ticks:
    for a resolution that is not zero, every event gets the finite
    timestamp ticks * tempo / (ticksPerQuarter * 1,000,000) seconds, with
    the tempo of the parser. *)
Theorem processEvents_constant_tempo (p : parser) :
  ticksPerQuarter p <> 0 ->
  noTempoEvents (tracks p) ->
  Forall (fun e => exists q,
              te_seconds e = JS.Fin q /\
              (q == inject_Z (te_time e) * inject_Z (p_tempo p)
                    / (inject_Z (ticksPerQuarter p) * 1000000))%Q)
    (processEvents p).
Proof.
  intros Hne Hnone. unfold processEvents.
  apply assignSeconds_constant; [exact Hne| |].
  - rewrite (sort_perm byTime). rewrite Forall_forall. intros [e i] Hin.
    apply mergeTracks_elem in Hin as (t & _ & Ht & He). cbn [fst].
    unfold noTempoEvents in Hnone. rewrite Forall_forall in Hnone.
    specialize (Hnone t (list_elem_of_lookup_2 _ _ _ Ht)).
    rewrite Forall_forall in Hnone. apply Hnone, He.
  - change (inject_Z 0) with 0%Q. field. apply inject_Z_nonzero, Hne.
Qed.

(** ** The layout of the chunks *)

Lemma parseTracks_layout fuel view (start : Z) :
  forall count offset done result,
    offset = fold_left (fun offset t => offset + (t_length t + 8)) done start ->
    (forall (i : nat) t,
        done !! i = Some t ->
        parseTrackChunk fuel view
          (fold_left (fun offset t => offset + (t_length t + 8)) (take i done) start)
        = Ret t) ->
    parseTracks fuel view count offset done = Ret result ->
    length result = (length done + count)%nat /\
    (forall (i : nat) t,
        result !! i = Some t ->
        parseTrackChunk fuel view
          (fold_left (fun offset t => offset + (t_length t + 8)) (take i result) start)
        = Ret t).
Proof.
  induction count as [|count IH]; intros offset done result Hoff Hdone H;
    cbn [parseTracks] in H.
  - injection H as <-. split; [lia|exact Hdone].
  - bind_inv H. rename a into tr.
    assert (Hoff' : offset + (t_length tr + 8)
                    = fold_left (fun offset t => offset + (t_length t + 8))
                        (done ++ [tr]) start).
    { rewrite fold_left_app. cbn [fold_left]. rewrite <- Hoff. reflexivity. }
    assert (Hdone' : forall (i : nat) t,
               (done ++ [tr]) !! i = Some t ->
               parseTrackChunk fuel view
                 (fold_left (fun offset t => offset + (t_length t + 8))
                    (take i (done ++ [tr])) start)
               = Ret t).
    { intros i t Hi. destruct (decide (i < length done)%nat) as [Hlt|Hge].
      - rewrite lookup_app_l in Hi by exact Hlt.
        rewrite take_app_le by lia. apply Hdone, Hi.
      - assert (i = length done) as ->.
        { apply lookup_lt_Some in Hi. rewrite length_app in Hi. cbn in Hi. lia. }
        rewrite list_lookup_middle in Hi by reflexivity. injection Hi as <-.
        rewrite take_app_length. rewrite <- Hoff. exact Ha. }
    destruct (IH _ _ _ Hoff' Hdone' H) as [Hlen Hall].
    rewrite length_app in Hlen. cbn [length] in Hlen. split; [lia|exact Hall].
Qed.

(** [parse] finds the chunks by the lengths they declare.  When it
    returns, the header chunk was read at offset 0 and gives the format,
    the track count and the resolution of the parser; there are as many
    tracks as the header counts, and track [i] is what [parseTrackChunk]
    returns at the offset behind a header chunk of the declared length
    and the chunks of the tracks before, each of its declared length.
    The tempo of the parser is not changed, and the events returned are
    those of [processEvents]. *)
Theorem parse_chunk_layout (fuel : nat) (p0 p : parser) (buffer : list byte)
    (events : list timedEvent) :
  parse fuel p0 buffer = Ret (p, events) ->
  exists h,
    parseHeaderChunk buffer 0 = Ret h /\
    format p = Some (h_format h) /\
    trackCount p = Some (h_trackCount h) /\
    ticksPerQuarter p = h_ticksPerQuarter h /\
    p_tempo p = p_tempo p0 /\
    length (tracks p) = Z.to_nat (h_trackCount h) /\
    (forall (i : nat) t,
        tracks p !! i = Some t ->
        parseTrackChunk fuel buffer (chunkOffset (h_length h) (tracks p) i) = Ret t) /\
    events = processEvents p.
Proof.
  unfold parse. intros H. bind_inv H. rename a into h, Ha into Hheader.
  bind_inv H. rename a into parsed, Ha into Htracks. injection H as <- <-.
  exists h. cbn [format trackCount ticksPerQuarter p_tempo tracks].
  destruct (parseTracks_layout fuel buffer (0 + (h_length h + 8))
              (Z.to_nat (h_trackCount h)) (0 + (h_length h + 8)) [] parsed
              eq_refl) as [Hlen Hall]; [|exact Htracks|].
  { intros i t Hi. destruct i; discriminate. }
  repeat split; try reflexivity; [exact Hheader|exact Hlen|exact Hall].
Qed.

(** ** The end of the loops *)

Lemma bind_Timeout {A B} (m : outcome A) (k : A -> outcome B) :
  bind m k = Timeout -> m = Timeout \/ exists a, m = Ret a /\ k a = Timeout.
Proof. destruct m; cbn; intros H; try discriminate; eauto. Qed.

Lemma readVariableLength_not_Timeout view o : readVariableLength view o <> Timeout.
Proof.
  rewrite readVariableLength_spec. unfold variableLengthSpec.
  destruct (o <? 0); [discriminate|].
  destruct (consumed (bytesFrom view o)); discriminate.
Qed.

Lemma parseEvent_not_Timeout view o runningStatus time :
  parseEvent view o runningStatus time <> Timeout.
Proof.
  unfold parseEvent. intros H.
  apply bind_Timeout in H as [H|(first & _ & H)]; [eapply getUint8_not_Timeout, H|].
  destruct (first <? 0x80);
    match type of H with
    | match ?m with _ => _ end = _ => destruct m as [|q|q]; try discriminate
    end;
    do 4 (try destruct q as [q|q|]); try discriminate;
    try match type of H with
        | (if ?c then _ else _) = _ => destruct c; try discriminate
        end;
    repeat (apply bind_Timeout in H as [H|(? & ? & H)];
            [first [eapply getUint8_not_Timeout, H
                   |eapply readVariableLength_not_Timeout, H
                   |eapply metaBody_not_Timeout, H]|]);
    discriminate.
Qed.

Lemma getUint8_head view o v :
  getUint8 view o = Ret v ->
  0 <= o < byteLength view /\ bytesFrom view o = v :: bytesFrom view (o + 1).
Proof.
  intros H. destruct (Z.ltb_spec o 0) as [Hneg|Ho].
  - rewrite getUint8_negative in H by exact Hneg. discriminate.
  - rewrite bytesFrom_cons by exact Ho. unfold getUint8 in H.
    destruct (o <? 0); [discriminate|].
    destruct (view !! Z.to_nat o) as [x|] eqn:E; [|discriminate].
    injection H as <-. apply lookup_lt_Some in E. unfold byteLength.
    split; [lia|reflexivity].
Qed.

(** A quantity is read from at least one byte inside the buffer. *)
Lemma readVariableLength_inside view o r :
  readVariableLength view o = Ret r ->
  0 <= o < byteLength view /\ 1 <= vl_bytesRead r.
Proof.
  rewrite readVariableLength_spec. unfold variableLengthSpec.
  destruct (Z.ltb_spec o 0) as [?|Ho]; [discriminate|].
  destruct (consumed (bytesFrom view o)) as [bytes|] eqn:Ebytes; [|discriminate].
  intros [= <-]. cbn [vl_bytesRead].
  assert (Hin : o < byteLength view).
  { destruct (Z.lt_ge_cases o (byteLength view)) as [?|Hge]; [assumption|].
    unfold bytesFrom, byteLength in *. rewrite drop_ge in Ebytes by lia. discriminate. }
  destruct (consumed_shape _ _ Ebytes) as (front & final & tail & -> & _).
  rewrite length_app. cbn [length]. lia.
Qed.

(** The length of a meta event at [o] is not negative when its quantity
    has at most four bytes. *)
Lemma metaLength_fits view o o' metaType r :
  metaLengthsFit view = true ->
  getUint8 view o = Ret 255 ->
  getUint8 view (o + 1) = Ret metaType ->
  o' = o + 1 + 1 ->
  readVariableLength view o' = Ret r ->
  1 <= vl_bytesRead r /\ 0 <= vl_value r.
Proof.
  intros Hfit Hstatus Htype -> Hr.
  apply getUint8_head in Hstatus as (Ho & Hbytes).
  apply getUint8_head in Htype as (_ & Hbytes').
  rewrite Hbytes' in Hbytes.
  revert Hr. rewrite readVariableLength_spec. unfold variableLengthSpec.
  destruct (Z.ltb_spec (o + 1 + 1) 0) as [?|_]; [discriminate|].
  destruct (consumed (bytesFrom view (o + 1 + 1))) as [bytes|] eqn:Ebytes; [|discriminate].
  intros [= <-]. cbn [vl_value vl_bytesRead].
  unfold metaLengthsFit in Hfit. rewrite forallb_forall in Hfit.
  specialize (Hfit (Z.to_nat o)). rewrite Z2Nat.id, Hbytes, Ebytes in Hfit by lia.
  assert (Hlen : (length bytes <= 4)%nat).
  { apply Nat.leb_le, Hfit, in_seq. unfold byteLength in Ho. lia. }
  destruct (consumed_shape _ _ Ebytes) as (front & final & tail & -> & _).
  rewrite base128_fits by exact Hlen.
  pose proof (base128_bound (front ++ [final]) 0 ltac:(lia)) as Hb.
  rewrite length_app in *. cbn [length] in *. unfold base128. split; lia.
Qed.

Lemma parseEvent_advances view o runningStatus time e :
  metaLengthsFit view = true ->
  0 <= runningStatus < 256 ->
  runningStatus = 0 \/ isChannelStatus runningStatus ->
  parseEvent view o runningStatus time = Ret e ->
  1 <= ev_bytesRead e.
Proof.
  intros Hfit Hrs Hkind Hparse.
  destruct (parseEvent_reads_first _ _ _ _ _ Hparse) as [first Hfirst].
  pose proof (getUint8_range _ _ _ Hfirst) as Hf.
  destruct (Z.ltb_spec first 0x80) as [Hlow|Hhigh].
  - destruct (parseEvent_running _ _ _ _ _ _ Hrs Hkind Hfirst Hlow Hparse)
      as [(_ & _ & ->)|(_ & _ & _ & _ & ->)]; lia.
  - unfold parseEvent in Hparse. rewrite Hfirst in Hparse. cbn [bind] in Hparse.
    destruct (Z.ltb_spec first 0x80) as [?|_]; [lia|].
    match type of Hparse with
    | match ?m with _ => _ end = _ => destruct m as [|q|q]
    end;
    try (do 4 (try destruct q as [q|q|]));
    try match type of Hparse with
        | (if ?c then _ else _) = _ =>
            destruct c eqn:Emeta; [apply Z.eqb_eq in Emeta; subst first|]
        end;
    repeat bind_inv Hparse;
    try match goal with
        | Ht : getUint8 _ (_ + 1) = Ret _,
          Hr : readVariableLength _ _ = Ret _ |- _ =>
            apply (metaLength_fits _ _ _ _ _ Hfit Hfirst Ht) in Hr; [|lia]
        end;
    injection Hparse as <-; cbn [ev_bytesRead]; lia.
Qed.

Lemma parseTrackChunk_loop_ends view trackEnd :
  metaLengthsFit view = true ->
  forall fuel trackOffset runningStatus currentTime events,
    0 <= runningStatus < 256 ->
    runningStatus = 0 \/ isChannelStatus runningStatus ->
    Z.max 0 (byteLength view - trackOffset) < Z.of_nat fuel ->
    parseTrackChunk_loop fuel view trackEnd trackOffset runningStatus currentTime events
    <> Timeout.
Proof.
  intros Hfit. induction fuel as [|fuel IH];
    intros trackOffset rs currentTime events Hrange Hkind Hfuel; [lia|].
  cbn [parseTrackChunk_loop]. destruct (trackOffset <? trackEnd); [|discriminate].
  intros H.
  apply bind_Timeout in H as [H|(deltaTime & Hdelta & H)];
    [eapply readVariableLength_not_Timeout, H|].
  apply bind_Timeout in H as [H|(event & Hevent & H)];
    [eapply parseEvent_not_Timeout, H|].
  destruct (parseEvent_reads_first _ _ _ _ _ Hevent) as [first Hfirst].
  pose proof (getUint8_range _ _ _ Hfirst) as Hf.
  destruct (parseEvent_channel _ _ _ _ _ _ Hrange Hfirst Hevent) as (_ & Hchan & _).
  assert (Hnext : nextRunningStatus rs event =
                  if isChannelEvent event then statusUsed first rs else rs).
  { rewrite nextRunningStatus_spec. destruct (isChannelEvent event); [|reflexivity].
    destruct (Hchan eq_refl) as [-> _]. reflexivity. }
  apply readVariableLength_inside in Hdelta.
  apply (parseEvent_advances _ _ _ _ _ Hfit Hrange Hkind) in Hevent.
  revert H. apply IH.
  - rewrite Hnext. unfold statusUsed.
    destruct (isChannelEvent event), (first <? 0x80); lia.
  - rewrite Hnext. destruct (isChannelEvent event); [|exact Hkind].
    right. apply Hchan. reflexivity.
  - lia.
Qed.

Lemma readString_first view o r : readString view o 4 = Ret r -> 0 <= o < byteLength view.
Proof.
  unfold readString. cbn [readString_loop]. intros H. bind_inv H.
  unfold getUint8 in Ha. destruct (Z.ltb_spec (o + 0) 0) as [?|Ho]; [discriminate|].
  destruct (view !! Z.to_nat (o + 0)) eqn:E; [|discriminate].
  apply lookup_lt_Some in E. unfold byteLength. lia.
Qed.

Lemma readString_not_Timeout view o (n : nat) : readString view o n <> Timeout.
Proof.
  unfold readString. generalize 0 at 1. generalize ("" : string).
  induction n as [|n IH]; intros result i; cbn [readString_loop]; [discriminate|].
  intros H. apply bind_Timeout in H as [H|(c & _ & H)];
    [eapply getUint8_not_Timeout, H|eapply IH, H].
Qed.

Lemma getUint16_not_Timeout view o : getUint16 view o <> Timeout.
Proof.
  unfold getUint16. destruct (_ || _); [discriminate|]. intros H.
  repeat (apply bind_Timeout in H as [H|(? & _ & H)];
          [eapply getUint8_not_Timeout, H|]).
  discriminate.
Qed.

Lemma getUint32_not_Timeout view o : getUint32 view o <> Timeout.
Proof.
  unfold getUint32. destruct (_ || _); [discriminate|]. intros H.
  repeat (apply bind_Timeout in H as [H|(? & _ & H)];
          [eapply getUint8_not_Timeout, H|]).
  discriminate.
Qed.

Lemma parseHeaderChunk_not_Timeout view o : parseHeaderChunk view o <> Timeout.
Proof.
  unfold parseHeaderChunk. intros H.
  apply bind_Timeout in H as [H|(? & _ & H)]; [eapply readString_not_Timeout, H|].
  destruct (negb _); [discriminate|].
  apply bind_Timeout in H as [H|(? & _ & H)]; [eapply getUint32_not_Timeout, H|].
  repeat (apply bind_Timeout in H as [H|(? & _ & H)];
          [eapply getUint16_not_Timeout, H|]).
  discriminate.
Qed.

Lemma parseTrackChunk_ends fuel view offset :
  metaLengthsFit view = true ->
  (length view <= fuel)%nat ->
  parseTrackChunk fuel view offset <> Timeout.
Proof.
  intros Hfit Hfuel. unfold parseTrackChunk. intros H.
  apply bind_Timeout in H as [H|(signature & Hsig & H)];
    [eapply readString_not_Timeout, H|].
  apply readString_first in Hsig.
  destruct (negb _); [discriminate|].
  apply bind_Timeout in H as [H|(? & _ & H)]; [eapply getUint32_not_Timeout, H|].
  apply bind_Timeout in H as [H|(? & _ & H)]; [|discriminate].
  revert H. apply parseTrackChunk_loop_ends; [exact Hfit|lia|left; reflexivity|].
  unfold byteLength in *. lia.
Qed.

Lemma parseTracks_ends fuel view :
  metaLengthsFit view = true ->
  (length view <= fuel)%nat ->
  forall count offset tracks, parseTracks fuel view count offset tracks <> Timeout.
Proof.
  intros Hfit Hfuel. induction count as [|count IH]; intros offset tracks;
    cbn [parseTracks]; [discriminate|].
  intros H. apply bind_Timeout in H as [H|(? & _ & H)];
    [eapply parseTrackChunk_ends; eassumption|eapply IH, H].
Qed.

(** [parse] ends on every buffer in which the quantity two bytes behind
    a byte 0xFF, the length of a meta event that starts at that byte,
    never has more than four bytes: with one round of the event loop for
    every byte of the buffer, it returns or throws.  (Only the length of
    a meta event can move the offset back, when its quantity has five
    bytes or more and is read as a negative number; the delta times and
    the other events always move it forward.) *)
Theorem parse_ends (p : parser) (buffer : list byte) (fuel : nat) :
  metaLengthsFit buffer = true ->
  (length buffer <= fuel)%nat ->
  (exists result, parse fuel p buffer = Ret result)
  \/ parse fuel p buffer = Throw RangeError
  \/ (exists message, parse fuel p buffer = Throw (Error message)).
Proof.
  intros Hfit Hfuel.
  assert (Hend : parse fuel p buffer <> Timeout).
  { unfold parse. intros H.
    apply bind_Timeout in H as [H|(? & _ & H)];
      [eapply parseHeaderChunk_not_Timeout, H|].
    apply bind_Timeout in H as [H|(? & _ & H)]; [|discriminate].
    revert H. apply parseTracks_ends; assumption. }
  destruct (parse fuel p buffer) as [result|e|] eqn:E; [eauto| |contradiction].
  right. destruct e as [| |message]; [auto| |eauto].
  exfalso. revert E. unfold parse. intros H.
  apply bind_Throw in H as [H|(h & _ & H)].
  - unfold parseHeaderChunk in H.
    apply bind_Throw in H as [H|(sig & _ & H)].
    + unfold readString in H. cbn [readString_loop] in H.
      repeat (apply bind_Throw in H as [H|(? & _ & H)];
              [apply getUint8_throws in H; discriminate|]).
      discriminate.
    + destruct (negb _); [discriminate|].
      apply bind_Throw in H as [H|(? & _ & H)];
        [apply getUint32_throws in H; discriminate|].
      repeat (apply bind_Throw in H as [H|(? & _ & H)];
              [unfold getUint16 in H; destruct (_ || _); [discriminate|];
               repeat (apply bind_Throw in H as [H|(? & _ & H)];
                       [apply getUint8_throws in H; discriminate|]);
               discriminate|]).
      discriminate.
  - apply bind_Throw in H as [H|(? & _ & H)]; [|discriminate].
    revert H. generalize (0 + (h_length h + 8)). generalize (@nil MIDIParser.track).
    induction (Z.to_nat (h_trackCount h)) as [|count IH]; intros tracks offset H;
      cbn [parseTracks] in H; [discriminate|].
    apply bind_Throw in H as [H|(? & _ & H)]; [|eapply IH, H].
    unfold parseTrackChunk in H.
    apply bind_Throw in H as [H|(sig & _ & H)].
    + unfold readString in H. cbn [readString_loop] in H.
      repeat (apply bind_Throw in H as [H|(? & _ & H)];
              [apply getUint8_throws in H; discriminate|]).
      discriminate.
    + destruct (negb _); [discriminate|].
      apply bind_Throw in H as [H|(? & _ & H)];
        [apply getUint32_throws in H; discriminate|].
      apply bind_Throw in H as [H|(? & _ & H)]; [|discriminate].
      apply parseTrackChunk_loop_throws in H. discriminate.
Qed.

(** ** Tick times along a track *)

Lemma parseEvent_time view o runningStatus time e :
  parseEvent view o runningStatus time = Ret e -> ev_time e = time.
Proof.
  unfold parseEvent. intros H. bind_inv H.
  destruct (a <? 0x80);
    match type of H with
    | match ?m with _ => _ end = _ => destruct m as [|q|q]
    end;
    try (do 4 (try destruct q as [q|q|]));
    try match type of H with
        | (if ?c then _ else _) = _ => destruct c
        end;
    repeat bind_inv H; injection H as <-; reflexivity.
Qed.

(** A quantity of at most four bytes is read as a number that is not
    negative. *)
Lemma readVariableLength_short_value view o r :
  readVariableLength view o = Ret r ->
  vl_bytesRead r <= 4 -> 0 <= vl_value r.
Proof.
  rewrite readVariableLength_spec. unfold variableLengthSpec.
  destruct (o <? 0); [discriminate|].
  destruct (consumed (bytesFrom view o)) as [bytes|]; [|discriminate].
  intros [= <-]. cbn [vl_value vl_bytesRead]. intros Hlen.
  rewrite base128_fits by lia.
  pose proof (base128_bound bytes 0 ltac:(lia)) as Hb.
  unfold base128. lia.
Qed.

Lemma allTimed_snoc view events e :
  allTimed view events -> timedAfter view events e -> allTimed view (events ++ [e]).
Proof.
  intros Hall He before e' after Hsplit.
  destruct after as [|x after _] using rev_ind.
  - apply app_inj_tail in Hsplit as [-> ->]. exact He.
  - rewrite app_comm_cons, app_assoc in Hsplit.
    apply app_inj_tail in Hsplit as [-> _]. eapply Hall. reflexivity.
Qed.

Lemma lastTime_snoc events e : lastTime (events ++ [e]) = ev_time e.
Proof. unfold lastTime. rewrite last_snoc. reflexivity. Qed.

Lemma parseTrackChunk_loop_timed view trackEnd :
  forall fuel trackOffset runningStatus currentTime events result,
    runningStatus = lastChannelStatus events ->
    currentTime = lastTime events ->
    allTimed view events ->
    parseTrackChunk_loop fuel view trackEnd trackOffset runningStatus currentTime events
      = Ret result ->
    allTimed view result.
Proof.
  induction fuel as [|fuel IH];
    intros trackOffset rs currentTime events result Hrs Htime Hall Hloop;
    cbn [parseTrackChunk_loop] in Hloop;
    destruct (trackOffset <? trackEnd); try discriminate;
    try (injection Hloop as <-; exact Hall).
  bind_inv Hloop. rename a into deltaTime. rename Ha into Hdelta.
  bind_inv Hloop. rename a into event. rename Ha into Hevent.
  pose proof (parseEvent_time _ _ _ _ _ Hevent) as Ht.
  eapply IH; [| | |exact Hloop].
  - rewrite lastChannelStatus_snoc, Hrs. reflexivity.
  - rewrite lastTime_snoc. symmetry. exact Ht.
  - apply allTimed_snoc; [exact Hall|].
    exists trackOffset, deltaTime. split; [exact Hdelta|].
    split; [rewrite Ht, <- Hrs; exact Hevent|].
    split; [rewrite Ht, Htime; reflexivity|].
    apply (readVariableLength_short_value _ _ _ Hdelta).
Qed.

(** Every event [e] of a parsed track, with [before] the events of the
    track ahead of it, is decoded right behind a delta time that is read
    at some offset [o], and its tick time is the tick time of the event
    before it (0 for the first event) plus that delta time.  A delta
    time whose quantity has at most four bytes is not negative, so the
    tick time of [e] is then at least that of the event before it; only
    a delta time of five bytes or more can make the tick times
    decrease. *)
Theorem parseTrackChunk_event_times (fuel : nat) (view : DataView) (offset : Z)
    (tr : MIDIParser.track) (before after : list event) (e : event) :
  parseTrackChunk fuel view offset = Ret tr ->
  t_events tr = before ++ e :: after ->
  exists o deltaTime,
    readVariableLength view o = Ret deltaTime /\
    parseEvent view (o + vl_bytesRead deltaTime) (lastChannelStatus before) (ev_time e)
      = Ret e /\
    ev_time e = lastTime before + vl_value deltaTime /\
    (vl_bytesRead deltaTime <= 4 ->
     0 <= vl_value deltaTime /\ lastTime before <= ev_time e).
Proof.
  intros Hparse Hsplit. unfold parseTrackChunk in Hparse.
  bind_inv Hparse. destruct (negb (String.eqb a "MTrk")); [discriminate|].
  bind_inv Hparse. bind_inv Hparse. injection Hparse as <-. cbn in Hsplit.
  assert (Hall : allTimed view a1).
  { eapply (parseTrackChunk_loop_timed view _ fuel _ 0 0 []); try eassumption.
    - reflexivity.
    - reflexivity.
    - intros b0 e0 a0' H. destruct b0; discriminate. }
  destruct (Hall before e after Hsplit) as (o & deltaTime & Hdelta & Hevent & Htime & Hvalue).
  exists o, deltaTime. split; [exact Hdelta|]. split; [exact Hevent|].
  split; [exact Htime|]. intros Hshort. specialize (Hvalue Hshort). lia.
Qed.

(* ===================================================================== *)
(** * More of the player *)
(* ===================================================================== *)

(** ** The end of a run *)

Lemma leb_refl_Fin q : JS.leb (JS.Fin q) (JS.Fin q) = true.
Proof. apply leb_Fin, Qle_refl. Qed.

Lemma max2_upper a b :
  a = JS.NInf \/ JS.isFinite a = true ->
  JS.isFinite b = true ->
  JS.isFinite (JS.max2 a b) = true /\
  JS.leb a (JS.max2 a b) = true /\ JS.leb b (JS.max2 a b) = true.
Proof.
  intros Ha Hb. destruct b as [y| | |]; try discriminate.
  destruct Ha as [->|Ha].
  - cbn. split; [reflexivity|]. split; [reflexivity|apply leb_refl_Fin].
  - destruct a as [x| | |]; try discriminate. unfold JS.max2.
    destruct (JS.ltb (JS.Fin x) (JS.Fin y)) eqn:E.
    + split; [reflexivity|]. split; [|apply leb_refl_Fin].
      apply leb_Fin, Qlt_le_weak, ltb_Fin, E.
    + split; [reflexivity|]. split; [apply leb_refl_Fin|].
      apply leb_Fin, Qnot_lt_le. intros Hlt. apply ltb_Fin in Hlt. congruence.
Qed.

Lemma mathMax_upper l :
  Forall (fun s => JS.isFinite s = true) l ->
  Forall (fun s => JS.leb s (JS.mathMax l) = true) l.
Proof.
  unfold JS.mathMax.
  assert (H : forall a,
             a = JS.NInf \/ JS.isFinite a = true ->
             Forall (fun s => JS.isFinite s = true) l ->
             JS.leb a (fold_left JS.max2 l a) = true /\
             Forall (fun s => JS.leb s (fold_left JS.max2 l a) = true) l).
  { induction l as [|b l IH]; intros a Ha Hl; cbn [fold_left].
    - split; [|constructor]. destruct Ha as [->|Ha]; [reflexivity|].
      destruct a; try discriminate. apply leb_refl_Fin.
    - apply Forall_cons in Hl as [Hb Hl].
      destruct (max2_upper a b Ha Hb) as (Hfin & Hla & Hlb).
      destruct (IH (JS.max2 a b) (or_intror Hfin) Hl) as [Hacc Hall].
      split; [eapply leb_trans; eassumption|].
      apply Forall_cons_2; [eapply leb_trans; eassumption|exact Hall]. }
  intros Hl. apply (H JS.NInf); auto.
Qed.


(** ** Pause and resume *)

(** Pausing a playing player and resuming it at time [now]: the player
    plays again from the same event index, the position it was paused at
    is kept in [pauseTime] and the start time is moved to [now] minus
    that position, and no note sounds (the notes cut off by the pause
    are not started again).  [play] on the paused player does the
    same. *)
Theorem pause_then_resume (now : JS.num) (p : player) :
  isPlaying p = true -> isPaused p = false ->
  let q := resume now (pause p) in
  play now (pause p) = q /\
  isPlaying q = true /\ isPaused q = false /\
  eventIndex q = eventIndex p /\ events q = events p /\
  activeNotes q = ∅ /\ oscillators q = ∅ /\
  pauseTime q = currentTime p /\
  startTime q = JS.sub now (currentTime p).
Proof.
  intros Hplaying Hpaused q. unfold q, play, resume, pause.
  rewrite Hplaying, Hpaused. cbn. repeat split; reflexivity.
Qed.

(** ** [seek] *)

Lemma seekIndex_spec targetTime :
  forall l (i : nat),
    exists k : nat,
      seekIndex targetTime i l = (i + k)%nat /\
      Forall (fun e => JS.ltb (seconds e) targetTime = true) (take k l) /\
      (forall e, l !! k = Some e -> JS.ltb (seconds e) targetTime = false).
Proof.
  induction l as [|e l IH]; intros i; cbn [seekIndex].
  - exists 0%nat. split; [lia|]. split; [constructor|]. intros e H. discriminate.
  - destruct (JS.ltb (seconds e) targetTime) eqn:E.
    + destruct (IH (S i)) as (k & Hk & Hall & Hnext).
      exists (S k). split; [lia|]. split; [|exact Hnext].
      cbn [take]. apply Forall_cons_2; assumption.
    + exists 0%nat. split; [lia|]. split; [constructor|].
      intros e' [= <-]. exact E.
Qed.

Lemma soundsAfter_snoc n l e sounding :
  soundsAfter n (l ++ [e]) sounding =
  match te_body (pe_event e) with
  | NoteOn _ m _ _ => if m =? n then true else soundsAfter n l sounding
  | NoteOff _ m _ _ => if m =? n then false else soundsAfter n l sounding
  | _ => soundsAfter n l sounding
  end.
Proof. unfold soundsAfter. rewrite fold_left_app. reflexivity. Qed.

(** The backwards scan of [seek] finds the notes whose last event is a
    noteOn. *)
Lemma seekScan_spec (n : Z) :
  forall l (notesAtTime active started : gset Z),
    started = active ->
    let r := fold_left seekScanStep (rev l) (notesAtTime, active, started) in
    r.2 = r.1.2 /\
    (n ∈ r.1.2 <-> n ∈ active \/ ((n ∉ notesAtTime) /\ soundsAfter n l false = true)).
Proof.
  induction l as [|e l IH] using rev_ind; intros N A O ->; cbn zeta.
  - cbn. split; [reflexivity|]. split; [auto|]. intros [H|[_ H]]; [exact H|discriminate].
  - rewrite rev_app_distr. cbn [rev app fold_left]. rewrite soundsAfter_snoc.
    remember (seekScanStep (N, A, A) e) as st eqn:Est.
    unfold seekScanStep in Est.
    destruct (te_body (pe_event e)) as [c m v s|c m v s| | | | | | | |];
      try (subst st; apply (IH N A A eq_refl)).
    + (* noteOff *)
      subst st.
      destruct (IH ({[m]} ∪ N) A A eq_refl) as [Heq Hin]. split; [exact Heq|].
      rewrite Hin. rewrite not_elem_of_union, elem_of_singleton.
      destruct (Z.eqb_spec m n) as [->|Hne].
      * split; [intros [H|[[H _] _]]; [auto|congruence]|intros [H|[_ H]]; [auto|discriminate]].
      * split; (intros [H|[H1 H2]]; [auto|right]).
        -- split; [apply H1|exact H2].
        -- split; [split; [congruence|exact H1]|exact H2].
    + (* noteOn *)
      destruct (decide (m ∈ N)) as [Hm|Hm]; subst st.
      * destruct (IH N A A eq_refl) as [Heq Hin]. split; [exact Heq|].
        rewrite Hin. destruct (Z.eqb_spec m n) as [->|Hne]; [|reflexivity].
        split; (intros [H|[H1 H2]]; [auto|contradiction]).
      * destruct (IH ({[m]} ∪ N) ({[m]} ∪ A) ({[m]} ∪ A) eq_refl) as [Heq Hin].
        split; [exact Heq|].
        rewrite Hin. rewrite not_elem_of_union, elem_of_union, !elem_of_singleton.
        destruct (Z.eqb_spec m n) as [->|Hne].
        -- split; [intros _; right; auto|intros _; left; left; reflexivity].
        -- split.
           ++ intros [[H|H]|[[_ H1] H2]]; [congruence|auto|auto].
           ++ intros [H|[H1 H2]]; [auto|right]. split; [split; [congruence|exact H1]|exact H2].
Qed.

Lemma replay_spec (n : Z) :
  forall l p,
    oscillators p = activeNotes p ->
    oscillators (replay l p) = activeNotes (replay l p) /\
    (n ∈ activeNotes (replay l p) <->
     soundsAfter n l (bool_decide (n ∈ activeNotes p)) = true).
Proof.
  unfold replay, soundsAfter.
  induction l as [|e l IH]; intros p Hosc; cbn [fold_left].
  - split; [exact Hosc|]. rewrite bool_decide_eq_true. reflexivity.
  - assert (Hstep :
      oscillators (processEvent e p) = activeNotes (processEvent e p) /\
      bool_decide (n ∈ activeNotes (processEvent e p)) =
      match te_body (pe_event e) with
      | NoteOn _ m _ _ => if m =? n then true else bool_decide (n ∈ activeNotes p)
      | NoteOff _ m _ _ => if m =? n then false else bool_decide (n ∈ activeNotes p)
      | _ => bool_decide (n ∈ activeNotes p)
      end).
    { unfold processEvent.
      destruct (te_body (pe_event e)) as [c m v s|c m v s| | | | | | | |]; auto.
      - destruct (decide (m ∈ activeNotes p)) as [Hm|Hm]; cbn.
        + split; [rewrite Hosc; reflexivity|].
          destruct (Z.eqb_spec m n) as [->|Hne].
          * apply bool_decide_eq_false. rewrite elem_of_difference, elem_of_singleton.
            intros [_ H]. congruence.
          * apply bool_decide_ext. rewrite elem_of_difference, elem_of_singleton.
            split; [intros [H _]; exact H|intros H; split; [exact H|congruence]].
        + split; [exact Hosc|].
          destruct (Z.eqb_spec m n) as [->|Hne]; [|reflexivity].
          apply bool_decide_eq_false. exact Hm.
      - cbn. split; [rewrite Hosc; reflexivity|].
        destruct (Z.eqb_spec m n) as [->|Hne].
        + apply bool_decide_eq_true. apply elem_of_union_l, elem_of_singleton. reflexivity.
        + apply bool_decide_ext. rewrite elem_of_union, elem_of_singleton.
          split; [intros [H|H]; [congruence|exact H]|auto]. }
    destruct Hstep as [Hosc' Hb].
    destruct (IH (processEvent e p) Hosc') as [Heq Hin].
    split; [exact Heq|]. rewrite Hin, Hb. reflexivity.
Qed.

(** [seek] moves to the first event that is not before the target time
    and leaves sounding the notes that playing the events before it
    would: every event ahead of the new [eventIndex] has a timestamp
    below [duration * timePercent] and the event at the index has not,
    and the active notes and the oscillators are those that
    [processEvent], run over the events ahead of the index from silence,
    leaves. *)
Theorem seek_replays_notes (now timePercent : JS.num) (p : player) :
  let targetTime := JS.mul (duration p) timePercent in
  let q := seek now timePercent p in
  let before := take (eventIndex q) (events p) in
  Forall (fun e => JS.ltb (seconds e) targetTime = true) before /\
  (forall e, events p !! eventIndex q = Some e -> JS.ltb (seconds e) targetTime = false) /\
  activeNotes q = activeNotes (replay before (silenced p)) /\
  oscillators q = oscillators (replay before (silenced p)).
Proof.
  intros targetTime q before.
  destruct (seekIndex_spec targetTime (events p) 0) as (k & Hk & Hall & Hnext).
  cbn [Nat.add] in Hk.
  set (scan := fold_left seekScanStep (rev (take k (events p))) (∅, ∅, ∅)).
  assert (Hq : eventIndex q = k /\ activeNotes q = scan.1.2 /\ oscillators q = scan.2).
  { unfold q, seek. fold targetTime. rewrite Hk. fold scan.
    destruct scan as [[N A] O]. cbn [withNotes isPlaying isPaused].
    destruct (isPlaying p && negb (isPaused p)); cbn; auto. }
  destruct Hq as (Hidx & Hactive & Hosc).
  unfold before. rewrite Hidx.
  split; [exact Hall|]. split; [exact Hnext|].
  assert (Hsets : activeNotes q = activeNotes (replay (take k (events p)) (silenced p)) /\
                  oscillators q = activeNotes q).
  { split.
    - apply set_eq. intros n. rewrite Hactive.
      destruct (seekScan_spec n (take k (events p)) ∅ ∅ ∅ eq_refl) as [_ Hin].
      fold scan in Hin. rewrite Hin.
      destruct (replay_spec n (take k (events p)) (silenced p) eq_refl) as [_ Hin'].
      rewrite Hin'. cbn [silenced withNotes activeNotes].
      rewrite bool_decide_eq_false_2 by apply not_elem_of_empty.
      split; [intros [H|[_ H]]; [exfalso; exact (not_elem_of_empty (C:=gset Z) n H)|exact H]|].
      intros H. right. split; [apply not_elem_of_empty|exact H].
    - rewrite Hosc, Hactive.
      apply (seekScan_spec 0 (take k (events p)) ∅ ∅ ∅ eq_refl). }
  destruct Hsets as [H1 H2]. split; [exact H1|].
  rewrite H2, H1. symmetry.
  apply (replay_spec 0 (take k (events p)) (silenced p) eq_refl).
Qed.

(** ** The objects that [applyTrackFilter] keeps *)

Lemma filter_submseteq {A} (f : A -> bool) (l : list A) : List.filter f l ⊆+ l.
Proof.
  induction l as [|x l IH]; cbn; [constructor|].
  destruct (f x); [apply submseteq_skip|apply submseteq_cons]; exact IH.
Qed.

Lemma submseteq_filter {A} (f : A -> bool) (l k : list A) :
  l ⊆+ k -> List.filter f l ⊆+ List.filter f k.
Proof.
  induction 1 as [|x l k _ IH|x y l|x l k _ IH|l k m _ IH1 _ IH2]; cbn.
  - constructor.
  - destruct (f x); [apply submseteq_skip|]; exact IH.
  - destruct (f x), (f y); try reflexivity. apply submseteq_swap.
  - destruct (f x); [apply submseteq_cons|]; exact IH.
  - etransitivity; eassumption.
Qed.

Lemma groupPush_concat timeKey e groups :
  concat (map snd (groupPush timeKey e groups)) ≡ₚ concat (map snd groups) ++ [e].
Proof.
  induction groups as [|[k es] groups IH]; cbn; [reflexivity|].
  destruct (JS.sameValueZero k timeKey); cbn.
  - rewrite <- !app_assoc. apply Permutation_app_head, Permutation_app_comm.
  - rewrite IH, app_assoc. reflexivity.
Qed.

Lemma groupByTime_concat l : concat (map snd (groupByTime l)) ≡ₚ l.
Proof.
  unfold groupByTime.
  assert (H : forall groups,
             concat (map snd
               (fold_left (fun eventGroups e =>
                  groupPush (JS.mathRound (JS.mul (seconds e) (JS.ofZ 1000))) e eventGroups)
                  l groups))
             ≡ₚ concat (map snd groups) ++ l).
  { induction l as [|e l IH]; intros groups; cbn [fold_left].
    - rewrite app_nil_r. reflexivity.
    - rewrite IH, groupPush_concat, <- app_assoc. reflexivity. }
  apply (H []).
Qed.

Lemma dedupStep_submseteq st e : snd (dedupStep st e) ⊆+ snd st ++ [e].
Proof.
  destruct st as [noteStates kept]. cbn [snd].
  assert (Hdrop : kept ⊆+ kept ++ [e]) by apply submseteq_inserts_r, reflexivity.
  unfold dedupStep. destruct e as [i [[time b bytesRead] tr s]]. cbn.
  destruct b as [c n v st|c n v st| | | | | | | |]; try reflexivity;
    destruct (noteStates !! n) as [[]|]; cbn; first [reflexivity|exact Hdrop].
Qed.

Lemma dedupFold_submseteq es :
  forall st, snd (fold_left dedupStep es st) ⊆+ snd st ++ es.
Proof.
  induction es as [|e es IH]; intros st; cbn [fold_left].
  - rewrite app_nil_r. reflexivity.
  - rewrite IH. rewrite (cons_middle e (snd st) es), app_assoc.
    apply submseteq_skips_r, dedupStep_submseteq.
Qed.

Lemma dedupGroups_submseteq groups : dedupGroups groups ⊆+ concat (map snd groups).
Proof.
  unfold dedupGroups.
  assert (H : forall kept,
             fold_left
               (fun deduplicatedEvents '(_, eventsAtTime) =>
                  snd (fold_left dedupStep eventsAtTime (∅, deduplicatedEvents)))
               groups kept
             ⊆+ kept ++ concat (map snd groups)).
  { induction groups as [|[k es] groups IH]; intros kept; cbn [fold_left map concat snd].
    - rewrite app_nil_r. reflexivity.
    - rewrite IH, app_assoc. apply submseteq_skips_r.
      apply (dedupFold_submseteq es (∅, kept)). }
  apply (H []).
Qed.

Lemma extendStep_identity l i : map identity (extendStep l i) = map identity l.
Proof.
  unfold extendStep.
  destruct (l !! i) as [current|]; [|reflexivity].
  destruct (te_body (pe_event current)); try reflexivity.
  destruct (findNoteOff _ _ _) as [j|]; [|reflexivity].
  destruct (l !! j) as [candidate|] eqn:Ej; [|reflexivity].
  destruct (JS.ltb _ _); [|reflexivity].
  change (map ?f ?l) with (f <$> l). rewrite list_fmap_insert.
  apply list_insert_id. rewrite list_lookup_fmap, Ej. reflexivity.
Qed.

Lemma extendShortNotes_identity l : map identity (extendShortNotes l) = map identity l.
Proof.
  unfold extendShortNotes. generalize (seq 0 (length l - 1)). intros steps.
  revert l. induction steps as [|i steps IH]; intros l; cbn [fold_left]; [reflexivity|].
  rewrite IH. apply extendStep_identity.
Qed.

Lemma filteredPlaylist_submseteq trackFilter allEvents :
  map identity (filteredPlaylist trackFilter allEvents)
  ⊆+ map identity (filteredEvents trackFilter allEvents).
Proof.
  unfold filteredPlaylist. change (map ?f ?l) with (f <$> l).
  rewrite (sort_perm bySeconds (extendShortNotes _)).
  change (identity <$> ?l) with (map identity l).
  rewrite extendShortNotes_identity.
  change (map ?f ?l) with (f <$> l).
  rewrite (sort_perm bySeconds (dedupGroups _)).
  apply fmap_submseteq.
  rewrite dedupGroups_submseteq, groupByTime_concat, (sort_perm byTimeThenType).
  reflexivity.
Qed.

Lemma imap_ids (loaded : list timedEvent) (k : nat) :
  map pe_id (imap (fun i => mkPlayerEvent (k + i)) loaded) = seq k (length loaded).
Proof.
  revert k. induction loaded as [|te loaded IH]; intros k; cbn; [reflexivity|].
  rewrite Nat.add_0_r. f_equal.
  rewrite <- (IH (S k)). f_equal. apply imap_ext. intros i x _. cbn. f_equal. lia.
Qed.

Lemma identity_fields e e' :
  identity e = identity e' ->
  pe_id e = pe_id e' /\ type e = type e' /\ track e = track e' /\ note e = note e'.
Proof.
  unfold identity, type, track, note, te_type, te_note, te_body.
  intros [= -> -> ->]. auto.
Qed.

Lemma submseteq_NoDup {A} (l k : list A) : l ⊆+ k -> NoDup k -> NoDup l.
Proof.
  intros Hsub Hnd. apply submseteq_Permutation in Hsub as [k' Hk].
  rewrite Hk in Hnd. apply NoDup_app in Hnd as [H _]. exact H.
Qed.

Lemma NoDup_fmap_eq {A B} (f : A -> B) (l : list A) x y :
  NoDup (f <$> l) -> x ∈ l -> y ∈ l -> f x = f y -> x = y.
Proof.
  induction l as [|a l IH]; cbn; intros Hnd Hx Hy Hf; [inversion Hx|].
  apply NoDup_cons in Hnd as [Ha Hnd].
  apply elem_of_cons in Hx as [->|Hx], Hy as [->|Hy]; auto.
  - exfalso. apply Ha. rewrite Hf. apply list_elem_of_fmap. eauto.
  - exfalso. apply Ha. rewrite <- Hf. apply list_elem_of_fmap. eauto.
Qed.

Lemma elem_of_List_filter {A} (f : A -> bool) (l : list A) x :
  x ∈ List.filter f l <-> f x = true /\ x ∈ l.
Proof.
  rewrite !list_elem_of_In, filter_In. tauto.
Qed.

Lemma isNoteOn_identity l :
  length (List.filter isNoteOn l)
  = length (List.filter
              (fun x : nat * event * nat =>
                 match typeOf (ev_body x.1.2) with Some noteOn => true | _ => false end)
              (map identity l)).
Proof.
  induction l as [|e l IH]; cbn [List.filter map]; [reflexivity|].
  change (isNoteOn e) with
    (match typeOf (ev_body (identity e).1.2) with Some noteOn => true | _ => false end).
  destruct (match typeOf (ev_body (identity e).1.2) with Some noteOn => true | _ => false end);
    cbn [length]; rewrite IH; reflexivity.
Qed.

(** [writeBack] changes timestamps only. *)
Lemma writeBack_identity events allEvents :
  NoDup (map pe_id allEvents) ->
  map identity events ⊆+ map identity allEvents ->
  map identity (writeBack events allEvents) = map identity allEvents.
Proof.
  intros Hnd Hsub. unfold writeBack. rewrite map_map. apply map_ext_in.
  intros e He. apply list_elem_of_In in He.
  destruct (find _ events) as [e'|] eqn:Efind; [|reflexivity].
  apply find_some in Efind as [Hin Hid]. apply Nat.eqb_eq in Hid.
  apply list_elem_of_In in Hin.
  assert (Hin' : identity e' ∈ identity <$> allEvents).
  { eapply elem_of_submseteq; [|exact Hsub]. apply list_elem_of_fmap. eauto. }
  apply list_elem_of_fmap in Hin' as (e0 & He0 & Hin0).
  destruct (identity_fields _ _ He0) as (Hid0 & _).
  assert (e0 = e) as ->.
  { apply (NoDup_fmap_eq pe_id allEvents); auto. congruence. }
  exact He0.
Qed.

(** [load] plays the events it is given and no others.  Every event of
    the list it builds is one of the objects loaded, with its event and
    track unchanged, and no object is in the list twice; the list holds
    noteOn, noteOff, tempo and timeSignature events only and, when a
    track is selected, only events of that track besides tempo and
    timeSignature events.  The [noteCount] that [load] returns is at
    most the [totalNoteCount]. *)
Theorem load_plays_loaded_events (loaded : list timedEvent) (p : player) :
  let q := load loaded p in
  NoDup (map pe_id (events q)) /\
  (forall e, e ∈ events q ->
     (exists te, loaded !! pe_id e = Some te /\
                 te_event (pe_event e) = te_event te /\
                 te_track (pe_event e) = te_track te) /\
     keepOnLoad e = true /\
     (forall trackIndex,
         selectedTrack p = trackNumber trackIndex -> keepForTrack trackIndex e = true)) /\
  (noteCount (getTrackInfo q) <= totalNoteCount (getTrackInfo q))%nat.
Proof.
  intros q.
  set (objects := imap mkPlayerEvent loaded).
  set (kept := List.filter keepOnLoad objects).
  assert (Hevents : events q = filteredPlaylist (selectedTrack p) kept) by reflexivity.
  assert (Hall : allEvents q = writeBack (events q) kept) by reflexivity.
  assert (Hids : map pe_id objects = seq 0 (length loaded)) by apply (imap_ids loaded 0).
  assert (Hfiltered : filteredEvents (selectedTrack p) kept ⊆+ kept).
  { unfold filteredEvents. destruct (selectedTrack p); [reflexivity|apply filter_submseteq]. }
  assert (Hsub1 : map identity (events q)
                  ⊆+ map identity (filteredEvents (selectedTrack p) kept)).
  { rewrite Hevents. apply filteredPlaylist_submseteq. }
  assert (Hsub2 : map identity (events q) ⊆+ map identity kept).
  { rewrite Hsub1. apply fmap_submseteq, Hfiltered. }
  assert (Hsub3 : map identity kept ⊆+ map identity objects)
    by apply fmap_submseteq, filter_submseteq.
  assert (Hpe : forall l, map pe_id l = (fun x : nat * event * nat => x.1.1) <$> map identity l).
  { intros l. rewrite <- list_fmap_compose. reflexivity. }
  assert (Hndk : NoDup (map pe_id kept)).
  { rewrite Hpe. eapply submseteq_NoDup; [apply fmap_submseteq, Hsub3|].
    rewrite <- Hpe, Hids. apply NoDup_seq. }
  split; [|split].
  - rewrite Hpe. eapply submseteq_NoDup; [apply fmap_submseteq, Hsub2|].
    rewrite <- Hpe. exact Hndk.
  - intros e He.
    assert (Hin : identity e ∈ identity <$> filteredEvents (selectedTrack p) kept).
    { eapply elem_of_submseteq; [|exact Hsub1]. apply list_elem_of_fmap. eauto. }
    apply list_elem_of_fmap in Hin as (e' & Hid & Hin).
    destruct (identity_fields _ _ Hid) as (Hpid & Htype & Htrack & _).
    assert (Hkept : e' ∈ kept) by (eapply elem_of_submseteq; eassumption).
    apply elem_of_List_filter in Hkept as [Hkeep Hobj].
    apply list_elem_of_lookup in Hobj as [i Hi]. unfold objects in Hi.
    rewrite list_lookup_imap in Hi.
    destruct (loaded !! i) as [te|] eqn:Ete; [|discriminate]. injection Hi as <-.
    split; [|split].
    + exists te. rewrite Hpid. cbn [pe_id]. split; [exact Ete|].
      injection Hid as _ -> ->. auto.
    + unfold keepOnLoad in *. rewrite Htype. exact Hkeep.
    + intros trackIndex Hsel. rewrite Hsel in Hin. cbn [filteredEvents] in Hin.
      apply elem_of_List_filter in Hin as [Hfor _].
      unfold keepForTrack in *. rewrite Htype, Htrack. exact Hfor.
  - cbn [getTrackInfo noteCount totalNoteCount].
    rewrite Hall, !isNoteOn_identity, writeBack_identity by assumption.
    apply submseteq_length, submseteq_filter, Hsub2.
Qed.

(** ** [getAvailableTracks] and [getTrackInfo] *)

Lemma countOf_countPush t t' m :
  countOf t' (countPush t m) = if Nat.eqb t t' then S (countOf t' m) else countOf t' m.
Proof.
  unfold countOf. induction m as [|[k c] m IH]; cbn [countPush find fst].
  - destruct (Nat.eqb t t'); reflexivity.
  - destruct (Nat.eqb_spec k t) as [->|Hkt]; cbn [find fst].
    + destruct (Nat.eqb t t'); [lia|reflexivity].
    + destruct (Nat.eqb_spec k t') as [->|Hkt'].
      * destruct (Nat.eqb_spec t t'); [congruence|reflexivity].
      * exact IH.
Qed.

Lemma countPush_keys t m :
  map fst (countPush t m) =
  if decide (t ∈ map fst m) then map fst m else map fst m ++ [t].
Proof.
  induction m as [|[k c] m IH]; cbn [countPush map fst].
  - destruct (decide (t ∈ [])) as [H|_]; [inversion H|reflexivity].
  - destruct (Nat.eqb_spec k t) as [->|Hkt]; cbn [map fst].
    + rewrite decide_True by apply list_elem_of_here. reflexivity.
    + rewrite IH. destruct (decide (t ∈ map fst m)) as [Hin|Hout].
      * rewrite decide_True by (apply list_elem_of_further, Hin). reflexivity.
      * rewrite decide_False; [reflexivity|].
        intros H. apply elem_of_cons in H as [->|H]; contradiction.
Qed.

Lemma countPush_sum t m :
  list_sum (map snd (countPush t m)) = S (list_sum (map snd m)).
Proof.
  induction m as [|[k c] m IH]; cbn [countPush map snd list_sum fold_right]; [reflexivity|].
  destruct (Nat.eqb k t); cbn [map snd list_sum fold_right]; [lia|].
  change (fold_right Nat.add 0%nat ?l) with (list_sum l). rewrite IH. lia.
Qed.

Lemma countOf_elem t c m :
  NoDup (map fst m) -> (t, c) ∈ m -> countOf t m = c.
Proof.
  unfold countOf. induction m as [|[k c'] m IH]; cbn [map fst find]; intros Hnd Hin;
    [inversion Hin|].
  apply NoDup_cons in Hnd as [Hk Hnd].
  apply elem_of_cons in Hin as [[= <- <-]|Hin].
  - rewrite Nat.eqb_refl. reflexivity.
  - destruct (Nat.eqb_spec k t) as [->|_]; [|apply IH; assumption].
    exfalso. apply Hk. change t with (fst (t, c)).
    change (map ?f ?l) with (f <$> l). apply list_elem_of_fmap. eauto.
Qed.

Lemma countOf_key t m : t ∈ map fst m -> (t, countOf t m) ∈ m.
Proof.
  unfold countOf. induction m as [|[k c] m IH]; cbn [map fst find]; intros Hin;
    [inversion Hin|].
  destruct (Nat.eqb_spec k t) as [->|Hne]; [apply list_elem_of_here|].
  apply list_elem_of_further, IH.
  apply elem_of_cons in Hin as [->|Hin]; [congruence|exact Hin].
Qed.

Lemma countOf_absent t m : t ∉ map fst m -> countOf t m = 0%nat.
Proof.
  unfold countOf. induction m as [|[k c] m IH]; cbn [map fst find]; intros Hout;
    [reflexivity|].
  apply not_elem_of_cons in Hout as [Hne Hout].
  destruct (Nat.eqb_spec k t) as [->|_]; [congruence|apply IH, Hout].
Qed.

Lemma setValues_spec {A} `{EqDecision A} (l : list A) :
  NoDup (JS.setValues l) /\ forall x, x ∈ JS.setValues l <-> x ∈ l.
Proof.
  unfold JS.setValues.
  assert (H : forall values,
             NoDup values ->
             let r := fold_left
                        (fun values v => if decide (v ∈ values) then values else values ++ [v])
                        l values in
             NoDup r /\ forall x, x ∈ r <-> x ∈ values \/ x ∈ l).
  { induction l as [|v l IH]; intros values Hnd; cbn [fold_left].
    - split; [exact Hnd|]. intros x. split; [auto|intros [H|H]; [exact H|inversion H]].
    - destruct (decide (v ∈ values)) as [Hin|Hout].
      + destruct (IH values Hnd) as [Hnd' Hiff]. split; [exact Hnd'|].
        intros x. rewrite Hiff, elem_of_cons.
        split; [intros [H|H]; auto|intros [H|[->|H]]; auto].
      + destruct (IH (values ++ [v])) as [Hnd' Hiff].
        { apply NoDup_app. split; [exact Hnd|]. split; [|apply NoDup_singleton].
          intros x Hx Hv. apply list_elem_of_singleton in Hv as ->. contradiction. }
        split; [exact Hnd'|].
        intros x. rewrite Hiff, elem_of_app, list_elem_of_singleton, elem_of_cons. tauto. }
  destruct (H [] (NoDup_nil_2)) as [Hnd Hiff]. split; [exact Hnd|].
  intros x. rewrite Hiff. split; [intros [H'|H']; [inversion H'|exact H']|auto].
Qed.

Lemma trackCounts_spec (l : list playerEvent) :
  forall m,
    let r := fold_left (fun trackCounts event => countPush (track event) trackCounts) l m in
    map fst r =
      fold_left (fun values v => if decide (v ∈ values) then values else values ++ [v])
        (map track l) (map fst m) /\
    list_sum (map snd r) = (list_sum (map snd m) + length l)%nat /\
    forall t, countOf t r
              = (countOf t m + length (List.filter (fun e => Nat.eqb (track e) t) l))%nat.
Proof.
  induction l as [|e l IH]; intros m; cbn [fold_left map List.filter length].
  - split; [reflexivity|]. split; [lia|]. intros t. lia.
  - destruct (IH (countPush (track e) m)) as (Hkeys & Hsum & Hcount).
    split; [|split].
    + rewrite Hkeys, countPush_keys. reflexivity.
    + rewrite Hsum, countPush_sum. lia.
    + intros t. rewrite Hcount, countOf_countPush.
      destruct (Nat.eqb (track e) t); cbn [length]; lia.
Qed.

Lemma byTrack_after a b :
  JS.goesAfter byTrack a b = (Z.of_nat (fst b) <? Z.of_nat (fst a)).
Proof. unfold JS.goesAfter, byTrack. apply ltb_zero_sub_ofZ. Qed.

Lemma sorted_strictly (l : list (nat * nat)) :
  NoDup (map fst l) ->
  StronglySorted (fun a b => (fst a <= fst b)%nat) l ->
  StronglySorted (fun a b => (fst a < fst b)%nat) l.
Proof.
  induction l as [|a l IH]; cbn [map]; intros Hnd Hs; [constructor|].
  apply NoDup_cons in Hnd as [Ha Hnd]. apply StronglySorted_inv in Hs as [Hs Hall].
  constructor; [apply IH; assumption|].
  rewrite Forall_forall in Hall |- *. intros b Hb.
  specialize (Hall b Hb).
  assert (fst a <> fst b); [|lia].
  intros Heq. apply Ha. rewrite Heq.
  change (map ?f ?l) with (f <$> l). apply list_elem_of_fmap. eauto.
Qed.

Lemma filter_filter {A} (f g : A -> bool) (l : list A) :
  List.filter g (List.filter f l) = List.filter (fun x => f x && g x) l.
Proof.
  induction l as [|x l IH]; cbn [List.filter]; [reflexivity|].
  destruct (f x); cbn [List.filter andb]; [destruct (g x)|]; rewrite IH; reflexivity.
Qed.

(** [getAvailableTracks] lists the tracks that have a noteOn event, each
    once and in ascending order, with the number of noteOn events of the
    track.  The tracks are those of [getTrackInfo().availableTracks], and
    the counts add up to its [totalNoteCount]. *)
Theorem getAvailableTracks_counts (p : player) :
  let result := getAvailableTracks p in
  StronglySorted (fun a b => (fst a < fst b)%nat) result /\
  map fst result ≡ₚ availableTracks (getTrackInfo p) /\
  (forall t c, (t, c) ∈ result <-> c = notesOfTrack t (allEvents p) /\ (0 < c)%nat) /\
  list_sum (map snd result) = totalNoteCount (getTrackInfo p).
Proof.
  intros result.
  set (noteEvents := List.filter isNoteOn (allEvents p)).
  set (m := fold_left (fun trackCounts event => countPush (track event) trackCounts)
              noteEvents []).
  assert (Hresult : result ≡ₚ m) by apply sort_perm.
  destruct (trackCounts_spec noteEvents []) as (Hkeys & Hsum & Hcount).
  fold m in Hkeys, Hsum, Hcount. cbn [map list_sum fold_right Nat.add] in Hkeys, Hsum.
  change (fold_left _ (map track noteEvents) [])
    with (JS.setValues (map track noteEvents)) in Hkeys.
  destruct (setValues_spec (map track noteEvents)) as [Hnd Hmem]. rewrite <- Hkeys in Hnd, Hmem.
  assert (Hcount' : forall t, countOf t m = notesOfTrack t (allEvents p)).
  { intros t. rewrite Hcount. unfold countOf, notesOfTrack, noteEvents. cbn [find].
    rewrite filter_filter. reflexivity. }
  assert (Hkey : forall t, t ∈ map fst m <-> (0 < notesOfTrack t (allEvents p))%nat).
  { intros t. rewrite Hmem, <- Hcount', Hcount. unfold countOf at 1. cbn [find Nat.add].
    change (map ?f ?l) with (f <$> l). rewrite list_elem_of_fmap. split.
    - intros (e & -> & He).
      assert (Hin : e ∈ List.filter (fun e' => Nat.eqb (track e') (track e)) noteEvents).
      { apply elem_of_List_filter. split; [apply Nat.eqb_refl|exact He]. }
      destruct (List.filter _ noteEvents); [inversion Hin|cbn; lia].
    - intros Hpos.
      destruct (List.filter (fun e => Nat.eqb (track e) t) noteEvents) as [|e l] eqn:E;
        [cbn in Hpos; lia|].
      assert (Hin : e ∈ List.filter (fun e => Nat.eqb (track e) t) noteEvents)
        by (rewrite E; apply list_elem_of_here).
      apply elem_of_List_filter in Hin as [Ht He]. apply Nat.eqb_eq in Ht. eauto. }
  split; [|split; [|split]].
  - apply sorted_strictly.
    + change (map ?f ?l) with (f <$> l). rewrite Hresult. exact Hnd.
    + apply (sort_sorted byTrack (fun _ => True) (fun a b => (fst a <= fst b)%nat)).
      * intros; lia.
      * intros a b _ _ H. rewrite byTrack_after in H. apply Z.ltb_lt in H. lia.
      * intros a b _ _ H. rewrite byTrack_after in H. apply Z.ltb_ge in H. lia.
      * apply Forall_forall. auto.
  - change (map ?f ?l) with (f <$> l). rewrite Hresult.
    change (fst <$> m) with (map fst m). rewrite Hkeys. reflexivity.
  - intros t c. rewrite Hresult. split.
    + intros Hin. pose proof (countOf_elem t c m Hnd Hin) as Hc.
      rewrite Hcount' in Hc. split; [congruence|]. rewrite <- Hc.
      apply Hkey. change (map ?f ?l) with (f <$> l).
      apply list_elem_of_fmap. exists (t, c). auto.
    + intros [-> Hpos]. rewrite <- Hcount'. apply countOf_key, Hkey, Hpos.
  - rewrite Hresult, Hsum. reflexivity.
Qed.

Lemma min2_lower a b :
  a = JS.PInf \/ JS.isFinite a = true ->
  JS.isFinite b = true ->
  JS.isFinite (JS.min2 a b) = true /\
  JS.leb (JS.min2 a b) a = true /\ JS.leb (JS.min2 a b) b = true /\
  (JS.min2 a b = a \/ JS.min2 a b = b).
Proof.
  intros Ha Hb. destruct b as [y| | |]; try discriminate.
  destruct Ha as [->|Ha].
  - cbn. split; [reflexivity|]. split; [reflexivity|]. split; [apply leb_refl_Fin|auto].
  - destruct a as [x| | |]; try discriminate. unfold JS.min2.
    destruct (JS.ltb (JS.Fin y) (JS.Fin x)) eqn:E.
    + split; [reflexivity|]. split; [|split; [apply leb_refl_Fin|auto]].
      apply leb_Fin, Qlt_le_weak, ltb_Fin, E.
    + split; [reflexivity|]. split; [apply leb_refl_Fin|]. split; [|auto].
      apply leb_Fin, Qnot_lt_le. intros Hlt. apply ltb_Fin in Hlt. congruence.
Qed.

Lemma mathMin_spec l :
  Forall (fun s => JS.isFinite s = true) l -> l <> [] ->
  JS.mathMin l ∈ l /\ Forall (fun s => JS.leb (JS.mathMin l) s = true) l.
Proof.
  unfold JS.mathMin.
  assert (H : forall a,
             a = JS.PInf \/ JS.isFinite a = true ->
             Forall (fun s => JS.isFinite s = true) l ->
             let r := fold_left JS.min2 l a in
             (r = a \/ r ∈ l) /\ (l <> [] -> JS.isFinite r = true) /\
             JS.leb r a = true /\ Forall (fun s => JS.leb r s = true) l).
  { induction l as [|b l IH]; intros a Ha Hl; cbn [fold_left].
    - split; [auto|]. split; [congruence|]. split; [|constructor].
      destruct Ha as [->|Ha]; [reflexivity|]. destruct a; try discriminate. apply leb_refl_Fin.
    - apply Forall_cons in Hl as [Hb Hl].
      destruct (min2_lower a b Ha Hb) as (Hfin & Hla & Hlb & Hwhich).
      destruct (IH (JS.min2 a b) (or_intror Hfin) Hl) as (Hin & Hf & Hacc & Hall).
      split; [|split; [|split]].
      + destruct Hin as [Hr|Hr].
        * rewrite Hr. destruct Hwhich as [->| ->]; [auto|right; apply list_elem_of_here].
        * right. apply list_elem_of_further, Hr.
      + intros _. destruct l as [|c l]; [exact Hfin|]. apply Hf. discriminate.
      + eapply leb_trans; eassumption.
      + apply Forall_cons_2; [eapply leb_trans; eassumption|exact Hall]. }
  intros Hl Hne. destruct (H JS.PInf (or_introl eq_refl) Hl) as (Hin & Hf & _ & Hall).
  split; [|exact Hall]. destruct Hin as [Hr|Hr]; [|exact Hr].
  specialize (Hf Hne). cbn zeta in Hr. rewrite Hr in Hf. discriminate.
Qed.

Lemma mathMax_elem l :
  Forall (fun s => JS.isFinite s = true) l -> l <> [] -> JS.mathMax l ∈ l.
Proof.
  unfold JS.mathMax.
  assert (H : forall a,
             a = JS.NInf \/ JS.isFinite a = true ->
             Forall (fun s => JS.isFinite s = true) l ->
             let r := fold_left JS.max2 l a in
             (r = a \/ r ∈ l) /\ (l <> [] -> JS.isFinite r = true)).
  { induction l as [|b l IH]; intros a Ha Hl; cbn [fold_left].
    - split; [auto|congruence].
    - apply Forall_cons in Hl as [Hb Hl].
      destruct (max2_upper a b Ha Hb) as (Hfin & _ & _).
      assert (Hwhich : JS.max2 a b = a \/ JS.max2 a b = b).
      { destruct b as [y| | |]; try discriminate.
        destruct Ha as [->|Ha]; [right; reflexivity|].
        destruct a as [x| | |]; try discriminate. unfold JS.max2.
        destruct (JS.ltb _ _); auto. }
      destruct (IH (JS.max2 a b) (or_intror Hfin) Hl) as (Hin & Hf).
      split.
      + destruct Hin as [Hr|Hr].
        * rewrite Hr. destruct Hwhich as [->| ->]; [auto|right; apply list_elem_of_here].
        * right. apply list_elem_of_further, Hr.
      + intros _. destruct l as [|c l]; [exact Hfin|]. apply Hf. discriminate. }
  intros Hl Hne. destruct (H JS.NInf (or_introl eq_refl) Hl) as (Hin & Hf).
  destruct Hin as [Hr|Hr]; [|exact Hr].
  specialize (Hf Hne). cbn zeta in Hr. rewrite Hr in Hf. discriminate.
Qed.

Lemma leb_ofZ a b : JS.leb (JS.ofZ a) (JS.ofZ b) = true <-> a <= b.
Proof. unfold JS.ofZ. rewrite leb_Fin, <- Zle_Qle. reflexivity. Qed.

Lemma isNoteOn_note e : isNoteOn e = true -> exists n, note e = Some n /\ noteNumber e = JS.ofZ n.
Proof.
  unfold isNoteOn, noteNumber, note, type, te_note, te_type.
  destruct (te_body (pe_event e)); cbn; try discriminate. eauto.
Qed.

(** The [noteRange] of [getTrackInfo] is the range of the notes played:
    without a noteOn event in the list it is 0 to 127, and otherwise
    [min] and [max] are the lowest and the highest note of the noteOn
    events of the list. *)
Theorem getTrackInfo_noteRange (p : player) :
  let info := getTrackInfo p in
  (noteCount info = 0%nat -> noteRange info = (JS.Fin 0, JS.Fin 127)) /\
  ((0 < noteCount info)%nat ->
   exists lo hi,
     noteRange info = (JS.ofZ lo, JS.ofZ hi) /\
     (exists e, e ∈ events p /\ isNoteOn e = true /\ note e = Some lo) /\
     (exists e, e ∈ events p /\ isNoteOn e = true /\ note e = Some hi) /\
     forall e n, e ∈ events p -> isNoteOn e = true -> note e = Some n -> lo <= n <= hi).
Proof.
  cbn zeta. unfold getTrackInfo. cbn [noteCount noteRange].
  set (noteEvents := List.filter isNoteOn (events p)).
  split.
  - intros ->. reflexivity.
  - intros Hpos. destruct (Nat.ltb_spec 0 (length noteEvents)) as [_|?]; [|lia].
    set (l := map noteNumber noteEvents).
    assert (Hfin : Forall (fun s => JS.isFinite s = true) l).
    { apply Forall_forall. intros x Hx. unfold l in Hx.
      change (map ?f ?l) with (f <$> l) in Hx.
      apply list_elem_of_fmap in Hx as (e & -> & He).
      apply elem_of_List_filter in He as [Hon _].
      destruct (isNoteOn_note e Hon) as (n & _ & ->). reflexivity. }
    assert (Hne : l <> []).
    { unfold l. destruct noteEvents; [cbn in Hpos; lia|discriminate]. }
    assert (Hsource : forall x, x ∈ l ->
               exists e n, e ∈ events p /\ isNoteOn e = true /\ note e = Some n /\ x = JS.ofZ n).
    { intros x Hx. unfold l in Hx. change (map ?f ?l) with (f <$> l) in Hx.
      apply list_elem_of_fmap in Hx as (e & -> & He).
      apply elem_of_List_filter in He as [Hon He].
      destruct (isNoteOn_note e Hon) as (n & Hn & Hnum). eauto 8. }
    destruct (mathMin_spec l Hfin Hne) as [Hmin Hlow].
    pose proof (mathMax_elem l Hfin Hne) as Hmax.
    pose proof (mathMax_upper l Hfin) as Hhigh.
    destruct (Hsource _ Hmin) as (elo & lo & Helo & Hon_lo & Hnote_lo & Hlo).
    destruct (Hsource _ Hmax) as (ehi & hi & Hehi & Hon_hi & Hnote_hi & Hhi).
    exists lo, hi. rewrite Hlo, Hhi.
    split; [reflexivity|]. split; [eauto|]. split; [eauto|].
    intros e n He Hon Hn.
    assert (Hin : JS.ofZ n ∈ l).
    { destruct (isNoteOn_note e Hon) as (n' & Hn' & Hnum).
      assert (n' = n) as -> by congruence. rewrite <- Hnum. unfold l.
      change (map ?f ?l) with (f <$> l). apply list_elem_of_fmap. exists e.
      split; [reflexivity|]. apply elem_of_List_filter. auto. }
    rewrite Forall_forall in Hlow, Hhigh.
    specialize (Hlow _ Hin). specialize (Hhigh _ Hin).
    rewrite Hlo in Hlow. rewrite Hhi in Hhigh.
    apply leb_ofZ in Hlow, Hhigh. lia.
Qed.

(* ===================================================================== *)
(** * More of the keyboard *)
(* ===================================================================== *)

(** ** [getActiveNotes] *)

Lemma activeFrom_spec keyStates :
  forall i n,
    n ∈ VirtualKeyboard.activeFrom i keyStates <->
    exists j : nat, keyStates !! j = Some true /\ n = i + Z.of_nat j + 12.
Proof.
  induction keyStates as [|state rest IH]; intros i n; cbn [VirtualKeyboard.activeFrom].
  - rewrite elem_of_nil. split; [contradiction|intros (j & H & _); discriminate].
  - assert (Hrest : (exists j : nat, rest !! j = Some true /\ n = i + 1 + Z.of_nat j + 12)
                    <-> exists j : nat, (state :: rest) !! S j = Some true
                                        /\ n = i + Z.of_nat (S j) + 12).
    { split; intros (j & Hj & ->); exists j; (split; [exact Hj|lia]). }
    destruct state.
    + rewrite elem_of_cons, IH, Hrest. split.
      * intros [->|(j & Hj & ->)]; [exists 0%nat; split; [reflexivity|lia]|eauto].
      * intros ([|j] & Hj & ->); [left; lia|right; eauto].
    + rewrite IH, Hrest. split.
      * intros (j & Hj & ->). eauto.
      * intros ([|j] & Hj & ->); [discriminate|eauto].
Qed.

Lemma activeFrom_sorted keyStates :
  forall i,
    StronglySorted Z.lt (VirtualKeyboard.activeFrom i keyStates) /\
    Forall (fun n => i + 12 <= n) (VirtualKeyboard.activeFrom i keyStates).
Proof.
  induction keyStates as [|state rest IH]; intros i; cbn [VirtualKeyboard.activeFrom].
  - split; constructor.
  - destruct (IH (i + 1)) as [Hs Hall].
    assert (Hall' : Forall (fun n => i + 12 < n) (VirtualKeyboard.activeFrom (i + 1) rest)).
    { eapply Forall_impl; [exact Hall|]. intros n Hn. cbn in Hn. lia. }
    destruct state.
    + split; [constructor; assumption|].
      apply Forall_cons_2; [lia|]. eapply Forall_impl; [exact Hall'|]. intros n Hn. cbn in Hn. lia.
    + split; [exact Hs|]. eapply Forall_impl; [exact Hall'|]. intros n Hn. cbn in Hn. lia.
Qed.

(** [getActiveNotes] lists the MIDI numbers of the keys whose state is
    true, each once and in ascending order: key [i] of [keyStates] is
    note [i + 12]. *)
Theorem getActiveNotes_lists_sounding_keys (k : VirtualKeyboard.keyboard) :
  StronglySorted Z.lt (VirtualKeyboard.getActiveNotes k) /\
  forall n, n ∈ VirtualKeyboard.getActiveNotes k <->
            12 <= n /\ VirtualKeyboard.keyStates k !! Z.to_nat (n - 12) = Some true.
Proof.
  unfold VirtualKeyboard.getActiveNotes. split; [apply activeFrom_sorted|].
  intros n. rewrite activeFrom_spec. split.
  - intros (j & Hj & ->). split; [lia|].
    replace (Z.to_nat (0 + Z.of_nat j + 12 - 12)) with j by lia. exact Hj.
  - intros [Hn Hstate]. exists (Z.to_nat (n - 12)). split; [exact Hstate|lia].
Qed.

(** ** Sustain *)

(** With sustain on, pressing and releasing a key that is not held
    leaves it sounding: [physicallyPressed] is as before, the key's entry
    of [keyStates] is true and no other entry has changed. *)
Theorem sustained_key_keeps_sounding (note : string) (octaveOffset midiNote : Z)
    (k : VirtualKeyboard.keyboard) :
  VirtualKeyboard.sustainMode k = true ->
  VirtualKeyboard.keyNumber note octaveOffset k = Some midiNote ->
  12 <= midiNote <= 125 ->
  length (VirtualKeyboard.keyStates k) = 114%nat ->
  VirtualKeyboard.noteKeyOf note (VirtualKeyboard.currentOctave k + octaveOffset)
    ∉ VirtualKeyboard.physicallyPressed k ->
  exists k1 k2,
    VirtualKeyboard.pressKey note octaveOffset k = Ret k1 /\
    VirtualKeyboard.releaseKey note octaveOffset k1 = Ret k2 /\
    VirtualKeyboard.physicallyPressed k2 = VirtualKeyboard.physicallyPressed k /\
    VirtualKeyboard.keyStates k2
      = <[Z.to_nat (midiNote - 12) := true]> (VirtualKeyboard.keyStates k) /\
    VirtualKeyboard.keyStates k2 !! Z.to_nat (midiNote - 12) = Some true /\
    VirtualKeyboard.sustainMode k2 = true.
Proof.
  intros Hsustain Hkey Hrange Hlen Hfree.
  apply keyNumber_midiNoteOf in Hkey.
  set (noteKey := VirtualKeyboard.noteKeyOf note (VirtualKeyboard.currentOctave k + octaveOffset)) in *.
  set (i := Z.to_nat (midiNote - 12)).
  assert (Hi : (i < length (VirtualKeyboard.keyStates k))%nat) by (unfold i; lia).
  eexists _, _. split; [|split].
  - unfold VirtualKeyboard.pressKey. rewrite Hkey. cbn [bind].
    rewrite outOfRange_false by lia. fold noteKey.
    destruct (decide (noteKey ∈ VirtualKeyboard.physicallyPressed k)); [contradiction|].
    reflexivity.
  - unfold VirtualKeyboard.releaseKey.
    cbn [VirtualKeyboard.currentOctave VirtualKeyboard.sustainMode
         VirtualKeyboard.physicallyPressed VirtualKeyboard.keyStates].
    rewrite Hkey. cbn [bind]. rewrite outOfRange_false by lia. fold noteKey.
    destruct (decide (noteKey ∈ {[noteKey]} ∪ VirtualKeyboard.physicallyPressed k))
      as [_|Hnot]; [|exfalso; apply Hnot, elem_of_union_l, elem_of_singleton; reflexivity].
    rewrite Hsustain. cbn [negb]. reflexivity.
  - cbn [VirtualKeyboard.currentOctave VirtualKeyboard.sustainMode
         VirtualKeyboard.physicallyPressed VirtualKeyboard.keyStates default].
    fold i. rewrite (arraySet_inside i true) by exact Hi.
    split; [|split; [reflexivity|split; [|reflexivity]]].
    + apply set_eq. intros key.
      rewrite elem_of_difference, elem_of_union, elem_of_singleton.
      split; [intros [[->|Hin] Hout]; [contradiction|exact Hin]|].
      intros Hin. split; [right; exact Hin|intros ->; contradiction].
    + apply list_lookup_insert_eq. exact Hi.
Qed.

(** ** The reach of the computer keyboard *)

(** With the octave between 0 and 7, every key of the layout has a MIDI
    number: it lies in the octave the key names, and between 12 and 113,
    so the range check of [pressKey] never turns a key of the layout
    down and the notes from 114 to 125 cannot be played from the
    keys. *)
Theorem keyLayout_reach (k : VirtualKeyboard.keyboard) (key : VirtualKeyboard.layoutKey) :
  0 <= VirtualKeyboard.currentOctave k <= 7 ->
  key ∈ VirtualKeyboard.keyLayout ->
  let octave := VirtualKeyboard.currentOctave k + VirtualKeyboard.octaveOffsetOf key in
  exists m,
    VirtualKeyboard.keyNumber (VirtualKeyboard.lk_note key)
      (VirtualKeyboard.octaveOffsetOf key) k = Some m /\
    12 * (octave + 1) <= m < 12 * (octave + 2) /\
    12 <= m <= 113.
Proof.
  intros Hoctave Hkey. unfold VirtualKeyboard.keyNumber.
  destruct k as [o sustain states pressed]. cbn [VirtualKeyboard.currentOctave] in *.
  assert (Ho : o = 0 \/ o = 1 \/ o = 2 \/ o = 3 \/ o = 4 \/ o = 5 \/ o = 6 \/ o = 7) by lia.
  unfold VirtualKeyboard.keyLayout in Hkey.
  repeat (apply elem_of_cons in Hkey as [->|Hkey]);
    try (apply elem_of_nil in Hkey; contradiction);
    destruct Ho as [->|[->|[->|[->|[->|[->|[->| ->]]]]]]];
    (eexists; split; [vm_compute; reflexivity|vm_compute; intuition congruence]).
Qed.

(** ** Keys held without sustain *)

(** The table of [noteToMidi]: the note of octave [o] that is [i]
    semitones above C has the number 12 (o + 1) + i. *)
Lemma midiNoteOf_table note octave m :
  VirtualKeyboard.midiNoteOf note octave = Ret (Some m) ->
  exists i : nat,
    VirtualKeyboard.semitones !! i = Some note /\
    0 <= octave <= 9 /\ m = 12 * (octave + 1) + Z.of_nat i.
Proof.
  unfold VirtualKeyboard.midiNoteOf.
  destruct (VirtualKeyboard.noteToMidi !! note) as [row|] eqn:E; [|discriminate].
  destruct (Z.ltb_spec octave 0) as [?|Ho]; [discriminate|]. intros [= H].
  unfold VirtualKeyboard.noteToMidi in E. apply elem_of_list_to_map_2 in E.
  repeat (apply elem_of_cons in E as [[= -> ->]|E]);
    try (apply elem_of_nil in E; contradiction);
    (destruct (Z.to_nat octave) as [|[|[|[|[|[|[|[|[|[|n]]]]]]]]]] eqn:En;
     cbn in H; try discriminate; injection H as <-;
     first [exists 0%nat; split; [reflexivity|lia]
           |exists 1%nat; split; [reflexivity|lia]
           |exists 2%nat; split; [reflexivity|lia]
           |exists 3%nat; split; [reflexivity|lia]
           |exists 4%nat; split; [reflexivity|lia]
           |exists 5%nat; split; [reflexivity|lia]
           |exists 6%nat; split; [reflexivity|lia]
           |exists 7%nat; split; [reflexivity|lia]
           |exists 8%nat; split; [reflexivity|lia]
           |exists 9%nat; split; [reflexivity|lia]
           |exists 10%nat; split; [reflexivity|lia]
           |exists 11%nat; split; [reflexivity|lia]]).
Qed.

(** The key of a note of the table is read back by the regular
    expression of [changeOctave]. *)
Lemma noteKey_round_trip (i : nat) note octave :
  VirtualKeyboard.semitones !! i = Some note ->
  0 <= octave <= 9 ->
  exists digits,
    VirtualKeyboard.matchNoteKey (VirtualKeyboard.noteKeyOf note octave)
      = Some (note, digits) /\
    VirtualKeyboard.parseInt digits = octave.
Proof.
  intros Hi Ho.
  assert (Hcases : octave = 0 \/ octave = 1 \/ octave = 2 \/ octave = 3 \/ octave = 4 \/
                   octave = 5 \/ octave = 6 \/ octave = 7 \/ octave = 8 \/ octave = 9) by lia.
  do 12 (destruct i as [|i]; [injection Hi as <-;
    destruct Hcases as [->|[->|[->|[->|[->|[->|[->|[->|[->| ->]]]]]]]]];
    (eexists; split; vm_compute; reflexivity)|]).
  discriminate.
Qed.

Lemma noteKey_inj note octave m note' octave' m' :
  VirtualKeyboard.midiNoteOf note octave = Ret (Some m) ->
  VirtualKeyboard.midiNoteOf note' octave' = Ret (Some m') ->
  VirtualKeyboard.noteKeyOf note octave = VirtualKeyboard.noteKeyOf note' octave' ->
  note = note' /\ octave = octave' /\ m = m'.
Proof.
  intros H H' Hkey.
  destruct (midiNoteOf_table _ _ _ H) as (i & Hi & Ho & _).
  destruct (midiNoteOf_table _ _ _ H') as (i' & Hi' & Ho' & _).
  destruct (noteKey_round_trip i note octave Hi Ho) as (d & Hd & Hp).
  destruct (noteKey_round_trip i' note' octave' Hi' Ho') as (d' & Hd' & Hp').
  rewrite Hkey, Hd' in Hd. injection Hd as -> ->.
  assert (octave = octave') as -> by congruence.
  split; [reflexivity|]. split; [reflexivity|congruence].
Qed.

Lemma midiNote_inj note octave note' octave' m :
  VirtualKeyboard.midiNoteOf note octave = Ret (Some m) ->
  VirtualKeyboard.midiNoteOf note' octave' = Ret (Some m) ->
  note = note' /\ octave = octave'.
Proof.
  intros H H'.
  destruct (midiNoteOf_table _ _ _ H) as (i & Hi & Ho & Hm).
  destruct (midiNoteOf_table _ _ _ H') as (i' & Hi' & Ho' & Hm').
  assert (Hlt : (i < 12)%nat) by (apply lookup_lt_Some in Hi; exact Hi).
  assert (Hlt' : (i' < 12)%nat) by (apply lookup_lt_Some in Hi'; exact Hi').
  assert (i = i') as -> by lia. split; [congruence|lia].
Qed.

Lemma outOfRange_inv midiNote :
  VirtualKeyboard.outOfRange midiNote = false ->
  exists m, midiNote = Some m /\ 12 <= m <= 125.
Proof.
  unfold VirtualKeyboard.outOfRange. destruct midiNote as [m|]; [|discriminate].
  destruct (Z.eqb_spec m 0), (Z.ltb_spec m 12), (Z.ltb_spec 125 m); try discriminate.
  intros _. exists m. split; [reflexivity|lia].
Qed.

Lemma pressKey_inStep note octaveOffset k k' :
  VirtualKeyboard.inStep k ->
  VirtualKeyboard.pressKey note octaveOffset k = Ret k' ->
  VirtualKeyboard.inStep k'.
Proof.
  intros Hk. pose proof Hk as (Hs & Ho & Hlen & Hkeys & Hstates).
  unfold VirtualKeyboard.pressKey.
  set (octave := VirtualKeyboard.currentOctave k + octaveOffset).
  destruct (VirtualKeyboard.midiNoteOf note octave) as [midiNote| |] eqn:Hm;
    cbn [bind]; try discriminate.
  destruct (VirtualKeyboard.outOfRange midiNote) eqn:Hout; [intros [= <-]; exact Hk|].
  destruct (decide _) as [_|Hfree]; [intros [= <-]; exact Hk|].
  apply outOfRange_inv in Hout as (m & -> & Hrange). intros [= <-].
  cbn [default]. rewrite arraySet_inside by lia.
  unfold VirtualKeyboard.inStep.
  cbn [VirtualKeyboard.currentOctave VirtualKeyboard.sustainMode
       VirtualKeyboard.physicallyPressed VirtualKeyboard.keyStates].
  split; [exact Hs|]. split; [exact Ho|]. split; [rewrite length_insert; exact Hlen|].
  assert (Hkeep : forall j, VirtualKeyboard.keyStates k !! j = Some true ->
                    <[Z.to_nat (m - 12) := true]> (VirtualKeyboard.keyStates k) !! j = Some true).
  { intros j Hj. destruct (decide (j = Z.to_nat (m - 12))) as [->|Hne].
    - apply list_lookup_insert_eq. lia.
    - rewrite list_lookup_insert_ne by congruence. exact Hj. }
  split.
  - intros key Hin. apply elem_of_union in Hin as [Hin|Hin].
    + apply elem_of_singleton in Hin as ->.
      exists note, octave, m. split; [reflexivity|]. split; [exact Hm|].
      split; [exact Hrange|]. apply list_lookup_insert_eq. lia.
    + destruct (Hkeys key Hin) as (n' & o' & m' & -> & Hm' & Hr' & Hst').
      exists n', o', m'. auto.
  - intros i Hi. destruct (decide (i = Z.to_nat (m - 12))) as [->|Hne].
    + exists note, octave, m. split; [|auto].
      apply elem_of_union_l, elem_of_singleton. reflexivity.
    + rewrite list_lookup_insert_ne in Hi by congruence.
      destruct (Hstates i Hi) as (n' & o' & m' & Hin & Hm' & ->).
      exists n', o', m'. split; [apply elem_of_union_r, Hin|auto].
Qed.

Lemma releaseKey_inStep note octaveOffset k k' :
  VirtualKeyboard.inStep k ->
  VirtualKeyboard.releaseKey note octaveOffset k = Ret k' ->
  VirtualKeyboard.inStep k'.
Proof.
  intros Hk. pose proof Hk as (Hs & Ho & Hlen & Hkeys & Hstates).
  unfold VirtualKeyboard.releaseKey.
  set (octave := VirtualKeyboard.currentOctave k + octaveOffset).
  destruct (VirtualKeyboard.midiNoteOf note octave) as [midiNote| |] eqn:Hm;
    cbn [bind]; try discriminate.
  destruct (VirtualKeyboard.outOfRange midiNote) eqn:Hout; [intros [= <-]; exact Hk|].
  destruct (decide _) as [Hheld|_]; [|intros [= <-]; exact Hk].
  apply outOfRange_inv in Hout as (m & -> & Hrange). intros [= <-].
  rewrite Hs. cbn [negb default]. rewrite arraySet_inside by lia.
  unfold VirtualKeyboard.inStep.
  cbn [VirtualKeyboard.currentOctave VirtualKeyboard.sustainMode
       VirtualKeyboard.physicallyPressed VirtualKeyboard.keyStates].
  split; [reflexivity|]. split; [exact Ho|]. split; [rewrite length_insert; exact Hlen|].
  split.
  - intros key Hin. apply elem_of_difference in Hin as [Hin Hne].
    rewrite elem_of_singleton in Hne.
    destruct (Hkeys key Hin) as (n' & o' & m' & -> & Hm' & Hr' & Hst').
    exists n', o', m'. split; [reflexivity|]. split; [exact Hm'|]. split; [exact Hr'|].
    rewrite list_lookup_insert_ne; [exact Hst'|].
    intros Heq. assert (m = m') as -> by lia.
    destruct (midiNote_inj _ _ _ _ _ Hm Hm') as [-> Hoct]. apply Hne.
    rewrite <- Hoct. reflexivity.
  - intros i Hi.
    assert (Hne : i <> Z.to_nat (m - 12)).
    { intros ->. rewrite list_lookup_insert_eq in Hi by lia. discriminate. }
    rewrite list_lookup_insert_ne in Hi by congruence.
    destruct (Hstates i Hi) as (n' & o' & m' & Hin & Hm' & ->).
    exists n', o', m'. split; [|auto].
    apply elem_of_difference. split; [exact Hin|].
    rewrite elem_of_singleton. intros Hkey.
    destruct (noteKey_inj _ _ _ _ _ _ Hm' Hm Hkey) as (_ & _ & ->). congruence.
Qed.

Lemma releaseHeld_table keyStates note octave m :
  VirtualKeyboard.midiNoteOf note octave = Ret (Some m) ->
  12 <= m <= 125 ->
  length keyStates = 114%nat ->
  VirtualKeyboard.releaseHeld false keyStates (VirtualKeyboard.noteKeyOf note octave)
  = Ret (<[Z.to_nat (m - 12) := false]> keyStates).
Proof.
  intros Hm Hrange Hlen.
  destruct (midiNoteOf_table _ _ _ Hm) as (i & Hi & Ho & _).
  destruct (noteKey_round_trip i note octave Hi Ho) as (d & Hd & Hp).
  unfold VirtualKeyboard.releaseHeld. rewrite Hd, Hp, Hm. cbn [bind negb].
  destruct (Z.eqb_spec m 0) as [?|_]; [lia|].
  rewrite arraySet_inside by lia. reflexivity.
Qed.

Lemma releaseHeld_fold (keys : list string) :
  forall keyStates,
    length keyStates = 114%nat ->
    (forall key, key ∈ keys ->
       exists note octave m,
         key = VirtualKeyboard.noteKeyOf note octave /\
         VirtualKeyboard.midiNoteOf note octave = Ret (Some m) /\ 12 <= m <= 125) ->
    exists keyStates',
      fold_left
        (fun states noteKey =>
           let! keyStates := states in VirtualKeyboard.releaseHeld false keyStates noteKey)
        keys (Ret keyStates) = Ret keyStates' /\
      length keyStates' = 114%nat /\
      (forall i, keyStates' !! i = Some true ->
         keyStates !! i = Some true /\
         forall note octave m,
           VirtualKeyboard.noteKeyOf note octave ∈ keys ->
           VirtualKeyboard.midiNoteOf note octave = Ret (Some m) ->
           i <> Z.to_nat (m - 12)).
Proof.
  induction keys as [|key keys IH]; intros keyStates Hlen Hkeys; cbn [fold_left].
  - exists keyStates. split; [reflexivity|]. split; [exact Hlen|].
    intros i Hi. split; [exact Hi|]. intros note octave m Hin. inversion Hin.
  - destruct (Hkeys key (list_elem_of_here _ _)) as (n0 & o0 & m0 & -> & Hm0 & Hr0).
    cbn [bind]. rewrite (releaseHeld_table keyStates n0 o0 m0 Hm0 Hr0 Hlen).
    destruct (IH (<[Z.to_nat (m0 - 12) := false]> keyStates)) as (ks' & Hfold & Hlen' & Hall).
    { rewrite length_insert. exact Hlen. }
    { intros key Hin. apply Hkeys, list_elem_of_further, Hin. }
    exists ks'. split; [exact Hfold|]. split; [exact Hlen'|].
    intros i Hi. destruct (Hall i Hi) as [Hi' Hrest].
    assert (Hne : i <> Z.to_nat (m0 - 12)).
    { intros ->. rewrite list_lookup_insert_eq in Hi' by lia. discriminate. }
    rewrite list_lookup_insert_ne in Hi' by congruence.
    split; [exact Hi'|].
    intros note octave m Hin Hm. apply elem_of_cons in Hin as [Hkey|Hin].
    + destruct (noteKey_inj _ _ _ _ _ _ Hm Hm0 Hkey) as (_ & _ & ->). exact Hne.
    + eapply Hrest; eassumption.
Qed.

Lemma changeOctave_inStep direction k k' :
  VirtualKeyboard.inStep k ->
  VirtualKeyboard.changeOctave direction k = Ret k' ->
  VirtualKeyboard.inStep k'.
Proof.
  intros Hk. pose proof Hk as (Hs & Ho & Hlen & Hkeys & Hstates).
  unfold VirtualKeyboard.changeOctave.
  destruct (Z.leb_spec 0 (VirtualKeyboard.currentOctave k + direction)) as [Hlo|_];
    [|intros [= <-]; exact Hk].
  destruct (Z.leb_spec (VirtualKeyboard.currentOctave k + direction) 7) as [Hhi|_];
    [|intros [= <-]; exact Hk].
  cbn [andb]. rewrite Hs.
  destruct (releaseHeld_fold (elements (VirtualKeyboard.physicallyPressed k))
              (VirtualKeyboard.keyStates k) Hlen) as (ks' & Hfold & Hlen' & Hall).
  { intros key Hin. apply elem_of_elements in Hin.
    destruct (Hkeys key Hin) as (n' & o' & m' & -> & Hm' & Hr' & _). eauto 6. }
  rewrite Hfold. cbn [bind]. intros [= <-].
  unfold VirtualKeyboard.inStep.
  cbn [VirtualKeyboard.currentOctave VirtualKeyboard.sustainMode
       VirtualKeyboard.physicallyPressed VirtualKeyboard.keyStates].
  split; [reflexivity|]. split; [lia|]. split; [exact Hlen'|]. split.
  - intros key Hin. exfalso. exact (not_elem_of_empty (C:=gset string) key Hin).
  - intros i Hi. exfalso. destruct (Hall i Hi) as [Hi' Hnot].
    destruct (Hstates i Hi') as (n' & o' & m' & Hin & Hm' & ->).
    apply (Hnot n' o' m'); [apply elem_of_elements, Hin|exact Hm'|reflexivity].
Qed.

Lemma clearAllNotes_inStep k :
  VirtualKeyboard.inStep k -> VirtualKeyboard.inStep (VirtualKeyboard.clearAllNotes k).
Proof.
  intros (Hs & Ho & Hlen & _ & _). unfold VirtualKeyboard.inStep, VirtualKeyboard.clearAllNotes.
  cbn [VirtualKeyboard.currentOctave VirtualKeyboard.sustainMode
       VirtualKeyboard.physicallyPressed VirtualKeyboard.keyStates].
  split; [exact Hs|]. split; [exact Ho|].
  split; [unfold JS.fillFalse; rewrite length_replicate; exact Hlen|]. split.
  - intros key Hin. exfalso. exact (not_elem_of_empty (C:=gset string) key Hin).
  - intros i Hi. unfold JS.fillFalse in Hi. apply lookup_replicate in Hi as [Hi _].
    discriminate.
Qed.

Lemma run_inStep actions :
  forall k k',
    Forall (fun a => VirtualKeyboard.isToggleSustain a = false) actions ->
    VirtualKeyboard.inStep k ->
    VirtualKeyboard.run actions k = Ret k' ->
    VirtualKeyboard.inStep k'.
Proof.
  unfold VirtualKeyboard.run.
  induction actions as [|a actions IH]; intros k k' Hall Hk; cbn [fold_left].
  - intros [= <-]. exact Hk.
  - apply Forall_cons in Hall as [Ha Hall]. cbn [bind].
    destruct (VirtualKeyboard.act k a) as [k1|e|] eqn:Eact.
    + apply IH; [exact Hall|].
      destruct a as [note o|note o|d| |]; cbn [VirtualKeyboard.act] in Eact.
      * eapply pressKey_inStep; eassumption.
      * eapply releaseKey_inStep; eassumption.
      * eapply changeOctave_inStep; eassumption.
      * discriminate.
      * injection Eact as <-. apply clearAllNotes_inStep, Hk.
    + intros H. exfalso. revert H. clear. induction actions as [|a' actions IH'];
        cbn [fold_left bind]; [discriminate|exact IH'].
    + intros H. exfalso. revert H. clear. induction actions as [|a' actions IH'];
        cbn [fold_left bind]; [discriminate|exact IH'].
Qed.

(** Without sustain no note gets stuck: after any sequence of key
    presses, key releases, octave changes and [clearAllNotes] on a new
    keyboard, the octave is between 0 and 7, there are 114 key states,
    and a key state is true exactly when the key of that note is held
    down, that is, its name is in [physicallyPressed]. *)
Theorem keys_sound_while_held (actions : list VirtualKeyboard.action)
    (k : VirtualKeyboard.keyboard) :
  Forall (fun a => VirtualKeyboard.isToggleSustain a = false) actions ->
  VirtualKeyboard.run actions VirtualKeyboard.constructor = Ret k ->
  0 <= VirtualKeyboard.currentOctave k <= 7 /\
  length (VirtualKeyboard.keyStates k) = 114%nat /\
  forall i, VirtualKeyboard.keyStates k !! i = Some true <-> VirtualKeyboard.held k i.
Proof.
  intros Hall Hrun.
  assert (Hinit : VirtualKeyboard.inStep VirtualKeyboard.constructor).
  { unfold VirtualKeyboard.inStep, VirtualKeyboard.constructor.
    cbn [VirtualKeyboard.currentOctave VirtualKeyboard.sustainMode
         VirtualKeyboard.physicallyPressed VirtualKeyboard.keyStates].
    split; [reflexivity|]. split; [lia|]. split; [reflexivity|]. split.
    - intros key Hin. exfalso. exact (not_elem_of_empty (C:=gset string) key Hin).
    - intros i Hi. apply lookup_replicate in Hi as [Hi _]. discriminate. }
  destruct (run_inStep actions _ _ Hall Hinit Hrun) as (_ & Ho & Hlen & Hkeys & Hstates).
  split; [exact Ho|]. split; [exact Hlen|].
  intros i. split; [apply Hstates|].
  intros (note & octave & m & Hin & Hm & ->).
  destruct (Hkeys _ Hin) as (n' & o' & m' & Hkey & Hm' & _ & Hst).
  destruct (noteKey_inj _ _ _ _ _ _ Hm Hm' Hkey) as (_ & _ & ->). exact Hst.
Qed.

(** ** The names of the notes *)

(** The table of the keyboard and the note names of the audio engine
    agree: the number that [noteToMidi] gives note [note] of octave
    [octave] is 12 (octave + 1) plus the semitones of [note] above C, and
    [getNoteNameFromMidi] gives [note] back for it. *)
Theorem noteToMidi_names (note : string) (octave m : Z) :
  VirtualKeyboard.midiNoteOf note octave = Ret (Some m) ->
  AudioEngine.getNoteNameFromMidi m = Some note /\
  m / 12 - 1 = octave /\
  exists i : nat,
    VirtualKeyboard.semitones !! i = Some note /\ m = 12 * (octave + 1) + Z.of_nat i.
Proof.
  intros H. destruct (midiNoteOf_table _ _ _ H) as (i & Hi & Ho & Hm).
  assert (Hlt : (i < 12)%nat) by (apply lookup_lt_Some in Hi; exact Hi).
  assert (Hrem : Z.rem m 12 = Z.of_nat i).
  { rewrite Z.rem_mod_nonneg by lia. subst m.
    rewrite Z.add_comm, Z.mul_comm, Z.mod_add by lia. apply Z.mod_small. lia. }
  split; [|split; [|eauto]].
  - unfold AudioEngine.getNoteNameFromMidi. rewrite Hrem.
    destruct (Z.ltb_spec (Z.of_nat i) 0) as [?|_]; [lia|].
    rewrite Nat2Z.id. exact Hi.
  - subst m. rewrite Z.add_comm, Z.mul_comm, Z.div_add by lia.
    rewrite Z.div_small by lia. lia.
Qed.

(* ===================================================================== *)
(** * The audio engine *)
(* ===================================================================== *)

(** ** The oscillators *)

Lemma has_spec midiNote (l : list (Z * option R)) :
  AudioEngine.has midiNote l = true <-> midiNote ∈ map fst l.
Proof.
  unfold AudioEngine.has. rewrite existsb_exists.
  change (map ?f ?l) with (f <$> l). rewrite list_elem_of_fmap. split.
  - intros (entry & Hin & Heq). apply Z.eqb_eq in Heq. apply list_elem_of_In in Hin. eauto.
  - intros (entry & -> & Hin). exists entry. split; [apply list_elem_of_In, Hin|apply Z.eqb_refl].
Qed.

Lemma delete_keys midiNote (l : list (Z * option R)) n :
  n ∈ map fst (AudioEngine.delete midiNote l) <-> n <> midiNote /\ n ∈ map fst l.
Proof.
  unfold AudioEngine.delete. change (map ?f ?l) with (f <$> l).
  rewrite !list_elem_of_fmap. split.
  - intros (entry & -> & Hin). apply elem_of_List_filter in Hin as [Hne Hin].
    apply negb_true_iff, Z.eqb_neq in Hne. eauto.
  - intros (Hne & entry & -> & Hin). exists entry. split; [reflexivity|].
    apply elem_of_List_filter. split; [|exact Hin]. apply negb_true_iff, Z.eqb_neq, Hne.
Qed.

Lemma delete_NoDup midiNote (l : list (Z * option R)) :
  NoDup (map fst l) -> NoDup (map fst (AudioEngine.delete midiNote l)).
Proof.
  unfold AudioEngine.delete. induction l as [|entry l IH]; cbn [map List.filter]; [auto|].
  intros Hnd. apply NoDup_cons in Hnd as [Hout Hnd].
  destruct (negb _); [|apply IH, Hnd].
  cbn [map]. apply NoDup_cons. split; [|apply IH, Hnd].
  intros Hin. apply Hout. apply (delete_keys midiNote l) in Hin as [_ Hin]. exact Hin.
Qed.

Lemma sounding_elem e n : n ∈ AudioEngine.sounding e <-> n ∈ map fst (AudioEngine.oscillators e).
Proof. unfold AudioEngine.sounding. apply elem_of_list_to_set. Qed.

Lemma playNote_sounding midiNote e :
  AudioEngine.sounding (AudioEngine.playNote midiNote e) = {[midiNote]} ∪ AudioEngine.sounding e.
Proof.
  apply set_eq. intros n.
  rewrite elem_of_union, elem_of_singleton, !sounding_elem.
  unfold AudioEngine.playNote. cbn [AudioEngine.oscillators].
  rewrite map_app. cbn [map fst]. rewrite elem_of_app, list_elem_of_singleton.
  destruct (AudioEngine.has midiNote (AudioEngine.oscillators e)) eqn:Ehas.
  - rewrite delete_keys. destruct (Z.eq_dec n midiNote); tauto.
  - tauto.
Qed.

Lemma stopNote_sounding midiNote e :
  AudioEngine.sounding (AudioEngine.stopNote midiNote e) = AudioEngine.sounding e ∖ {[midiNote]}.
Proof.
  apply set_eq. intros n.
  rewrite elem_of_difference, elem_of_singleton, !sounding_elem.
  unfold AudioEngine.stopNote.
  destruct (AudioEngine.has midiNote (AudioEngine.oscillators e)) eqn:Ehas;
    cbn [AudioEngine.oscillators].
  - rewrite delete_keys. tauto.
  - split; [|tauto]. intros Hin. split; [exact Hin|]. intros ->.
    apply has_spec in Hin. congruence.
Qed.

Lemma stopNotes_sounding (notes : list Z) :
  forall e n,
    n ∈ AudioEngine.sounding
          (fold_left (fun e midiNote => AudioEngine.stopNote midiNote e) notes e)
    <-> n ∈ AudioEngine.sounding e /\ n ∉ notes.
Proof.
  induction notes as [|m notes IH]; intros e n; cbn [fold_left].
  - split; [intros H; split; [exact H|apply not_elem_of_nil]|tauto].
  - rewrite IH, stopNote_sounding, elem_of_difference, elem_of_singleton, not_elem_of_cons.
    tauto.
Qed.

Lemma stopAllNotes_silent e : AudioEngine.oscillators (AudioEngine.stopAllNotes e) = [].
Proof.
  unfold AudioEngine.stopAllNotes.
  destruct (AudioEngine.oscillators (fold_left _ _ e)) as [|[n f] l] eqn:E; [reflexivity|].
  exfalso.
  assert (Hin : n ∈ AudioEngine.sounding
                      (fold_left (fun e midiNote => AudioEngine.stopNote midiNote e)
                         (map fst (AudioEngine.oscillators e)) e)).
  { apply sounding_elem. rewrite E. apply list_elem_of_here. }
  apply stopNotes_sounding in Hin as [Hin Hout]. apply Hout, sounding_elem, Hin.
Qed.

(** The oscillators follow the calls as a set of notes: [playNote] adds
    the note, [stopNote] removes it and [stopAllNotes] leaves no
    oscillator; a note that is played again has one entry, the last of
    the map. *)
Theorem oscillators_follow_calls (midiNote : Z) (e : AudioEngine.engine) :
  AudioEngine.sounding (AudioEngine.playNote midiNote e)
    = {[midiNote]} ∪ AudioEngine.sounding e /\
  AudioEngine.sounding (AudioEngine.stopNote midiNote e)
    = AudioEngine.sounding e ∖ {[midiNote]} /\
  AudioEngine.oscillators (AudioEngine.stopAllNotes e) = [] /\
  (exists before frequency,
     AudioEngine.oscillators (AudioEngine.playNote midiNote e)
       = before ++ [(midiNote, frequency)] /\
     midiNote ∉ map fst before).
Proof.
  split; [apply playNote_sounding|]. split; [apply stopNote_sounding|].
  split; [apply stopAllNotes_silent|].
  unfold AudioEngine.playNote. cbn [AudioEngine.oscillators].
  eexists _, _. split; [reflexivity|].
  destruct (AudioEngine.has midiNote (AudioEngine.oscillators e)) eqn:Ehas.
  - rewrite delete_keys. tauto.
  - intros Hin. apply has_spec in Hin. congruence.
Qed.

Lemma updateFrom_sounding keyStates :
  forall i e n,
    n ∈ AudioEngine.sounding (AudioEngine.updateFrom i keyStates e) <->
    (if decide (i + 12 <= n < i + 12 + Z.of_nat (length keyStates))
     then keyStates !! Z.to_nat (n - 12 - i) = Some true
     else n ∈ AudioEngine.sounding e).
Proof.
  induction keyStates as [|shouldPlay rest IH]; intros i e n;
    cbn [AudioEngine.updateFrom length].
  - destruct (decide _) as [H|_]; [cbn in H; lia|reflexivity].
  - set (midiNote := i + 12).
    set (e1 := if shouldPlay && negb (AudioEngine.has midiNote (AudioEngine.oscillators e))
               then AudioEngine.startNote midiNote e
               else if negb shouldPlay && AudioEngine.has midiNote (AudioEngine.oscillators e)
                    then AudioEngine.stopNote midiNote e else e).
    assert (He1 : forall x, x ∈ AudioEngine.sounding e1 <->
                    (if decide (x = midiNote) then shouldPlay = true
                     else x ∈ AudioEngine.sounding e)).
    { intros x. unfold e1, AudioEngine.startNote.
      destruct (AudioEngine.has midiNote (AudioEngine.oscillators e)) eqn:Ehas.
      - assert (Hin : midiNote ∈ AudioEngine.sounding e) by (apply sounding_elem, has_spec, Ehas).
        destruct shouldPlay; cbn [andb negb].
        + destruct (decide (x = midiNote)) as [->|Hx]; tauto.
        + rewrite stopNote_sounding, elem_of_difference, elem_of_singleton.
          destruct (decide (x = midiNote)) as [->|Hx]; [split; [tauto|discriminate]|tauto].
      - assert (Hout : midiNote ∉ AudioEngine.sounding e).
        { intros Hin. apply sounding_elem, has_spec in Hin. congruence. }
        destruct shouldPlay; cbn [andb negb].
        + rewrite playNote_sounding, elem_of_union, elem_of_singleton.
          destruct (decide (x = midiNote)) as [->|Hx]; tauto.
        + destruct (decide (x = midiNote)) as [->|Hx]; [split; [tauto|discriminate]|tauto]. }
    rewrite IH. clearbody e1. subst midiNote.
    destruct (decide (i + 1 + 12 <= n < i + 1 + 12 + Z.of_nat (length rest))) as [Hin|Hout].
    + rewrite decide_True by lia.
      replace (Z.to_nat (n - 12 - i)) with (S (Z.to_nat (n - 12 - (i + 1)))) by lia.
      reflexivity.
    + rewrite He1. destruct (decide (n = i + 12)) as [->|Hne].
      * rewrite decide_True by lia. replace (Z.to_nat (i + 12 - 12 - i)) with 0%nat by lia.
        cbn. split; [intros ->; reflexivity|intros [= ->]; reflexivity].
      * rewrite decide_False by lia. reflexivity.
Qed.

(** A poll of the keyboard makes the oscillators follow the keys: after
    [updateFromKeyboard], a note from 12 up to the last key has an
    oscillator exactly when its key state is true, and every other note
    has one exactly when it had one before (so a note that the keyboard
    does not cover is left to sound). *)
Theorem updateFromKeyboard_follows_keys (keyStates : list bool)
    (e : AudioEngine.engine) (n : Z) :
  let e' := AudioEngine.updateFromKeyboard (Some keyStates) e in
  (12 <= n < 12 + Z.of_nat (length keyStates) ->
   (n ∈ AudioEngine.sounding e' <-> keyStates !! Z.to_nat (n - 12) = Some true)) /\
  (~ 12 <= n < 12 + Z.of_nat (length keyStates) ->
   (n ∈ AudioEngine.sounding e' <-> n ∈ AudioEngine.sounding e)).
Proof.
  cbn zeta. unfold AudioEngine.updateFromKeyboard.
  pose proof (updateFrom_sounding keyStates 0 e n) as H.
  split; intros Hn.
  - rewrite decide_True in H by lia. rewrite Z.sub_0_r in H. exact H.
  - rewrite decide_False in H by lia. exact H.
Qed.

(** ** The frequencies stored *)

Lemma midiToFrequency_tuning e e' n :
  AudioEngine.useJustIntonation e' = AudioEngine.useJustIntonation e ->
  AudioEngine.rootKey e' = AudioEngine.rootKey e ->
  AudioEngine.midiToFrequency e' n = AudioEngine.midiToFrequency e n.
Proof.
  intros H1 H2. unfold AudioEngine.midiToFrequency, AudioEngine.midiToJustFrequency.
  rewrite H1, H2. reflexivity.
Qed.

Lemma tuned_same_tuning e l :
  Forall (fun entry => snd entry = AudioEngine.midiToFrequency e (fst entry)) l ->
  forall e',
    AudioEngine.useJustIntonation e' = AudioEngine.useJustIntonation e ->
    AudioEngine.rootKey e' = AudioEngine.rootKey e ->
    Forall (fun entry => snd entry = AudioEngine.midiToFrequency e' (fst entry)) l.
Proof.
  intros Hl e' H1 H2. eapply Forall_impl; [exact Hl|].
  intros entry ->. symmetry. apply midiToFrequency_tuning; assumption.
Qed.

Lemma Forall_List_filter {A} (P : A -> Prop) (f : A -> bool) l :
  Forall P l -> Forall P (List.filter f l).
Proof.
  intros H. rewrite Forall_forall in H |- *. intros x Hx.
  apply elem_of_List_filter in Hx as [_ Hx]. auto.
Qed.

Lemma playNote_tuned midiNote e :
  AudioEngine.tuned e -> AudioEngine.tuned (AudioEngine.playNote midiNote e).
Proof.
  intros [Hnd Hall]. unfold AudioEngine.tuned, AudioEngine.playNote.
  cbn [AudioEngine.oscillators].
  set (remaining := if AudioEngine.has midiNote (AudioEngine.oscillators e)
                    then AudioEngine.delete midiNote (AudioEngine.oscillators e)
                    else AudioEngine.oscillators e).
  assert (Hrem : NoDup (map fst remaining) /\ (midiNote ∉ map fst remaining) /\
                 Forall (fun entry => snd entry = AudioEngine.midiToFrequency e (fst entry))
                   remaining).
  { unfold remaining.
    destruct (AudioEngine.has midiNote (AudioEngine.oscillators e)) eqn:Ehas.
    - split; [apply delete_NoDup, Hnd|]. split; [rewrite delete_keys; tauto|].
      apply Forall_List_filter, Hall.
    - split; [exact Hnd|]. split; [|exact Hall].
      intros Hin. apply has_spec in Hin. congruence. }
  destruct Hrem as (Hnd' & Hout & Hall'). split.
  - rewrite map_app. cbn [map fst]. apply NoDup_app. split; [exact Hnd'|].
    split; [|apply NoDup_singleton].
    intros x Hx Hm. apply list_elem_of_singleton in Hm as ->. contradiction.
  - apply Forall_app. split.
    + eapply tuned_same_tuning; [exact Hall'|reflexivity|reflexivity].
    + constructor; [|constructor]. reflexivity.
Qed.

Lemma stopNote_tuned midiNote e :
  AudioEngine.tuned e -> AudioEngine.tuned (AudioEngine.stopNote midiNote e).
Proof.
  intros [Hnd Hall]. unfold AudioEngine.stopNote.
  destruct (AudioEngine.has midiNote (AudioEngine.oscillators e)); [|split; assumption].
  split; cbn [AudioEngine.oscillators].
  - apply delete_NoDup, Hnd.
  - eapply tuned_same_tuning; [apply Forall_List_filter, Hall|reflexivity|reflexivity].
Qed.

Lemma updateFrom_tuned keyStates :
  forall i e, AudioEngine.tuned e -> AudioEngine.tuned (AudioEngine.updateFrom i keyStates e).
Proof.
  induction keyStates as [|shouldPlay rest IH]; intros i e He;
    cbn [AudioEngine.updateFrom]; [exact He|].
  apply IH. destruct (_ && _); [apply playNote_tuned, He|].
  destruct (_ && _); [apply stopNote_tuned, He|exact He].
Qed.

Lemma perform_tuned e c :
  AudioEngine.tuned e -> AudioEngine.tuned (AudioEngine.perform e c).
Proof.
  intros He. destruct c as [n|n| |enabled root|[ks|]]; cbn [AudioEngine.perform].
  - apply playNote_tuned, He.
  - apply stopNote_tuned, He.
  - unfold AudioEngine.stopAllNotes. generalize (map fst (AudioEngine.oscillators e)).
    intros notes. revert e He. induction notes as [|n notes IH]; intros e He;
      cbn [fold_left]; [exact He|].
    apply IH, stopNote_tuned, He.
  - destruct He as [Hnd _]. unfold AudioEngine.tuned, AudioEngine.setJustIntonation.
    cbn [AudioEngine.oscillators]. split.
    + rewrite map_map. cbn [fst]. exact Hnd.
    + apply Forall_forall. intros entry Hin.
      change (map ?f ?l) with (f <$> l) in Hin.
      apply list_elem_of_fmap in Hin as (entry0 & -> & _). reflexivity.
  - apply updateFrom_tuned, He.
  - exact He.
Qed.

(** The frequencies that [getCurrentFrequencies] returns are those of
    the notes that sound, in the tuning of the engine: after any
    sequence of [playNote], [stopNote], [stopAllNotes],
    [setJustIntonation] and [updateFromKeyboard] calls on a new engine,
    no note has two oscillators and the list of frequencies is the list
    of [midiToFrequency] of the notes of the map, also for the notes that
    were started before the tuning was changed. *)
Theorem frequencies_follow_tuning (calls : list AudioEngine.call) :
  let e := fold_left AudioEngine.perform calls AudioEngine.constructor in
  NoDup (map fst (AudioEngine.oscillators e)) /\
  AudioEngine.getCurrentFrequencies e
  = map (AudioEngine.midiToFrequency e) (map fst (AudioEngine.oscillators e)).
Proof.
  cbn zeta.
  assert (H : AudioEngine.tuned (fold_left AudioEngine.perform calls AudioEngine.constructor)).
  { assert (Hinit : AudioEngine.tuned AudioEngine.constructor)
      by (split; [apply NoDup_nil_2|constructor]).
    revert Hinit. generalize AudioEngine.constructor.
    induction calls as [|c calls IH]; intros e He; cbn [fold_left]; [exact He|].
    apply IH, perform_tuned, He. }
  destruct H as [Hnd Hall]. split; [exact Hnd|].
  unfold AudioEngine.getCurrentFrequencies. rewrite map_map.
  apply map_ext_in. intros entry Hin. rewrite Forall_forall in Hall.
  apply Hall, list_elem_of_In, Hin.
Qed.

(** ** Tuning *)

Section Tuning.
Local Open Scope R_scope.

Lemma equalTemperament_octave n :
  AudioEngine.equalTemperament (n + 12) = 2 * AudioEngine.equalTemperament n.
Proof.
  unfold AudioEngine.equalTemperament.
  replace (IZR (n + 12 - 69) / 12) with (IZR (n - 69) / 12 + 1)
    by (rewrite !minus_IZR, plus_IZR; field).
  rewrite Rpower_plus, Rpower_1 by lra. ring.
Qed.

Lemma equalTemperament_positive n : 0 < AudioEngine.equalTemperament n.
Proof.
  unfold AudioEngine.equalTemperament, Rpower.
  apply Rmult_lt_0_compat; [lra|apply exp_pos].
Qed.

Lemma equalTemperament_increasing n m :
  (n < m)%Z -> AudioEngine.equalTemperament n < AudioEngine.equalTemperament m.
Proof.
  intros Hlt. unfold AudioEngine.equalTemperament.
  apply Rmult_lt_compat_l; [lra|]. apply Rpower_lt; [lra|].
  apply IZR_lt in Hlt. rewrite !minus_IZR. lra.
Qed.

(** In equal temperament note 69 sounds at 440 Hz, every note has a
    positive frequency, a note an octave (12 semitones) higher has twice
    the frequency, and a higher note has a higher frequency. *)
Theorem equal_temperament_scale (e : AudioEngine.engine) :
  AudioEngine.useJustIntonation e = false ->
  AudioEngine.midiToFrequency e 69 = Some 440 /\
  (forall n, exists f,
      AudioEngine.midiToFrequency e n = Some f /\ 0 < f /\
      AudioEngine.midiToFrequency e (n + 12) = Some (2 * f)) /\
  (forall n m f g,
      (n < m)%Z ->
      AudioEngine.midiToFrequency e n = Some f ->
      AudioEngine.midiToFrequency e m = Some g ->
      f < g).
Proof.
  intros Het.
  assert (H : forall n, AudioEngine.midiToFrequency e n
                        = Some (AudioEngine.equalTemperament n)).
  { intros n. unfold AudioEngine.midiToFrequency. rewrite Het. reflexivity. }
  split; [|split].
  - rewrite H. unfold AudioEngine.equalTemperament. f_equal.
    replace (IZR (69 - 69) / 12) with 0 by (change (69 - 69)%Z with 0%Z; lra).
    rewrite Rpower_O by lra. ring.
  - intros n. exists (AudioEngine.equalTemperament n).
    split; [apply H|]. split; [apply equalTemperament_positive|].
    rewrite H, equalTemperament_octave. reflexivity.
  - intros n m f g Hlt Hf Hg. rewrite H in Hf, Hg.
    injection Hf as <-. injection Hg as <-. apply equalTemperament_increasing, Hlt.
Qed.

Lemma justRatios_range (k : nat) :
  (k < 12)%nat -> exists ratio, AudioEngine.justRatios !! k = Some ratio /\ 1 <= ratio < 2.
Proof.
  intros Hk. unfold AudioEngine.justRatios.
  do 12 (destruct k as [|k]; [eexists; split; [reflexivity|lra]|]). lia.
Qed.

(** In just intonation, with a root key from 0 to 11, the frequency of
    a note from 0 up is the equal-temperament frequency of the root key
    in the octave of the note (the twelve notes from a C up) times the
    ratio that [justRatios] holds for the distance of the note above the
    root key, counted modulo 12.  The ratio is at least 1 and below 2, so
    a note below the root key in its octave sounds above that root key.
    A note on the root key has its equal-temperament frequency. *)
Theorem just_intonation_scale (e : AudioEngine.engine) (n : Z) :
  AudioEngine.useJustIntonation e = true ->
  (0 <= AudioEngine.rootKey e <= 11)%Z ->
  (0 <= n)%Z ->
  let root := (n / 12 * 12 + AudioEngine.rootKey e)%Z in
  exists ratio,
    AudioEngine.justRatios !! Z.to_nat ((n mod 12 - AudioEngine.rootKey e + 12) mod 12)
      = Some ratio /\
    1 <= ratio < 2 /\
    AudioEngine.midiToFrequency e n = Some (AudioEngine.equalTemperament root * ratio) /\
    (n mod 12 = AudioEngine.rootKey e ->
     AudioEngine.midiToFrequency e n = Some (AudioEngine.equalTemperament n)).
Proof.
  intros Hji Hroot Hn root.
  pose proof (Z.mod_pos_bound n 12 ltac:(lia)) as Hmod.
  set (offset := ((n mod 12 - AudioEngine.rootKey e + 12) mod 12)%Z).
  assert (Hoff : (0 <= offset < 12)%Z) by (apply Z.mod_pos_bound; lia).
  destruct (justRatios_range (Z.to_nat offset) ltac:(lia)) as (ratio & Hratio & Hbound).
  assert (Hjust : forall m : Z,
             (0 <= m)%Z -> (m mod 12 = n mod 12)%Z ->
             AudioEngine.midiToFrequency e m
             = Some (AudioEngine.equalTemperament (m / 12 * 12 + AudioEngine.rootKey e)
                     * ratio)).
  { intros m Hm Hsame. unfold AudioEngine.midiToFrequency. rewrite Hji.
    unfold AudioEngine.midiToJustFrequency.
    rewrite (Z.rem_mod_nonneg m 12), Hsame by lia.
    rewrite (Z.rem_mod_nonneg (n mod 12 - AudioEngine.rootKey e + 12) 12) by lia.
    fold offset. destruct (Z.ltb_spec offset 0) as [?|_]; [lia|].
    rewrite Hratio. reflexivity. }
  exists ratio. split; [exact Hratio|]. split; [exact Hbound|]. split.
  - apply Hjust; [exact Hn|reflexivity].
  - intros Hkey. rewrite (Hjust n Hn eq_refl). fold root.
    assert (Hzero : offset = 0%Z).
    { unfold offset. rewrite Hkey. replace (AudioEngine.rootKey e - AudioEngine.rootKey e + 12)%Z
        with 12%Z by lia. reflexivity. }
    rewrite Hzero in Hratio. injection Hratio as <-.
    replace root with n; [f_equal; ring|].
    unfold root. rewrite <- Hkey. pose proof (Z.div_mod n 12 ltac:(lia)). lia.
Qed.

End Tuning.

(* ===================================================================== *)
(** * More of the Lissajous generator *)
(* ===================================================================== *)

Section MoreLissajous.
Local Open Scope R_scope.

Lemma createCurve_points_map tRange frequencies c :
  LissajousGenerator.createCurve tRange frequencies = Some c ->
  LissajousGenerator.points c
  = map (LissajousGenerator.pointAt tRange (LissajousGenerator.ratios c))
      (seq 0 LissajousGenerator.numPoints).
Proof.
  unfold LissajousGenerator.createCurve. destruct frequencies as [|f0 rest]; [discriminate|].
  intros H.
  apply (f_equal (fun o => match o with Some c' => c' | None => c end)) in H.
  cbv beta iota in H. rewrite <- H. reflexivity.
Qed.

(** Every point of a curve lies in the cube of side 10 around the
    origin: each coordinate is between -5 and 5, whatever the
    frequencies and the range are. *)
Theorem createCurve_within_cube (tRange : R) (frequencies : list R)
    (c : LissajousGenerator.curveData) (px py pz : R) :
  LissajousGenerator.createCurve tRange frequencies = Some c ->
  (px, py, pz) ∈ LissajousGenerator.points c ->
  -5 <= px <= 5 /\ -5 <= py <= 5 /\ -5 <= pz <= 5.
Proof.
  intros Hc Hin. rewrite (createCurve_points_map _ _ _ Hc) in Hin.
  apply list_elem_of_In, in_map_iff in Hin as (i & Hp & _). symmetry in Hp.
  unfold LissajousGenerator.pointAt, LissajousGenerator.scale in Hp.
  injection Hp as -> -> ->.
  repeat split;
    match goal with
    | |- context [sin ?a] => pose proof (SIN_bound a); lra
    end.
Qed.

End MoreLissajous.

(* ===================================================================== *)
(** * The theorems at concrete inputs *)
(* ===================================================================== *)

(** A file of one track at 96 ticks per quarter note: note 60 on, off
    one quarter note later, a tempo event and the end of the track. *)
Lemma processEvents_timestamps_witness :
  let buffer :=
    [x4d; x54; x68; x64; x00; x00; x00; x06; x00; x00; x00; x01; x00; x60;
     x4d; x54; x72; x6b; x00; x00; x00; x12;
     x00; x90; x3c; x64;  x60; x80; x3c; x00;
     x00; xff; x51; x03; x07; xa1; x20;
     x00; xff; x2f; x00] in
  exists p events,
    parse 4 MIDIParser.constructor buffer = Ret (p, events) /\
    ticksPerQuarter p <> 0 /\
    nondecreasing (map te_seconds events) = true.
Proof.
  intros buffer. eexists _, _.
  match goal with
  | |- ?A /\ _ => assert (H : A) by (vm_compute; reflexivity)
  end.
  split; [exact H|]. split; [cbn; lia|].
  destruct (processEvents_timestamps _ _ _ _ H) as (_ & _ & _ & Hmono).
  apply Hmono. cbn. lia.
Defined.

Lemma readVariableLength_decodes_witness :
  consumed (bytesFrom [x81; x00] 0) = Some [129; 0] /\
  (length [129; 0] <= 4)%nat /\
  JS.ToInt32 (base128 [129; 0]) = base128 [129; 0].
Proof.
  assert (H : consumed (bytesFrom [x81; x00] 0) = Some [129; 0]) by reflexivity.
  split; [exact H|]. split; [cbn; lia|].
  destruct (readVariableLength_decodes [x81; x00] 0) as [_ Hshape].
  destruct (Hshape _ H) as [_ Hfits]. apply Hfits. cbn. lia.
Defined.

(** A track of two events, the second one in running status. *)
Lemma parseTrackChunk_running_status_witness :
  let chunk :=
    [x4d; x54; x72; x6b; x00; x00; x00; x07;
     x00; x90; x3c; x64;  x00; x3e; x64] in
  exists tr e1 e2,
    parseTrackChunk 2 chunk 0 = Ret tr /\
    t_events tr = [e1] ++ e2 :: [] /\
    decodedAfter chunk [e1] e2.
Proof.
  intros chunk. eexists _, _, _.
  match goal with
  | |- ?A /\ _ => assert (H : A) by (vm_compute; reflexivity)
  end.
  split; [exact H|].
  match goal with
  | |- ?A /\ _ => assert (H' : A) by reflexivity
  end.
  split; [exact H'|].
  exact (parseTrackChunk_running_status _ _ _ _ _ _ _ H H').
Defined.

Lemma chunk_signature_errors_witness :
  let view := [x4d; x54; x68; x78] in
  (exists signature, signatureAt view 0 = Some signature /\ signature <> MThd) /\
  parseHeaderChunk view 0 = Throw (Error "Invalid MIDI file: Missing MThd signature").
Proof.
  intros view.
  assert (H : exists signature, signatureAt view 0 = Some signature /\ signature <> MThd)
    by (eexists; split; [reflexivity|discriminate]).
  split; [exact H|].
  destruct (chunk_signature_errors 0 view 0) as [Hheader _]. apply Hheader, H.
Defined.

Lemma parseEvent_noteOn_velocity_witness :
  let view := [x90; x3c; x00] in
  0 <= 0 < 256 /\
  getUint8 view 0 = Ret 144 /\
  statusUsed 144 0 / 16 = 9 /\
  exists e, parseEvent view 0 0 7 = Ret e /\ typeOf (ev_body e) = Some noteOff.
Proof.
  intros view.
  assert (H1 : 0 <= 0 < 256) by lia.
  assert (H2 : getUint8 view 0 = Ret 144) by reflexivity.
  assert (H3 : statusUsed 144 0 / 16 = 9) by reflexivity.
  split; [exact H1|]. split; [exact H2|]. split; [exact H3|].
  destruct (parseEvent_noteOn_velocity view 0 0 7 144 H1 H2 H3) as (e & He & Ht & _).
  exists e. split; [exact He|exact Ht].
Defined.


Lemma press_release_restores_witness :
  let k := VirtualKeyboard.constructor in
  VirtualKeyboard.sustainMode k = false /\
  VirtualKeyboard.keyNumber "C" 0 k = Some 60 /\
  12 <= 60 <= 125 /\
  length (VirtualKeyboard.keyStates k) = 114%nat /\
  (VirtualKeyboard.noteKeyOf "C" (VirtualKeyboard.currentOctave k + 0)
     ∉ VirtualKeyboard.physicallyPressed k) /\
  exists k1 k2,
    VirtualKeyboard.pressKey "C" 0 k = Ret k1 /\
    VirtualKeyboard.releaseKey "C" 0 k1 = Ret k2 /\
    VirtualKeyboard.physicallyPressed k2 = VirtualKeyboard.physicallyPressed k /\
    VirtualKeyboard.keyStates k2 = VirtualKeyboard.keyStates k.
Proof.
  intros k.
  assert (H1 : VirtualKeyboard.sustainMode k = false) by reflexivity.
  assert (H2 : VirtualKeyboard.keyNumber "C" 0 k = Some 60) by (vm_compute; reflexivity).
  assert (H3 : 12 <= 60 <= 125) by lia.
  assert (H4 : length (VirtualKeyboard.keyStates k) = 114%nat) by reflexivity.
  assert (H5 : (VirtualKeyboard.noteKeyOf "C" (VirtualKeyboard.currentOctave k + 0))
               ∉ (VirtualKeyboard.physicallyPressed k)) by apply not_elem_of_empty.
  repeat (split; [assumption|]).
  destruct (press_release_restores "C" 0 60 k H1 H2 H3 H4 H5)
    as (k1 & k2 & Hp & Hr & Hpp & _ & _ & Hks & _).
  exists k1, k2. repeat (split; [assumption|]). apply Hks. reflexivity.
Defined.

Section LissajousWitness.
Local Open Scope R_scope.

Lemma createCurve_points_witness :
  [440; 550; 660] <> [] /\
  exists c,
    LissajousGenerator.createCurve 4 [440; 550; 660] = Some c /\
    length (LissajousGenerator.points c) = 2000%nat /\
    LissajousGenerator.ratios c =
      {| LissajousGenerator.x := 440 / 440;
         LissajousGenerator.y := 550 / 440;
         LissajousGenerator.z := 660 / 440 |} /\
    LissajousGenerator.smallestRatio c = 1.
Proof.
  assert (H1 : [440; 550; 660] <> []) by discriminate.
  split; [exact H1|].
  destruct (createCurve_points 4 [440; 550; 660] H1)
    as (c & f0 & Hc & Hf0 & Hlen & _ & Hx & Hy & Hz & _ & Hratios & Hpos & _).
  exists c. split; [exact Hc|]. split; [exact Hlen|].
  injection Hf0 as <-.
  assert (Hor : forall v d, v <> 0 -> LissajousGenerator.orElse (Some v) d = v).
  { intros v d Hv. unfold LissajousGenerator.orElse.
    destruct (Req_dec_T v 0); [contradiction|reflexivity]. }
  cbn [lookup list_lookup] in Hy, Hz.
  rewrite Hor in Hx, Hy, Hz by lra.
  rewrite Hratios, Hx, Hy, Hz.
  assert (Hmin : Rmin (Rmin 440 550) 660 = 440).
  { unfold Rmin. repeat destruct (Rle_dec _ _); lra. }
  rewrite Hmin. split; [reflexivity|].
  apply Hpos. repeat constructor; lra.
Defined.

End LissajousWitness.

(** ** The decoder *)

Lemma parseEvent_setTempo_witness :
  let view := [xff; x51; x03; x07; xa1; x20] in
  0 <= 0 /\
  bytesFrom view 0 = [255; 81; 3; 7; 161; 32] /\
  parseEvent view 0 0 96 = Ret (mkEvent 96 (Tempo 500000) 6).
Proof.
  intros view.
  assert (H1 : 0 <= 0) by lia.
  assert (H2 : bytesFrom view 0 = [255; 81; 3; 7; 161; 32]) by reflexivity.
  split; [exact H1|]. split; [exact H2|].
  exact (parseEvent_setTempo view 0 0 96 7 161 32 [] H1 H2).
Defined.

(** A time signature of 6/8 at the end of the buffer, cut off after its
    second data byte. *)
Lemma parseEvent_timeSignature_witness :
  let view := [xff; x58; x04; x06; x03] in
  0 <= 0 /\
  bytesFrom view 0 = [255; 88; 4; 6; 3] /\
  parseEvent view 0 0 0 = Ret (mkEvent 0 (TimeSignature 6 8) 7).
Proof.
  intros view.
  assert (H1 : 0 <= 0) by lia.
  assert (H2 : bytesFrom view 0 = [255; 88; 4; 6; 3]) by reflexivity.
  split; [exact H1|]. split; [exact H2|].
  exact (parseEvent_timeSignature view 0 0 0 6 3 [] H1 H2).
Defined.

(** A track name of two bytes that the buffer does not hold. *)
Lemma parseEvent_meta_skipped_witness :
  let view := [xff; x03; x02] in
  getUint8 view 0 = Ret 255 /\
  getUint8 view (0 + 1) = Ret 3 /\
  3 <> 81 /\ 3 <> 88 /\
  readVariableLength view (0 + 2) = Ret (mkVarLength 2 1) /\
  parseEvent view 0 0 0 = Ret (mkEvent 0 (Meta 3) 5).
Proof.
  intros view.
  assert (H1 : getUint8 view 0 = Ret 255) by reflexivity.
  assert (H2 : getUint8 view (0 + 1) = Ret 3) by reflexivity.
  assert (H3 : 3 <> 81) by lia.
  assert (H4 : 3 <> 88) by lia.
  assert (H5 : readVariableLength view (0 + 2) = Ret (mkVarLength 2 1))
    by (vm_compute; reflexivity).
  repeat (split; [assumption|]).
  exact (parseEvent_meta_skipped view 0 0 0 3 (mkVarLength 2 1) H1 H2 H3 H4 H5).
Defined.

(** A pitch bend message: its second data byte is left in the buffer. *)
Lemma parseEvent_not_decoded_witness :
  let view := [xe0; x00; x40] in
  getUint8 view 0 = Ret 224 /\
  160 <= 224 < 255 /\
  224 / 16 <> 11 /\
  parseEvent view 0 0 0 = Ret (mkEvent 0 Unknown 2).
Proof.
  intros view.
  assert (H1 : getUint8 view 0 = Ret 224) by reflexivity.
  assert (H2 : 160 <= 224 < 255) by lia.
  assert (H3 : 224 / 16 <> 11) by (vm_compute; discriminate).
  repeat (split; [assumption|]).
  exact (parseEvent_not_decoded view 0 0 0 224 H1 H2 H3).
Defined.

(** Two tracks of one event each. *)
Lemma processEvents_track_index_witness :
  let e0 := mkEvent 0 (NoteOn 0 60 100 144) 3 in
  let e1 := mkEvent 0 (NoteOn 1 64 100 145) 3 in
  let p := {| tracks := [mkTrack 4 [e0]; mkTrack 4 [e1]]; ticksPerQuarter := 96;
              p_tempo := 500000; format := Some 1; trackCount := Some 2 |} in
  tracks p !! 1%nat = Some (mkTrack 4 [e1]) /\
  e1 ∈ t_events (mkTrack 4 [e1]) /\
  exists e, e ∈ processEvents p /\ te_event e = e1 /\ te_track e = 1%nat.
Proof.
  intros e0 e1 p.
  assert (H1 : tracks p !! 1%nat = Some (mkTrack 4 [e1])) by reflexivity.
  assert (H2 : e1 ∈ t_events (mkTrack 4 [e1])) by apply list_elem_of_here.
  split; [exact H1|]. split; [exact H2|].
  exact (proj2 (processEvents_track_index p) 1%nat _ e1 H1 H2).
Defined.

Lemma processEvents_constant_tempo_witness :
  let p := {| tracks := [mkTrack 8 [mkEvent 0 (NoteOn 0 60 100 144) 3;
                                    mkEvent 96 (NoteOff 0 60 0 128) 3]];
              ticksPerQuarter := 96; p_tempo := 500000;
              format := Some 0; trackCount := Some 1 |} in
  ticksPerQuarter p <> 0 /\
  noTempoEvents (tracks p) /\
  Forall (fun e => exists q,
              te_seconds e = JS.Fin q /\
              (q == inject_Z (te_time e) * inject_Z 500000 / (inject_Z 96 * 1000000))%Q)
    (processEvents p).
Proof.
  intros p.
  assert (H1 : ticksPerQuarter p <> 0) by (cbn; lia).
  assert (H2 : noTempoEvents (tracks p)) by (repeat constructor).
  split; [exact H1|]. split; [exact H2|].
  exact (processEvents_constant_tempo p H1 H2).
Defined.

(** The file of a note and a tempo event used above. *)
Lemma parse_chunk_layout_witness :
  let buffer :=
    [x4d; x54; x68; x64; x00; x00; x00; x06; x00; x00; x00; x01; x00; x60;
     x4d; x54; x72; x6b; x00; x00; x00; x12;
     x00; x90; x3c; x64;  x60; x80; x3c; x00;
     x00; xff; x51; x03; x07; xa1; x20;
     x00; xff; x2f; x00] in
  exists p events h,
    parse 4 MIDIParser.constructor buffer = Ret (p, events) /\
    parseHeaderChunk buffer 0 = Ret h /\
    length (tracks p) = Z.to_nat (h_trackCount h) /\
    p_tempo p = 500000.
Proof.
  intros buffer. eexists _, _.
  match goal with
  | |- exists h, ?A /\ _ => assert (H : A) by (vm_compute; reflexivity)
  end.
  destruct (parse_chunk_layout _ _ _ _ _ H) as (h & Hh & _ & _ & _ & Htempo & Hlen & _).
  exists h. split; [exact H|]. split; [exact Hh|]. split; [exact Hlen|exact Htempo].
Defined.

Lemma parse_ends_witness :
  let buffer :=
    [x4d; x54; x68; x64; x00; x00; x00; x06; x00; x00; x00; x01; x00; x60;
     x4d; x54; x72; x6b; x00; x00; x00; x14;
     x00; xff; x03; x04; xc3; xa9; xc3; xa9;
     x00; x90; x3c; x64;  x60; x80; x3c; x00;
     x00; xff; x2f; x00] in
  metaLengthsFit buffer = true /\
  (length buffer <= 42)%nat /\
  ((exists result, parse 42 MIDIParser.constructor buffer = Ret result)
   \/ parse 42 MIDIParser.constructor buffer = Throw RangeError
   \/ (exists message, parse 42 MIDIParser.constructor buffer = Throw (Error message))).
Proof.
  intros buffer.
  assert (H1 : metaLengthsFit buffer = true) by (vm_compute; reflexivity).
  assert (H2 : (length buffer <= 42)%nat) by (cbn; lia).
  split; [exact H1|]. split; [exact H2|].
  exact (parse_ends MIDIParser.constructor buffer 42 H1 H2).
Defined.

(** ** The player *)


Lemma pause_then_resume_witness :
  let p := play (JS.Fin 10) MIDIPlayer.constructor in
  isPlaying p = true /\ isPaused p = false /\
  play (JS.Fin 15) (pause p) = resume (JS.Fin 15) (pause p) /\
  eventIndex (resume (JS.Fin 15) (pause p)) = eventIndex p /\
  startTime (resume (JS.Fin 15) (pause p)) = JS.sub (JS.Fin 15) (currentTime p).
Proof.
  intros p.
  assert (H1 : isPlaying p = true) by reflexivity.
  assert (H2 : isPaused p = false) by reflexivity.
  repeat (split; [assumption|]).
  destruct (pause_then_resume (JS.Fin 15) p H1 H2)
    as (Hplay & _ & _ & Hidx & _ & _ & _ & _ & Hstart).
  split; [exact Hplay|]. split; [exact Hidx|exact Hstart].
Defined.

Lemma load_plays_loaded_events_witness :
  let loaded :=
    [mkTimed (mkEvent 0 (NoteOn 0 60 100 144) 3) 0 (JS.Fin 0);
     mkTimed (mkEvent 96 (NoteOff 0 60 0 128) 3) 0 (JS.Fin 1)] in
  let q := load loaded MIDIPlayer.constructor in
  exists e,
    e ∈ events q /\
    keepOnLoad e = true /\
    exists te, loaded !! pe_id e = Some te /\ te_event (pe_event e) = te_event te.
Proof.
  intros loaded q.
  assert (H : exists e, events q !! 0%nat = Some e) by (eexists; vm_compute; reflexivity).
  destruct H as [e He]. exists e.
  assert (Hin : e ∈ events q) by (eapply list_elem_of_lookup_2, He).
  split; [exact Hin|].
  destruct (proj1 (proj2 (load_plays_loaded_events loaded MIDIPlayer.constructor)) e Hin)
    as ((te & Hte & Hev & _) & Hkeep & _).
  split; [exact Hkeep|]. exists te. split; [exact Hte|exact Hev].
Defined.

(** ** The keyboard *)

Lemma sustained_key_keeps_sounding_witness :
  let k := VirtualKeyboard.toggleSustain VirtualKeyboard.constructor in
  VirtualKeyboard.sustainMode k = true /\
  VirtualKeyboard.keyNumber "C" 0 k = Some 60 /\
  12 <= 60 <= 125 /\
  length (VirtualKeyboard.keyStates k) = 114%nat /\
  (VirtualKeyboard.noteKeyOf "C" (VirtualKeyboard.currentOctave k + 0)
     ∉ VirtualKeyboard.physicallyPressed k) /\
  exists k1 k2,
    VirtualKeyboard.pressKey "C" 0 k = Ret k1 /\
    VirtualKeyboard.releaseKey "C" 0 k1 = Ret k2 /\
    VirtualKeyboard.keyStates k2 !! Z.to_nat (60 - 12) = Some true.
Proof.
  intros k.
  assert (H1 : VirtualKeyboard.sustainMode k = true) by reflexivity.
  assert (H2 : VirtualKeyboard.keyNumber "C" 0 k = Some 60) by (vm_compute; reflexivity).
  assert (H3 : 12 <= 60 <= 125) by lia.
  assert (H4 : length (VirtualKeyboard.keyStates k) = 114%nat) by reflexivity.
  assert (H5 : (VirtualKeyboard.noteKeyOf "C" (VirtualKeyboard.currentOctave k + 0))
               ∉ (VirtualKeyboard.physicallyPressed k)) by apply not_elem_of_empty.
  repeat (split; [assumption|]).
  destruct (sustained_key_keeps_sounding "C" 0 60 k H1 H2 H3 H4 H5)
    as (k1 & k2 & Hp & Hr & _ & _ & Hst & _).
  exists k1, k2. split; [exact Hp|]. split; [exact Hr|exact Hst].
Defined.

Lemma keyLayout_reach_witness :
  let k := VirtualKeyboard.constructor in
  let key := VirtualKeyboard.mkLayoutKey "F" true "'" (Some 1) in
  0 <= VirtualKeyboard.currentOctave k <= 7 /\
  key ∈ VirtualKeyboard.keyLayout /\
  exists m,
    VirtualKeyboard.keyNumber "F" (VirtualKeyboard.octaveOffsetOf key) k = Some m /\
    12 <= m <= 113.
Proof.
  intros k key.
  assert (H1 : 0 <= VirtualKeyboard.currentOctave k <= 7) by (cbn; lia).
  assert (H2 : key ∈ VirtualKeyboard.keyLayout).
  { apply list_elem_of_In. vm_compute. tauto. }
  split; [exact H1|]. split; [exact H2|].
  destruct (keyLayout_reach k key H1 H2) as (m & Hm & _ & Hrange).
  exists m. split; [exact Hm|exact Hrange].
Defined.

(** C is pressed, the octave goes up, the key is let go and D is
    pressed. *)
Lemma keys_sound_while_held_witness :
  let actions :=
    [VirtualKeyboard.Press "C" 0; VirtualKeyboard.ChangeOctave 1;
     VirtualKeyboard.Release "C" 0; VirtualKeyboard.Press "D" 0] in
  Forall (fun a => VirtualKeyboard.isToggleSustain a = false) actions /\
  exists k,
    VirtualKeyboard.run actions VirtualKeyboard.constructor = Ret k /\
    length (VirtualKeyboard.keyStates k) = 114%nat /\
    forall i, VirtualKeyboard.keyStates k !! i = Some true <-> VirtualKeyboard.held k i.
Proof.
  intros actions.
  assert (H1 : Forall (fun a => VirtualKeyboard.isToggleSustain a = false) actions)
    by (repeat constructor).
  split; [exact H1|]. eexists.
  match goal with
  | |- ?A /\ _ => assert (H2 : A) by (vm_compute; reflexivity)
  end.
  split; [exact H2|].
  destruct (keys_sound_while_held actions _ H1 H2) as (_ & Hlen & Hheld).
  split; [exact Hlen|exact Hheld].
Defined.

Lemma noteToMidi_names_witness :
  VirtualKeyboard.midiNoteOf "A" 4 = Ret (Some 69) /\
  AudioEngine.getNoteNameFromMidi 69 = Some "A" /\
  69 / 12 - 1 = 4.
Proof.
  assert (H : VirtualKeyboard.midiNoteOf "A" 4 = Ret (Some 69)) by (vm_compute; reflexivity).
  split; [exact H|].
  destruct (noteToMidi_names "A" 4 69 H) as (Hname & Hoctave & _).
  split; [exact Hname|exact Hoctave].
Defined.

(** ** The audio engine and the curves *)

Lemma updateFromKeyboard_follows_keys_witness :
  let keyStates := [false; true; false] in
  12 <= 13 < 12 + Z.of_nat (length keyStates) /\
  (13 ∈ AudioEngine.sounding
          (AudioEngine.updateFromKeyboard (Some keyStates) AudioEngine.constructor)
   <-> keyStates !! Z.to_nat (13 - 12) = Some true).
Proof.
  intros keyStates.
  assert (H : 12 <= 13 < 12 + Z.of_nat (length keyStates)) by (cbn; lia).
  split; [exact H|].
  exact (proj1 (updateFromKeyboard_follows_keys keyStates AudioEngine.constructor 13) H).
Defined.

Section TuningWitness.
Local Open Scope R_scope.

Lemma equal_temperament_scale_witness :
  AudioEngine.useJustIntonation AudioEngine.constructor = false /\
  AudioEngine.midiToFrequency AudioEngine.constructor 69 = Some 440.
Proof.
  assert (H : AudioEngine.useJustIntonation AudioEngine.constructor = false) by reflexivity.
  split; [exact H|].
  exact (proj1 (equal_temperament_scale AudioEngine.constructor H)).
Defined.

(** Middle C with the root key A: the ratio is that of a minor third
    above the A of the same octave, note 69. *)
Lemma just_intonation_scale_witness :
  let e := AudioEngine.mkEngine true 9 [] in
  AudioEngine.useJustIntonation e = true /\
  (0 <= AudioEngine.rootKey e <= 11)%Z /\
  (0 <= 60)%Z /\
  exists ratio,
    AudioEngine.justRatios !! 3%nat = Some ratio /\
    AudioEngine.midiToFrequency e 60 = Some (AudioEngine.equalTemperament 69 * ratio).
Proof.
  intros e.
  assert (H1 : AudioEngine.useJustIntonation e = true) by reflexivity.
  assert (H2 : (0 <= AudioEngine.rootKey e <= 11)%Z) by (cbn; lia).
  assert (H3 : (0 <= 60)%Z) by lia.
  repeat (split; [assumption|]).
  destruct (just_intonation_scale e 60 H1 H2 H3) as (ratio & Hratio & _ & Hf & _).
  exists ratio. split; [exact Hratio|exact Hf].
Defined.

Lemma createCurve_within_cube_witness :
  exists c px py pz,
    LissajousGenerator.createCurve 4 [440] = Some c /\
    (px, py, pz) ∈ LissajousGenerator.points c /\
    -5 <= px <= 5 /\ -5 <= py <= 5 /\ -5 <= pz <= 5.
Proof.
  destruct (LissajousGenerator.createCurve 4 [440]) as [c|] eqn:Hc; [|discriminate].
  pose proof (createCurve_points_map _ _ _ Hc) as Hpoints.
  change (seq 0 LissajousGenerator.numPoints) with (0%nat :: seq 1 1999) in Hpoints.
  cbn [map] in Hpoints.
  destruct (LissajousGenerator.pointAt 4 (LissajousGenerator.ratios c) 0)
    as [[px py] pz] eqn:Hp.
  assert (Hin : (px, py, pz) ∈ LissajousGenerator.points c)
    by (rewrite Hpoints; apply list_elem_of_here).
  exists c, px, py, pz. split; [reflexivity|]. split; [exact Hin|].
  exact (createCurve_within_cube 4 [440] c px py pz Hc Hin).
Defined.

End TuningWitness.

(** ** Tracks and notes *)

(** A track whose name holds bytes with the high bit set: the noteOff
    comes 96 ticks after the noteOn. *)
Lemma parseTrackChunk_event_times_witness :
  let chunk :=
    [x4d; x54; x72; x6b; x00; x00; x00; x14;
     x00; xff; x03; x04; xc3; xa9; xc3; xa9;
     x00; x90; x3c; x64;  x60; x80; x3c; x00;
     x00; xff; x2f; x00] in
  let before := [mkEvent 0 (Meta 3) 7; mkEvent 0 (NoteOn 0 60 100 144) 3] in
  let e := mkEvent 96 (NoteOff 0 60 0 128) 3 in
  let after := [mkEvent 96 EndOfTrack 3] in
  let tr := mkTrack 20 (before ++ e :: after) in
  parseTrackChunk 20 chunk 0 = Ret tr /\
  t_events tr = before ++ e :: after /\
  exists o deltaTime,
    readVariableLength chunk o = Ret deltaTime /\
    ev_time e = lastTime before + vl_value deltaTime.
Proof.
  intros chunk before e after tr.
  assert (H1 : parseTrackChunk 20 chunk 0 = Ret tr) by (vm_compute; reflexivity).
  assert (H2 : t_events tr = before ++ e :: after) by reflexivity.
  split; [exact H1|]. split; [exact H2|].
  destruct (parseTrackChunk_event_times 20 chunk 0 tr before after e H1 H2)
    as (o & deltaTime & Hdelta & _ & Htime & _).
  exists o, deltaTime. split; [exact Hdelta|exact Htime].
Defined.

Lemma getTrackInfo_noteRange_witness :
  let loaded :=
    [mkTimed (mkEvent 0 (NoteOn 0 60 100 144) 3) 0 (JS.Fin 0);
     mkTimed (mkEvent 96 (NoteOff 0 60 0 128) 3) 0 (JS.Fin 1)] in
  let p := load loaded MIDIPlayer.constructor in
  (0 < noteCount (getTrackInfo p))%nat /\
  exists lo hi, noteRange (getTrackInfo p) = (JS.ofZ lo, JS.ofZ hi).
Proof.
  intros loaded p.
  assert (H : (0 < noteCount (getTrackInfo p))%nat) by (vm_compute; lia).
  split; [exact H|].
  destruct (proj2 (getTrackInfo_noteRange p) H) as (lo & hi & Hrange & _).
  exists lo, hi. exact Hrange.
Defined.
